(** * umi-bayes: UMI-aware duplicate marking

Shallow embedding of the Python sources
  - [lib/umi_data.py]        (UMI strings, read names, count tables,
                              choice of the reads to flag),
  - [lib/bayes_estimate.py]  (median, apportionment, Bayesian estimator),
  - [lib/poisson_mixture.py] (the entry point [dedup_cluster]),
  - [dedup.py]               (the two passes over the input and the
                              final consistency assertion),
followed by the properties checked against them.

Python values are modelled as follows.  [int] is [Z]; [float] is the
kernel's binary64 [float]; [str] is [string]; a [list] is a [list]; an
[OrderedDict] is an association list in insertion order; an exception
is the left summand of [result].  A list that the code mutates in
place is threaded through explicitly: the function returns the new
contents of the object next to its value.  Alignment records are
objects with identity: they live in a heap and are named by their
address. *)

From Stdlib Require Import ZArith List Lia Bool Ascii String.
From Stdlib Require Import Floats Uint63.
From Stdlib Require Import Permutation Sorted.
Import ListNotations.

Set Implicit Arguments.

Local Open Scope Z_scope.

(* ================================================================= *)
(** ** The Python runtime the sources rely on *)

Module Py.

(** The exception classes the modelled code can raise. *)
Inductive exn : Set :=
| ZeroDivisionError
| OverflowError
| ValueError
| IndexError
| KeyError
| TypeError
| AssertionError
| RuntimeError.

(** A computation either raises or returns. *)
Definition result (A : Type) : Type := (exn + A)%type.

Definition ret {A} (a : A) : result A := inr a.
Definition raise {A} (e : exn) : result A := inl e.

Definition bind {A B} (m : result A) (k : A -> result B) : result B :=
  match m with
  | inl e => inl e
  | inr a => k a
  end.

(** Two exceptions are of the same class. *)
Definition exn_eqb (e e' : exn) : bool :=
  match e, e' with
  | ZeroDivisionError, ZeroDivisionError
  | OverflowError, OverflowError
  | ValueError, ValueError
  | IndexError, IndexError
  | KeyError, KeyError
  | TypeError, TypeError
  | AssertionError, AssertionError
  | RuntimeError, RuntimeError => true
  | _, _ => false
  end.

(** [try: m  except e: h] *)
Definition catch {A} (m : result A) (e : exn) (h : result A) : result A :=
  match m with
  | inl e' => if exn_eqb e e' then h else inl e'
  | inr a => inr a
  end.

(** [assert b] *)
Definition assert (b : bool) : result unit :=
  if b then ret tt else raise AssertionError.

End Py.

Import Py.

Declare Scope py_scope.
Delimit Scope py_scope with py.
Notation "x <- m ;; k" := (bind m (fun x => k))
  (at level 61, m at next level, right associativity) : py_scope.
Notation "m ;;; k" := (bind m (fun _ => k))
  (at level 61, right associativity) : py_scope.
Local Open Scope py_scope.

Module Builtins.

(** [sum(xs)] over ints. *)
Definition py_sum (xs : list Z) : Z := fold_left Z.add xs 0.

(** [len(xs)] *)
Definition len {A} (xs : list A) : Z := Z.of_nat (List.length xs).

(** [max(xs)] over ints; the empty sequence raises [ValueError]. *)
Definition py_max (xs : list Z) : result Z :=
  match xs with
  | [] => raise ValueError
  | x :: rest => ret (fold_left (fun best y => if best <? y then y else best) rest x)
  end.

(** [xs[i] = f(xs[i])] for an index in range (out of range the list is
    returned as it is; the callers below only pass indices they got
    from the list itself). *)
Fixpoint update {A} (xs : list A) (i : nat) (f : A -> A) : list A :=
  match xs, i with
  | [], _ => []
  | x :: rest, O => f x :: rest
  | x :: rest, S j => x :: update rest j f
  end.

(** [[f(x) for x in xs]] where [f] may raise: evaluation is left to
    right and stops at the first exception. *)
Fixpoint for_each {A B} (f : A -> result B) (xs : list A) : result (list B) :=
  match xs with
  | [] => ret []
  | x :: rest => y <- f x ;; ys <- for_each f rest ;; ret (y :: ys)
  end.

(** *** Floats *)

(** Integers of absolute value [2^1024 - 2^970] and above round to a
    binary64 value out of range: converting them raises
    [OverflowError]. *)
Definition float_int_limit : Z := 2 ^ 1024 - 2 ^ 970.

(** The 53-bit significand and the exponent of an integer of more than
    53 bits, rounded to nearest, ties to even. *)
Definition round_to_53 (a : Z) : Z * Z :=
  let sh := Z.log2 a + 1 - 53 in
  let q := Z.shiftr a sh in
  let r := Z.land a (Z.ones sh) in
  let half := 2 ^ (sh - 1) in
  let q' := if (half <? r) || ((r =? half) && Z.odd q) then q + 1 else q in
  (q', sh).

(** The float nearest to a non-negative integer: the integer itself up
    to 53 bits. *)
Definition float_of_nonneg (a : Z) : float :=
  if Z.log2 a + 1 <=? 53 then PrimFloat.of_uint63 (Uint63.of_Z a)
  else
    let (m, e) := round_to_53 a in
    Z.ldexp (PrimFloat.of_uint63 (Uint63.of_Z m)) e.

(** [float(z)], also the implicit conversion of an int operand of a
    float operation. *)
Definition float_of_int (z : Z) : result float :=
  if float_int_limit <=? Z.abs z then raise OverflowError
  else ret (if z <? 0 then PrimFloat.opp (float_of_nonneg (- z)) else float_of_nonneg z).

(** [x / y] on floats: a zero divisor raises. *)
Definition float_truediv (x y : float) : result float :=
  if PrimFloat.eqb y PrimFloat.zero then raise ZeroDivisionError
  else ret (PrimFloat.div x y).

(** [round(x)] of Python 2 (the code base uses implicit relative
    imports): the nearest integral value, halfway cases away from
    zero.  Its value is returned as an integer; infinities and nan have
    none, and are reported the way [int()] reports them (Python 2 hands
    them on as floats: the statements below that go through [py_round]
    say nothing of what follows a nan or an infinity). *)
Definition py_round (x : float) : result Z :=
  match Prim2SF x with
  | S754_zero _ => ret 0
  | S754_finite s m e =>
      let a := if 0 <=? e then Z.pos m * 2 ^ e
               else (Z.pos m + 2 ^ (- e - 1)) / 2 ^ (- e) in
      ret (if s then - a else a)
  | S754_infinity _ => raise OverflowError
  | S754_nan => raise ValueError
  end.

(** [xs.index(max(xs))] over floats.  [max] keeps the first item and
    replaces it only by a strictly greater one, so the item it returns
    sits at the first position holding the maximum; that position is
    what [index] finds.  The empty list raises [ValueError]. *)
Fixpoint index_of_max_from (best : float) (besti : nat) (i : nat) (xs : list float) : nat :=
  match xs with
  | [] => besti
  | x :: rest =>
      if PrimFloat.ltb best x then index_of_max_from x i (S i) rest
      else index_of_max_from best besti (S i) rest
  end.

Definition index_of_max (xs : list float) : result nat :=
  match xs with
  | [] => raise ValueError
  | x :: rest => ret (index_of_max_from x 0%nat 1%nat rest)
  end.

(** [xs.sort()] / [sorted(xs, key)]: a stable sort by [<] on the keys.
    Insertion of the items from the right, each one before the first
    item that is not strictly smaller, gives the stable order; it is
    the list every stable comparison sort returns when [<] is a strict
    weak order on the keys (as it is on ints, and on floats other than
    nan). *)
Section Sort.

Variables (A K : Type) (key : A -> K) (lt : K -> K -> bool).

Fixpoint insert (x : A) (xs : list A) : list A :=
  match xs with
  | [] => [x]
  | y :: rest => if lt (key y) (key x) then y :: insert x rest else x :: y :: rest
  end.

Definition sorted (xs : list A) : list A := fold_right insert [] xs.
End Sort.

(** [for x in xs: body], threading the variables the body assigns;
    an exception leaves the loop. *)
Fixpoint for_in {A S} (xs : list A) (body : S -> A -> result S) (s : S) : result S :=
  match xs with
  | [] => ret s
  | x :: rest => s' <- body s x ;; for_in rest body s'
  end.

(** [zip(xs, ys, zs)]: as long as the shortest argument. *)
Fixpoint zip3 {A B C} (xs : list A) (ys : list B) (zs : list C) : list (A * B * C) :=
  match xs, ys, zs with
  | x :: xs', y :: ys', z :: zs' => (x, y, z) :: zip3 xs' ys' zs'
  | _, _, _ => []
  end.

End Builtins.

Import Builtins.

(* ================================================================= *)
(** ** collections.OrderedDict with [str] keys *)

Module OrderedDict.

Definition t (V : Type) : Type := list (string * V).

Definition keys {V} (d : t V) : list string := map fst d.
Definition values {V} (d : t V) : list V := map snd d.
Definition items {V} (d : t V) : list (string * V) := d.

(** [d[k]]; a missing key raises [KeyError]. *)
Fixpoint get {V} (d : t V) (k : string) : result V :=
  match d with
  | [] => raise KeyError
  | (k', v) :: rest => if String.eqb k' k then ret v else get rest k
  end.

(** [d[k] = v]: an existing key keeps its place, a new one goes last. *)
Fixpoint set {V} (d : t V) (k : string) (v : V) : t V :=
  match d with
  | [] => [(k, v)]
  | (k', v') :: rest =>
      if String.eqb k' k then (k', v) :: rest else (k', v') :: set rest k v
  end.

(** [OrderedDict(pairs)] *)
Definition of_pairs {V} (pairs : list (string * V)) : t V :=
  fold_left (fun d kv => set d (fst kv) (snd kv)) pairs [].

End OrderedDict.

(* ================================================================= *)
(** ** Alignment records (pysam.AlignedSegment) and lib/parse_sam.py *)

Module parse_sam.

(** The fields of an alignment record that the modelled code reads or
    writes. *)
Record read : Type := {
  query_name : string;
  is_unmapped : bool;
  is_secondary : bool;
  is_supplementary : bool;
  is_qcfail : bool;
  query_qualities : list Z;
  is_duplicate : bool
}.

Definition set_is_duplicate (b : bool) (r : read) : read :=
  {| query_name := query_name r;
     is_unmapped := is_unmapped r;
     is_secondary := is_secondary r;
     is_supplementary := is_supplementary r;
     is_qcfail := is_qcfail r;
     query_qualities := query_qualities r;
     is_duplicate := b |}.

(** Modelled from the spec: [parse_sam.get_quality] is not among the
    sources.  The aggregate quality of a record is the sum of its
    per-base quality values. *)
Definition get_quality (r : read) : Z := py_sum (query_qualities r).

(** Modelled from the spec: [parse_sam.read_is_good] is not among the
    sources.  A record is usable unless it is unmapped, secondary,
    supplementary, or fails the platform/QC checks. *)
Definition read_is_good (r : read) : bool :=
  negb (is_unmapped r || is_secondary r || is_supplementary r || is_qcfail r).

(** The records are objects: a heap of records, named by address. *)
Definition heap : Type := list read.
Definition address : Type := nat.

(** [get_quality] through a reference. *)
Definition quality_at (h : heap) (a : address) : Z :=
  match nth_error h a with
  | Some r => get_quality r
  | None => 0
  end.

Definition flag_at (h : heap) (a : address) : bool :=
  match nth_error h a with
  | Some r => is_duplicate r
  | None => false
  end.

End parse_sam.

(* ================================================================= *)
(** ** The [str] methods used by the sources *)

Module Str.

Local Open Scope string_scope.
Local Open Scope Z_scope.

Definition fst3 {A B C} (p : A * B * C) : A := fst (fst p).
Definition thd3 {A B C} (p : A * B * C) : C := snd p.

(** [s.count(c)] for a single character [c]. *)
Fixpoint count (c : ascii) (s : string) : Z :=
  match s with
  | EmptyString => 0
  | String a rest => (if Ascii.eqb a c then 1 else 0) + count c rest
  end.

(** [s.split(c)]: the pieces between the occurrences of [c]; there is
    always at least one piece. *)
Fixpoint split (c : ascii) (s : string) : list string :=
  match s with
  | EmptyString => [EmptyString]
  | String a rest =>
      if Ascii.eqb a c then EmptyString :: split c rest
      else match split c rest with
           | tok :: toks => String a tok :: toks
           | [] => [String a EmptyString]
           end
  end.

(** [s.partition(c)]: around the first [c]; [(s, '', '')] without one. *)
Fixpoint partition (c : ascii) (s : string) : string * string * string :=
  match s with
  | EmptyString => (EmptyString, EmptyString, EmptyString)
  | String a rest =>
      if Ascii.eqb a c then (EmptyString, String c EmptyString, rest)
      else let '(h, sep, t) := partition c rest in (String a h, sep, t)
  end.

(** [s.rpartition(c)]: around the last [c]; [('', '', s)] without one. *)
Fixpoint rpartition (c : ascii) (s : string) : string * string * string :=
  match s with
  | EmptyString => (EmptyString, EmptyString, EmptyString)
  | String a rest =>
      let '(h, sep, t) := rpartition c rest in
      match sep with
      | EmptyString =>
          if Ascii.eqb a c then (EmptyString, String c EmptyString, rest)
          else (EmptyString, EmptyString, String a t)
      | _ => (String a h, sep, t)
      end
  end.

(** [s[:stop]]; a negative [stop] counts from the end. *)
Definition slice_to (s : string) (stop : Z) : string :=
  let n := Z.of_nat (String.length s) in
  let k := if stop <? 0 then Z.max 0 (n + stop) else stop in
  substring 0 (Z.to_nat k) s.

(** [c in s] *)
Fixpoint contains (s : string) (c : ascii) : bool :=
  match s with
  | EmptyString => false
  | String a rest => Ascii.eqb a c || contains rest c
  end.

(** [re.compile('[^' + cls + ']').search(s)]: the position of the
    first character of [s] that is not in the class, if any (a negated
    class also matches a newline). *)
Fixpoint search_not_in (cls : string) (s : string) : option nat :=
  match s with
  | EmptyString => None
  | String a rest =>
      if contains cls a then option_map S (search_not_in cls rest)
      else Some O
  end.

(** [c.isspace()] for a byte of a [str]: space, tab, newline, vertical
    tab, form feed and carriage return. *)
Definition is_space (a : ascii) : bool :=
  let n := Z.of_nat (nat_of_ascii a) in
  (n =? 32) || ((9 <=? n) && (n <=? 13)).

(** [s.split()]: the pieces between the runs of whitespace; no piece is
    empty, and a string of whitespace only has none. *)
Fixpoint split_whitespace (s : string) : list string :=
  match s with
  | EmptyString => []
  | String a rest =>
      if is_space a then split_whitespace rest
      else match rest with
           | EmptyString => [String a EmptyString]
           | String b _ =>
               if is_space b then String a EmptyString :: split_whitespace rest
               else match split_whitespace rest with
                    | tok :: toks => String a tok :: toks
                    | [] => [String a EmptyString]
                    end
           end
  end.

(** The value of a string of decimal digits, read from the left. *)
Fixpoint digits_value (s : string) (acc : Z) : option Z :=
  match s with
  | EmptyString => Some acc
  | String a rest =>
      let n := Z.of_nat (nat_of_ascii a) in
      if (48 <=? n) && (n <=? 57) then digits_value rest (10 * acc + (n - 48))
      else None
  end.

(** [int(s)] for a [str] without whitespace: an optional sign and at
    least one decimal digit; anything else raises [ValueError]. *)
Definition py_int (s : string) : result Z :=
  let '(negative, body) :=
    match s with
    | String "-" rest => (true, rest)
    | String "+" rest => (false, rest)
    | _ => (false, s)
    end in
  match body with
  | EmptyString => raise ValueError
  | _ =>
      match digits_value body 0 with
      | Some z => ret (if negative then - z else z)
      | None => raise ValueError
      end
  end.

End Str.

(* ================================================================= *)
(** ** lib/umi_data.py *)

Module umi_data.

Import parse_sam.
Local Open Scope string_scope.
Local Open Scope Z_scope.

Definition alphabet : string := "ACGT".
Definition default_pair_separator : string := "+".
(** [re_exclusion = re.compile('[^%s]' % (alphabet + default_pair_separator))] *)
Definition re_exclusion : string := alphabet ++ default_pair_separator.

Definition umi_is_good (umi : string) : bool :=
  match Str.search_not_in re_exclusion umi with
  | None => true
  | Some _ => false
  end.

(** [itertools.product(alphabet, repeat = length)], each tuple joined. *)
Fixpoint make_umi_list (length : nat) (alphabet : string) : list string :=
  match length with
  | O => [EmptyString]
  | S k => flat_map (fun a => map (String a) (make_umi_list k alphabet))
                    (list_ascii_of_string alphabet)
  end.

(** [make_umi_counts(umi_list, counts)]: without [counts], [zip] raises
    [TypeError] and every UMI gets 0. *)
Definition make_umi_counts (umi_list : list string) (counts : option (list Z))
  : OrderedDict.t Z :=
  match counts with
  | Some cs => OrderedDict.of_pairs (combine umi_list cs)
  | None => OrderedDict.of_pairs (map (fun umi => (umi, 0)) umi_list)
  end.

(** The [for label in ...] loop of [get_umi]: it returns from the first
    label with 5 or 7 colons and raises when it runs out of labels. *)
Fixpoint get_umi_labels (labels : list string) (truncate : option Z) : result string :=
  match labels with
  | [] => raise RuntimeError
  | label :: rest =>
      if (Str.count ":" label =? 5) || (Str.count ":" label =? 7) then
        let umi := Str.thd3 (Str.rpartition ":"
                     (Str.fst3 (Str.partition "/"
                        (Str.fst3 (Str.partition "#" label))))) in
        ret (match truncate with
             | None => umi
             | Some t => Str.slice_to umi t
             end)
      else get_umi_labels rest truncate
  end.

Definition get_umi (read_name : string) (truncate : option Z) : result string :=
  get_umi_labels (firstn 2 (Str.split " " read_name)) truncate.

(** The body of the loop of [read_umi_counts_from_table] on [result]:
    a line without a token is passed over (the outer [IndexError]), a
    line without a second token gives the count 0 (the inner one), and
    the [ValueError] of [int] is not caught. *)
Definition read_table_line (truncate : option Z) (result0 : OrderedDict.t Z) (line : string)
  : result (OrderedDict.t Z) :=
  match Str.split_whitespace line with
  | [] => ret result0
  | umi0 :: rest =>
      let umi := match truncate with
                 | None => umi0
                 | Some t => Str.slice_to umi0 t
                 end in
      match rest with
      | [] => ret (OrderedDict.set result0 umi 0)
      | count :: _ => v <- Str.py_int count ;; ret (OrderedDict.set result0 umi v)
      end
  end.

(** [read_umi_counts_from_table(in_file, truncate)]; the file is the
    list of its lines. *)
Definition read_umi_counts_from_table (in_file : list string) (truncate : option Z)
  : result (OrderedDict.t Z) :=
  result0 <- for_in in_file (read_table_line truncate) [] ;;
  match result0 with
  | [] => raise RuntimeError
  | _ => ret result0
  end.

(** The body of the loop of [read_umi_counts_from_reads] on the pair
    [(umi_totals, umi_length)]. *)
Definition count_read (truncate : option Z)
           (st : option (OrderedDict.t Z) * option Z) (r : read)
  : result (option (OrderedDict.t Z) * option Z) :=
  let '(umi_totals, umi_length) := st in
  let read_name := query_name r in
  umi <- get_umi read_name truncate ;;
  let n := Z.of_nat (String.length umi) in
  st' <- match umi_length with
         | None =>
             ret (Some (make_umi_counts (make_umi_list (Z.to_nat n) alphabet) None), Some n)
         | Some l =>
             if n =? l then ret (umi_totals, umi_length) else raise RuntimeError
         end ;;
  let '(umi_totals', umi_length') := st' in
  match umi_totals' with
  | None => raise TypeError
  | Some d =>
      (* [umi_totals[umi] += 1]; a [KeyError] is passed over *)
      d' <- catch (c <- OrderedDict.get d umi ;; ret (OrderedDict.set d umi (c + 1)))
                  KeyError (ret d) ;;
      ret (Some d', umi_length')
  end.

Definition read_umi_counts_from_reads (in_file : list read) (truncate : option Z)
  : result (OrderedDict.t Z) :=
  st <- for_in in_file (count_read truncate) (None, None) ;;
  match fst st with
  | None => raise RuntimeError
  | Some umi_totals => ret umi_totals
  end.

(** [mark_duplicates(reads, n)].  [reads] is a list of references into
    the heap of records; the records are flagged in the heap and the
    list itself is returned.  The assertion gives [n <= len(reads)], so
    the indices [0 .. n-1] are the first [n] entries of the sorted
    list. *)
Definition mark_duplicates (h : heap) (reads : list address) (n : Z)
  : result (heap * list address) :=
  assert (n <=? len reads) ;;;
  if 0 <? n then
    let sorted_reads := sorted (quality_at h) Z.ltb reads in
    ret (fold_left (fun h' a => update h' a (set_is_duplicate true))
                   (firstn (Z.to_nat n) sorted_reads) h,
         reads)
  else ret (h, reads).

End umi_data.

(* ================================================================= *)
(** ** lib/bayes_estimate.py *)

Module bayes_estimate.

Definition DEFAULT_NSAMP : Z := 1000.
Definition DEFAULT_NTHIN : Z := 1.
Definition DEFAULT_NBURN : Z := 200.

(** [computeMedian(list)].  The argument is sorted in place: the
    second component is the contents of the caller's list afterwards.
    [lens / 2] is a true division ([from __future__ import division])
    and [int()] truncates it. *)
Definition computeMedian (list0 : list float) : result float * list float :=
  let list1 := sorted (fun x => x) PrimFloat.ltb list0 in
  let lens := List.length list1 in
  (if Nat.eqb (lens mod 2) 0 then
     (* [int(lens / 2 - 1)] is -1 on the empty list, and [list[-1]]
        is then out of range *)
     match lens with
     | O => raise IndexError
     | _ =>
         let odd := (lens / 2 - 1)%nat in
         let ev := (lens / 2)%nat in
         match nth_error list1 odd, nth_error list1 ev with
         | Some a, Some b => float_truediv (PrimFloat.add a b) 2%float
         | _, _ => raise IndexError
         end
     end
   else
     match nth_error list1 (lens / 2)%nat with
     | Some a => ret a
     | None => raise IndexError
     end,
   list1).

(** The [while remaining_counts > 0] loop of [apportion_counts]; the
    counter goes down by one per turn, so it makes
    [max(0, remaining_counts)] turns. *)
Fixpoint increment_loop (turns : nat) (result0 : list Z) (residuals : list float)
  : result (list Z) :=
  match turns with
  | O => ret result0
  | S turns' =>
      which_to_increment <- index_of_max residuals ;;
      increment_loop turns'
        (update result0 which_to_increment (fun c => c + 1))
        (update residuals which_to_increment (fun r => PrimFloat.sub r 1%float))
  end.

(** [divisor = float(target_sum) / sum(counts)] *)
Definition divisor_of (counts : list Z) (target_sum : Z) : result float :=
  t <- float_of_int target_sum ;;
  s <- float_of_int (py_sum counts) ;;
  float_truediv t s.

(** [apportion_counts(counts, target_sum)].  The quotients are a
    generator: they are computed while the residuals are built. *)
Definition apportion_counts (counts : list Z) (target_sum : Z) : result (list Z) :=
  divisor <- divisor_of counts target_sum ;;
  let result0 := map (fun count => if 0 <? count then 1 else 0) counts in
  residuals <- for_each
                 (fun cn : Z * Z =>
                    c <- float_of_int (fst cn) ;;
                    quotient <- float_truediv c divisor ;;
                    n <- float_of_int (snd cn) ;;
                    ret (PrimFloat.sub quotient n))
                 (combine counts result0) ;;
  let remaining_counts := target_sum - py_sum result0 in
  increment_loop (Z.to_nat remaining_counts) result0 residuals.

(** What a call of [deduplicate_counts] leaves behind: what it returns
    or raises, and the contents of the list of posterior draws (when
    the sampler produced one) at that point. *)
Record outcome : Type := {
  returned : result (OrderedDict.t Z);
  pi_post_after : option (list float)
}.

Section Sampler.

(** [MCMC_algorithm_pi.MCMC_algorithm], the Gibbs sampler, is outside
    the repository: any function from its ten arguments to a list of
    posterior draws of [pi] (or an exception). *)
Variable MCMC_algorithm :
  list Z -> Z -> Z -> list float -> list float -> list float ->
  Z -> Z -> Z -> bool -> result (list float).

(** Lines 13-24: the positive counts, and for the non-uniform prior
    the totals of their UMIs. *)
Definition collect_data (umi_counts : OrderedDict.t Z) (uniform : bool)
           (total_counts : option (OrderedDict.t Z)) : result (list Z * list Z) :=
  if uniform then
    ret (filter (fun value => 0 <? value) (OrderedDict.values umi_counts), [])
  else
    for_in (OrderedDict.items umi_counts)
           (fun (acc : list Z * list Z) (kv : string * Z) =>
              if 0 <? snd kv then
                tc <- match total_counts with
                      | None => raise TypeError
                      | Some d => OrderedDict.get d (fst kv)
                      end ;;
                ret (fst acc ++ [snd kv], snd acc ++ [tc])
              else ret acc)
           ([], []).

(** Lines 32-38. *)
Definition C_prior_of (uniform : bool) (n : Z) (total_data : list Z) : result (list float) :=
  if uniform then
    nf <- float_of_int n ;;
    x <- float_truediv 1%float nf ;;
    ret (repeat x (Z.to_nat n))
  else
    let N_total := py_sum total_data in
    for_each (fun td =>
                a <- float_of_int td ;;
                d <- float_of_int N_total ;;
                float_truediv (PrimFloat.mul 1.5%float a) d)
             total_data.

(** Lines 13-47: up to the call of the sampler. *)
Definition draw_posterior (umi_counts : OrderedDict.t Z) (nsamp nthin nburn : Z)
           (uniform : bool) (total_counts : option (OrderedDict.t Z))
  : result (list Z * list float) :=
  dt <- collect_data umi_counts uniform total_counts ;;
  let data := fst dt in
  let n := len data in
  let N := py_sum data in
  let pi_prior := [1%float; 1%float] in
  let S_prior := repeat 1%float (Z.to_nat n) in
  C_prior <- C_prior_of uniform n (snd dt) ;;
  pi_post <- MCMC_algorithm data n N S_prior C_prior pi_prior nsamp nthin nburn true ;;
  ret (data, pi_post).

(** The body of the final loop, on [umi_true]. *)
Definition record_estimate (umi_true : OrderedDict.t Z) (item : string * Z * Z)
  : result (OrderedDict.t Z) :=
  let '(umi, raw_count, dedup) := item in
  if raw_count =? 0 then ret (OrderedDict.set umi_true umi raw_count)
  else
    f <- float_of_int dedup ;;
    v <- py_round f ;;
    assert (0 <? v) ;;;
    ret (OrderedDict.set umi_true umi v).

(** Lines 54-68, with the contents of [pi_post] after line 55. *)
Definition distribute (umi_counts : OrderedDict.t Z) (data : list Z) (pi_post : list float)
  : result (OrderedDict.t Z) * list float :=
  let (p_or_exn, pi_post') := computeMedian pi_post in
  (p <- p_or_exn ;;
   N <- float_of_int (py_sum data) ;;
   target <- py_round (PrimFloat.mul p N) ;;
   data_dedup <- apportion_counts data target ;;
   for_in (zip3 (OrderedDict.keys umi_counts) (OrderedDict.values umi_counts) data_dedup)
          record_estimate [],
   pi_post').

Definition deduplicate_counts (umi_counts : OrderedDict.t Z) (nsamp nthin nburn : Z)
           (uniform : bool) (total_counts : option (OrderedDict.t Z)) : outcome :=
  match draw_posterior umi_counts nsamp nthin nburn uniform total_counts with
  | inl e => {| returned := inl e; pi_post_after := None |}
  | inr (data, pi_post) =>
      let (r, pi_post') := distribute umi_counts data pi_post in
      {| returned := r; pi_post_after := Some pi_post' |}
  end.

End Sampler.

End bayes_estimate.

(* ================================================================= *)
(** ** lib/poisson_mixture.py *)

Module poisson_mixture.

Definition DEFAULT_KMAX : Z := 10.

(** Modelled from the spec: the class [umi_data.UmiValues] is not among
    the sources.  A UMI Count Table is an ordered mapping from UMI to
    count that supports full iteration, iteration over the present
    (nonzero) entries and the count of nonzero entries. *)
Definition UmiValues : Type := OrderedDict.t Z.

(** Modelled from the spec: the present entries of a [UmiValues], those
    with a nonzero count, in the order of the table. *)
Definition nonzero_items (umi_counts : UmiValues) : list (string * Z) :=
  filter (fun kv => negb (snd kv =? 0)) umi_counts.

(** Modelled from the spec: [UmiValues.nonzero_values()], the counts of
    the present entries. *)
Definition nonzero_values (umi_counts : UmiValues) : list Z :=
  map snd (nonzero_items umi_counts).

(** Modelled from the spec: [UmiValues.nonzero_keys()], the UMIs of the
    present entries. *)
Definition nonzero_keys (umi_counts : UmiValues) : list string :=
  map fst (nonzero_items umi_counts).

(** Modelled from the spec: [UmiValues.n_nonzero()], the number of
    present entries. *)
Definition n_nonzero (umi_counts : UmiValues) : Z :=
  len (nonzero_items umi_counts).

(** [collections.Counter(xs)] as an association list, a key at the
    place of its first occurrence. *)
Fixpoint counter_set (c : list (Z * Z)) (k : Z) (f : Z -> Z) : list (Z * Z) :=
  match c with
  | [] => [(k, f 0)]
  | (k', v) :: rest => if k' =? k then (k', f v) :: rest else (k', v) :: counter_set rest k f
  end.

Definition Counter (xs : list Z) : list (Z * Z) :=
  fold_left (fun c x => counter_set c x (fun v => v + 1)) xs [].

Section Fit.

(** Lines 178 and 184-192: the table of [math.lgamma(x + 1)], the
    choice of the number of components by BIC ([select_num_comp], on
    numpy and numba floats) and the sum of [num_mol[index] * data[i]]
    over the observed values, an integer.  It is taken as any function
    of the histogram that returns an integer or raises.  ([lgamma] is
    computed before the test on the size of the histogram; it returns
    on the counts from 0 to 10^305 and raises on a negative count, a
    case the model does not have.) *)
Variable mixture_estimate : list Z -> list Z -> Z -> result Z.

(** Lines 172-200: the total handed to the apportionment. *)
Definition final_estimate (umi_counts : UmiValues) (kmax : Z) : result Z :=
  let initial_counts := nonzero_values umi_counts in
  let naive_est := n_nonzero umi_counts in
  let max_est := py_sum initial_counts in
  let counter := counter_set (Counter initial_counts) 0
                             (fun _ => len umi_counts - naive_est) in
  let data := map snd counter in
  let obs := map fst counter in
  if len data <=? 2 then ret naive_est
  else
    est <- mixture_estimate data obs kmax ;;
    if est <=? naive_est then ret naive_est
    else if max_est <=? est then ret max_est
    else ret est (* [int(round(est))] of an integer *).

(** [dedup_cluster(umi_counts, kmax)].  The module [apportion_counts]
    is not among the sources; the function of that name in
    [bayes_estimate.py] is the apportionment utility. *)
Definition dedup_cluster (umi_counts : UmiValues) (kmax : Z) : result UmiValues :=
  let initial_counts := nonzero_values umi_counts in
  m <- py_max initial_counts ;;
  if m =? 1 then ret umi_counts
  else
    est <- final_estimate umi_counts kmax ;;
    data_dedup <- bayes_estimate.apportion_counts initial_counts est ;;
    ret (OrderedDict.of_pairs (combine (nonzero_keys umi_counts) data_dedup)).

End Fit.

End poisson_mixture.

(* ================================================================= *)
(** ** dedup.py *)

Module dedup.

Import parse_sam.

(** The first pass without [--umi_table]: [open(None)] raises
    [TypeError] and the table is built from the reads. *)
Definition first_pass (in_bam : list read) : result (OrderedDict.t Z) :=
  umi_data.read_umi_counts_from_reads in_bam None.

(** The second pass, as far as [read_counter['read']] goes: the guards
    at the head of the loop body and the increment.  The rest of the
    body (the window and [pop_buffer]) never writes that counter. *)
Definition count_usable (counter : Z) (r : read) : result Z :=
  if negb (read_is_good r) then ret counter
  else
    umi <- umi_data.get_umi (query_name r) None ;;
    if negb (umi_data.umi_is_good umi) then ret counter
    else ret (counter + 1).

Definition second_pass_read_counter (in_bam : list read) : result Z :=
  for_in in_bam count_usable 0.

(** [assert sum(umi_totals.values()) == read_counter['read']] at the
    end of a run without [--umi_table]. *)
Definition summary_assertion (in_bam : list read) : result unit :=
  umi_totals <- first_pass in_bam ;;
  n_read <- second_pass_read_counter in_bam ;;
  assert (py_sum (OrderedDict.values umi_totals) =? n_read).

Section Run.

(** The rest of a run without [--umi_table].  From line 86 on the body
    of the second pass calls [parse_sam.get_start_pos] and, through the
    window, the tracker and [pop_buffer] (lines 29-68 and 90-101),
    [optical_duplicates] and [naive_estimate], none of which is among
    the sources; the flush of line 104 does the same.  They are taken
    as any functions that return or raise, on a state [world] that
    holds the rest of the program state: the buffer, the tracker, the
    output file and the other counters.  None of these lines assigns
    [read_counter['read']]. *)
Variables world position : Type.
Variable get_start_pos : read -> result position.
Variable advance_and_track :
  OrderedDict.t Z -> world -> read -> string -> position -> result world.
Variable flush_buffer : OrderedDict.t Z -> world -> result world.

(** The body of the second pass (lines 81-101) on the pair of
    [read_counter['read']] and the rest of the state. *)
Definition second_pass_body (umi_totals : OrderedDict.t Z) (st : Z * world) (r : read)
  : result (Z * world) :=
  if negb (read_is_good r) then ret st
  else
    umi <- umi_data.get_umi (query_name r) None ;;
    if negb (umi_data.umi_is_good umi) then ret st
    else
      let r' := set_is_duplicate false r in
      start_pos <- get_start_pos r' ;;
      let counter := fst st + 1 in
      w <- advance_and_track umi_totals (snd st) r' umi start_pos ;;
      ret (counter, w).

(** Lines 71-109 of a run without [--umi_table]: the first pass, the
    second pass over the same records, the flush and the assertion. *)
Definition run_without_table (in_bam : list read) (w0 : world) : result unit :=
  umi_totals <- first_pass in_bam ;;
  st <- for_in in_bam (second_pass_body umi_totals) (0, w0) ;;
  w <- flush_buffer umi_totals (snd st) ;;
  assert (py_sum (OrderedDict.values umi_totals) =? fst st).

End Run.

End dedup.

(* ================================================================= *)
(** ** Vocabulary of the statements *)

(** The number of positive entries of a list of counts. *)
Definition n_positive (counts : list Z) : Z :=
  len (filter (fun c => 0 <? c) counts).

(** A sampler that returns the same draws whatever it is given. *)
Definition constant_sampler (draws : list float)
  : list Z -> Z -> Z -> list float -> list float -> list float ->
    Z -> Z -> Z -> bool -> result (list float) :=
  fun _ _ _ _ _ _ _ _ _ _ => ret draws.

(** The table over the UMIs of length one in which only [C] was seen,
    4 times. *)
Definition table_C4 : OrderedDict.t Z :=
  [("A"%string, 0); ("C"%string, 4); ("G"%string, 0); ("T"%string, 0)].

(** [x == x]: the float is not a nan. *)
Definition not_nan (x : float) : Prop := PrimFloat.eqb x x = true.

(** [a <= b] on floats. *)
Definition float_le (a b : float) : Prop := PrimFloat.leb a b = true.

(** Every character of the string satisfies [P]. *)
Fixpoint string_forall (P : ascii -> Prop) (s : string) : Prop :=
  match s with
  | EmptyString => True
  | String a rest => P a /\ string_forall P rest
  end.

Definition in_alphabet (c : ascii) : Prop :=
  c = "A"%char \/ c = "C"%char \/ c = "G"%char \/ c = "T"%char.

Definition over_alphabet (s : string) : Prop := string_forall in_alphabet s.

(** A UMI as the data model has it: a string over the alphabet, or two
    such strings joined by one [+]. *)
Definition single_or_paired_umi (s : string) : Prop :=
  over_alphabet s
  \/ exists a b, s = (a ++ "+" ++ b)%string /\ over_alphabet a /\ over_alphabet b.

(** The character does not occur in the string. *)
Definition char_free (c : ascii) (s : string) : Prop := Str.contains s c = false.

(** The label has exactly 5 or exactly 7 colons. *)
Definition has_5_or_7_colons (label : string) : bool :=
  (Str.count ":" label =? 5) || (Str.count ":" label =? 7).

(** The string is empty or starts with [#] or [/]. *)
Definition empty_or_suffix_mark (s : string) : Prop :=
  s = EmptyString \/ exists c r, s = String c r /\ (c = "#"%char \/ c = "/"%char).

(** The string is empty or ends with a colon. *)
Definition empty_or_ends_with_colon (s : string) : Prop :=
  s = EmptyString \/ exists p, s = (p ++ ":")%string.

(** The first [truncate] characters, when [truncate] is given. *)
Definition shortened (truncate : option Z) (s : string) : string :=
  match truncate with
  | None => s
  | Some t => substring 0 (Z.to_nat t) s
  end.

(** The counts of a table are non-negative. *)
Definition nonneg_counts (umi_counts : OrderedDict.t Z) : Prop :=
  Forall (fun kv => 0 <= snd kv) umi_counts.

(** A fit that always raises, and one that always returns the same
    integer. *)
Definition failing_fit : list Z -> list Z -> Z -> result Z :=
  fun _ _ _ => raise ValueError.
Definition constant_fit (est : Z) : list Z -> list Z -> Z -> result Z :=
  fun _ _ _ => ret est.

(** A mapped, primary record that passed the checks and is not flagged. *)
Definition plain_read (name : string) (qualities : list Z) : parse_sam.read :=
  {| parse_sam.query_name := name;
     parse_sam.is_unmapped := false;
     parse_sam.is_secondary := false;
     parse_sam.is_supplementary := false;
     parse_sam.is_qcfail := false;
     parse_sam.query_qualities := qualities;
     parse_sam.is_duplicate := false |}.

(** The same record, marked as failing the quality checks. *)
Definition qcfail_read (name : string) (qualities : list Z) : parse_sam.read :=
  {| parse_sam.query_name := name;
     parse_sam.is_unmapped := false;
     parse_sam.is_secondary := false;
     parse_sam.is_supplementary := false;
     parse_sam.is_qcfail := true;
     parse_sam.query_qualities := qualities;
     parse_sam.is_duplicate := false |}.

(** Three records of aggregate quality 10, 30 and 20, at addresses 0, 1
    and 2. *)
Definition three_reads : parse_sam.heap :=
  [ plain_read "M01:7:FC1:1:1101:ACGT" [4; 6];
    plain_read "M01:7:FC1:1:1102:ACGT" [15; 15];
    plain_read "M01:7:FC1:1:1103:ACGT" [20] ].

(** [quality(a) <= quality(b)] for two records of a heap. *)
Definition quality_le (h : parse_sam.heap) (a b : parse_sam.address) : Prop :=
  parse_sam.quality_at h a <= parse_sam.quality_at h b.

(** The heap once the records at the given addresses are flagged, one
    after the other. *)
Definition flag_all (l : list parse_sam.address) (h : parse_sam.heap) : parse_sam.heap :=
  fold_left (fun h' a => update h' a (parse_sam.set_is_duplicate true)) l h.

(** The float is not a zero. *)
Definition SF_nonzero (f : spec_float) : Prop :=
  match f with S754_zero _ => False | _ => True end.

(** The float of an integer in [1, 2^53): positive, with a mantissa of
    53 bits and an exponent in [-52, 0]. *)
Definition small_int_float (f : spec_float) : Prop :=
  exists p e, f = S754_finite false p e /\ 2 ^ 52 <= Z.pos p < 2 ^ 53 /\ -52 <= e <= 0.

(** A positive normal float: a mantissa of 53 bits and an exponent in
    [-52, 971].  These are the floats of the integers from 1 up to the
    largest one that converts. *)
Definition normal_float (f : spec_float) : Prop :=
  exists p e, f = S754_finite false p e /\ 2 ^ 52 <= Z.pos p < 2 ^ 53 /\ -52 <= e <= 971.

(** The UMI of a record, as [get_umi] reads it from the name. *)
Definition umi_of (truncate : option Z) (r : parse_sam.read) : result string :=
  umi_data.get_umi (parse_sam.query_name r) truncate.

(** The record carries the UMI [u]. *)
Definition carries (truncate : option Z) (u : string) (r : parse_sam.read) : bool :=
  match umi_of truncate r with
  | inr u' => String.eqb u' u
  | inl _ => false
  end.

(** The name of the record parses to a UMI of [n] characters. *)
Definition parses_to_length (truncate : option Z) (n : nat) (r : parse_sam.read) : Prop :=
  exists u, umi_of truncate r = inr u /\ String.length u = n.

(** The string is over the alphabet, as a test. *)
Definition over_alphabetb (s : string) : bool :=
  match Str.search_not_in umi_data.alphabet s with
  | None => true
  | Some _ => false
  end.

(** The record is counted by the first pass: its name parses to a UMI over
    the alphabet. *)
Definition counted_by_first_pass (truncate : option Z) (r : parse_sam.read) : bool :=
  match umi_of truncate r with
  | inr u => over_alphabetb u
  | inl _ => false
  end.

(** The record is counted by the second pass: it is usable and its UMI
    passes [umi_is_good]. *)
Definition counted_by_second_pass (r : parse_sam.read) : bool :=
  parse_sam.read_is_good r
  && match umi_of None r with
     | inr u => umi_data.umi_is_good u
     | inl _ => false
     end.

(** The number of items of [xs] that satisfy [f]. *)
Definition count_if {A} (f : A -> bool) (xs : list A) : Z := len (filter f xs).

(** An entry of the result of the estimators against the entry of the
    table it was computed for: the same UMI, 0 for a count of 0 and a
    positive number otherwise. *)
Definition estimate_of (raw est : string * Z) : Prop :=
  fst est = fst raw /\ (snd raw = 0 -> snd est = 0) /\ (snd raw <> 0 -> 0 < snd est).

(** The UMI a line of a UMI table names: its first token, shortened; a
    blank line names none. *)
Definition table_line_umi (truncate : option Z) (line : string) : option string :=
  match Str.split_whitespace line with
  | [] => None
  | umi :: _ => Some (match truncate with
                      | None => umi
                      | Some t => Str.slice_to umi t
                      end)
  end.

(** The count a line of a UMI table gives: its second token read as an
    integer, 0 when there is none. *)
Definition table_line_count (line : string) : result Z :=
  match Str.split_whitespace line with
  | _ :: count :: _ => Str.py_int count
  | _ => ret 0
  end.

(** The line names the UMI [umi]. *)
Definition names_umi (truncate : option Z) (umi : string) (line : string) : bool :=
  match table_line_umi truncate line with
  | Some u => String.eqb u umi
  | None => false
  end.

(* ================================================================= *)
(** * Properties *)

(** ** Sums, updates, and the monad *)

Lemma py_sum_from (xs : list Z) (a : Z) : fold_left Z.add xs a = a + py_sum xs.
Proof.
  unfold py_sum. revert a.
  induction xs as [|x xs IH]; intros a; simpl; [lia|].
  rewrite (IH (a + x)), (IH x). lia.
Qed.

Lemma py_sum_nil : py_sum [] = 0.
Proof. reflexivity. Qed.

Lemma py_sum_cons (x : Z) (xs : list Z) : py_sum (x :: xs) = x + py_sum xs.
Proof. unfold py_sum at 1. simpl. apply py_sum_from. Qed.

Lemma py_sum_nonneg (xs : list Z) : Forall (fun x => 0 <= x) xs -> 0 <= py_sum xs.
Proof.
  induction 1 as [|x xs Hx _ IH]; [rewrite py_sum_nil; lia|].
  rewrite py_sum_cons. lia.
Qed.

Lemma py_sum_bounds_items (xs : list Z) :
  Forall (fun x => 0 <= x) xs -> Forall (fun x => 0 <= x <= py_sum xs) xs.
Proof.
  induction 1 as [|x xs Hx Hxs IH]; constructor.
  - rewrite py_sum_cons. pose proof (py_sum_nonneg Hxs). lia.
  - rewrite py_sum_cons. eapply Forall_impl; [|exact IH]. simpl. intros; lia.
Qed.

Lemma length_update {A} (xs : list A) (i : nat) (f : A -> A) :
  List.length (update xs i f) = List.length xs.
Proof.
  revert i. induction xs as [|x xs IH]; intros [|i]; simpl; auto.
Qed.

Lemma nth_error_update_same {A} (xs : list A) (i : nat) (f : A -> A) :
  nth_error (update xs i f) i = option_map f (nth_error xs i).
Proof.
  revert i. induction xs as [|x xs IH]; intros [|i]; simpl; auto.
Qed.

Lemma nth_error_update_other {A} (xs : list A) (i j : nat) (f : A -> A) :
  i <> j -> nth_error (update xs i f) j = nth_error xs j.
Proof.
  revert i j. induction xs as [|x xs IH]; intros [|i] [|j] Hij; simpl; auto.
  congruence.
Qed.

Lemma py_sum_update_succ (xs : list Z) (i : nat) :
  (i < List.length xs)%nat -> py_sum (update xs i (fun c => c + 1)) = py_sum xs + 1.
Proof.
  revert i. induction xs as [|x xs IH]; intros [|i] Hi; simpl in *; try lia.
  - rewrite !py_sum_cons. lia.
  - rewrite !py_sum_cons, IH by lia. lia.
Qed.

Lemma for_each_length {A B} (f : A -> result B) (xs : list A) (ys : list B) :
  for_each f xs = inr ys -> List.length ys = List.length xs.
Proof.
  revert ys. induction xs as [|x xs IH]; simpl; intros ys H.
  - inversion H. reflexivity.
  - destruct (f x) as [e|y]; simpl in H; [discriminate|].
    destruct (for_each f xs) as [e|ys']; simpl in H; [discriminate|].
    inversion H. simpl. f_equal. apply IH. reflexivity.
Qed.

Lemma for_each_total {A B} (f : A -> result B) (xs : list A) :
  Forall (fun x => exists y, f x = inr y) xs -> exists ys, for_each f xs = inr ys.
Proof.
  induction 1 as [|x xs [y Hy] _ [ys IH]]; simpl.
  - eexists. reflexivity.
  - rewrite Hy, IH. simpl. eexists. reflexivity.
Qed.

(** ** Floats: what the proofs need *)

Lemma float_int_limit_gt_1 : 1 < float_int_limit.
Proof. reflexivity. Qed.

Lemma float_of_int_defined (z : Z) :
  Z.abs z < float_int_limit -> exists f, float_of_int z = inr f.
Proof.
  intros H. unfold float_of_int.
  destruct (float_int_limit <=? Z.abs z) eqn:E.
  - apply Z.leb_le in E. lia.
  - eexists. reflexivity.
Qed.

Lemma float_of_int_in_range (z : Z) (f : float) :
  float_of_int z = inr f -> Z.abs z < float_int_limit.
Proof.
  unfold float_of_int.
  destruct (float_int_limit <=? Z.abs z) eqn:E; [discriminate|].
  intros _. apply Z.leb_gt in E. exact E.
Qed.

Lemma float_truediv_defined (x y : float) :
  PrimFloat.eqb y PrimFloat.zero = false -> float_truediv x y = inr (PrimFloat.div x y).
Proof. intros H. unfold float_truediv. rewrite H. reflexivity. Qed.

Lemma index_of_max_from_bound (xs : list float) (best : float) (besti i : nat) :
  (besti < i)%nat -> (index_of_max_from best besti i xs < i + List.length xs)%nat.
Proof.
  revert best besti i. induction xs as [|x xs IH]; intros best besti i H; simpl.
  - lia.
  - destruct (PrimFloat.ltb best x).
    + specialize (IH x i (S i)). lia.
    + specialize (IH best besti (S i)). lia.
Qed.

Lemma index_of_max_defined (xs : list float) :
  xs <> [] -> exists i, index_of_max xs = inr i /\ (i < List.length xs)%nat.
Proof.
  destruct xs as [|x xs]; [congruence|]. intros _.
  eexists. split; [reflexivity|].
  pose proof (@index_of_max_from_bound xs x 0%nat 1%nat). simpl. lia.
Qed.

Lemma index_of_max_bound (xs : list float) (i : nat) :
  index_of_max xs = inr i -> (i < List.length xs)%nat.
Proof.
  destruct xs as [|x xs]; [discriminate|].
  intros H. destruct (@index_of_max_defined (x :: xs)) as [j [Hj Hlt]]; [discriminate|].
  congruence.
Qed.

(** ** Floats: the integers below 2^53 and their quotients *)

Unset Implicit Arguments.

Lemma digits2_pos_size (p : positive) : digits2_pos p = Pos.size p.
Proof. induction p; simpl; congruence. Qed.

Lemma digits2_pos_log2 (p : positive) : Z.pos (digits2_pos p) = Z.log2 (Z.pos p) + 1.
Proof.
  rewrite digits2_pos_size. destruct p; simpl; try reflexivity;
    rewrite Pos2Z.inj_succ; lia.
Qed.

Lemma digits2_pos_bounds (p : positive) (k : Z) :
  2 ^ (k - 1) <= Z.pos p < 2 ^ k -> Z.pos (digits2_pos p) = k.
Proof.
  intros H. rewrite digits2_pos_log2.
  assert (Hk : 1 <= k).
  { destruct (Z_lt_le_dec k 1) as [Hlt|]; [|assumption].
    assert (2 ^ k <= 2 ^ 0) by (destruct (Z_lt_le_dec k 0);
      [rewrite Z.pow_neg_r by assumption; simpl; lia|apply Z.pow_le_mono_r; lia]).
    simpl in *. lia. }
  rewrite (Z.log2_unique (Z.pos p) (k - 1)); [lia|lia|].
  replace (Z.succ (k - 1)) with k by lia. exact H.
Qed.

Lemma digits2_pos_range (p : positive) :
  2 ^ (Z.pos (digits2_pos p) - 1) <= Z.pos p < 2 ^ Z.pos (digits2_pos p).
Proof.
  rewrite digits2_pos_log2.
  pose proof (Z.log2_spec (Z.pos p) (Pos2Z.is_pos p)) as H.
  replace (Z.log2 (Z.pos p) + 1 - 1) with (Z.log2 (Z.pos p)) by lia.
  replace (Z.log2 (Z.pos p) + 1) with (Z.succ (Z.log2 (Z.pos p))) by lia.
  exact H.
Qed.

Lemma iter_xO_value (p k : positive) : Z.pos (Pos.iter xO p k) = Z.pos p * 2 ^ Z.pos k.
Proof.
  induction k as [|k IH] using Pos.peano_ind.
  - simpl. lia.
  - rewrite Pos.iter_succ, Pos2Z.inj_xO, IH, Pos2Z.inj_succ, Z.pow_succ_r by lia. lia.
Qed.

Lemma shr_m_of_loc (m : Z) (l : location) : shr_m (shr_record_of_loc m l) = m.
Proof. destruct l as [|[]]; reflexivity. Qed.

Lemma round_nearest_even_range (m : Z) (l : location) :
  m <= round_nearest_even m l <= m + 1.
Proof. destruct l as [|[]]; simpl; try lia. destruct (Z.even m); lia. Qed.

Lemma shr_1_half (mrs : shr_record) :
  0 <= shr_m mrs -> 2 * shr_m (shr_1 mrs) <= shr_m mrs <= 2 * shr_m (shr_1 mrs) + 1.
Proof.
  destruct mrs as [m r s]. simpl. destruct m as [|[p|p|]|p]; simpl; lia.
Qed.

(** A mantissa of 53 or 54 bits at a moderate exponent is shifted by one
    place at most. *)
Lemma shr_fexp_53_54 (m e : Z) (l : location) :
  2 ^ 52 <= m < 2 ^ 54 -> -1000 <= e ->
  2 ^ 52 <= shr_m (fst (shr_fexp prec emax m e l)) < 2 ^ 53.
Proof.
  intros Hm He. unfold shr_fexp.
  destruct m as [|p|p]; try (simpl in Hm; lia).
  cbn [Zdigits2].
  destruct (Z_lt_le_dec (Z.pos p) (2 ^ 53)) as [Hlt|Hge].
  - rewrite (digits2_pos_bounds p 53) by (simpl; lia).
    replace (fexp prec emax (53 + e) - e) with 0
      by (unfold fexp, SpecFloat.emin, prec, emax; lia).
    simpl. rewrite shr_m_of_loc. lia.
  - rewrite (digits2_pos_bounds p 54) by (simpl; lia).
    replace (fexp prec emax (54 + e) - e) with 1
      by (unfold fexp, SpecFloat.emin, prec, emax; lia).
    cbn [shr iter_pos fst].
    pose proof (shr_1_half (shr_record_of_loc (Z.pos p) l)) as H.
    rewrite shr_m_of_loc in H. specialize (H ltac:(lia)).
    change (2 ^ 52) with 4503599627370496 in *.
    change (2 ^ 53) with 9007199254740992 in *.
    change (2 ^ 54) with 18014398509481984 in *. lia.
Qed.

Lemma shr_fexp_exponent (m e : Z) (l : location) :
  2 ^ 52 <= m < 2 ^ 54 -> -1000 <= e ->
  e <= snd (shr_fexp prec emax m e l).
Proof.
  intros Hm He. unfold shr_fexp.
  destruct m as [|p|p]; try (simpl in Hm; lia).
  cbn [Zdigits2].
  destruct (Z_lt_le_dec (Z.pos p) (2 ^ 53)) as [Hlt|Hge].
  - rewrite (digits2_pos_bounds p 53) by (simpl; lia).
    replace (fexp prec emax (53 + e) - e) with 0
      by (unfold fexp, SpecFloat.emin, prec, emax; lia).
    simpl. lia.
  - rewrite (digits2_pos_bounds p 54) by (simpl; lia).
    replace (fexp prec emax (54 + e) - e) with 1
      by (unfold fexp, SpecFloat.emin, prec, emax; lia).
    simpl. lia.
Qed.

Lemma binary_round_aux_nonzero (sx : bool) (m e : Z) (l : location) :
  2 ^ 52 <= m < 2 ^ 54 -> -1000 <= e ->
  SF_nonzero (binary_round_aux prec emax sx m e l).
Proof.
  intros Hm He. unfold binary_round_aux.
  pose proof (shr_fexp_53_54 m e l Hm He) as H1.
  pose proof (shr_fexp_exponent m e l Hm He) as H1e.
  destruct (shr_fexp prec emax m e l) as [mrs' e']. cbn [fst snd] in H1, H1e.
  pose proof (round_nearest_even_range (shr_m mrs') (loc_of_shr_record mrs')) as Hr.
  set (m2 := round_nearest_even (shr_m mrs') (loc_of_shr_record mrs')) in *.
  assert (Hm2 : 2 ^ 52 <= m2 < 2 ^ 54).
  { change (2 ^ 52) with 4503599627370496 in *.
    change (2 ^ 53) with 9007199254740992 in *.
    change (2 ^ 54) with 18014398509481984 in *. lia. }
  pose proof (shr_fexp_53_54 m2 e' loc_Exact Hm2 ltac:(lia)) as H2.
  destruct (shr_fexp prec emax m2 e' loc_Exact) as [mrs'' e'']. cbn [fst] in H2.
  destruct (shr_m mrs'') as [|q|q]; try (simpl in H2; lia).
  destruct (e'' <=? emax - prec); exact I.
Qed.

(** A 53-bit mantissa with nothing to round is kept as it is. *)
Lemma binary_round_aux_exact (sx : bool) (p : positive) (e : Z) :
  2 ^ 52 <= Z.pos p < 2 ^ 53 -> -1000 <= e <= 0 ->
  binary_round_aux prec emax sx (Z.pos p) e loc_Exact = S754_finite sx p e.
Proof.
  intros Hp He. unfold binary_round_aux.
  assert (Hs : shr_fexp prec emax (Z.pos p) e loc_Exact
               = (shr_record_of_loc (Z.pos p) loc_Exact, e)).
  { unfold shr_fexp. cbn [Zdigits2].
    rewrite (digits2_pos_bounds p 53) by (simpl; lia).
    replace (fexp prec emax (53 + e) - e) with 0
      by (unfold fexp, SpecFloat.emin, prec, emax; lia).
    reflexivity. }
  rewrite Hs. cbn [shr_m shr_record_of_loc loc_of_shr_record round_nearest_even].
  rewrite Hs. cbn [shr_m shr_record_of_loc].
  replace (e <=? emax - prec) with true
    by (symmetry; apply Z.leb_le; unfold emax, prec; lia).
  reflexivity.
Qed.

Lemma binary_normalize_small (t : Z) :
  1 <= t < 2 ^ 53 -> small_int_float (binary_normalize prec emax t 0 false).
Proof.
  intros Ht. destruct t as [|p|p]; try lia.
  unfold binary_normalize, binary_round.
  pose proof (digits2_pos_range p) as Hd.
  set (d := Z.pos (digits2_pos p)) in *.
  assert (Hd53 : 1 <= d <= 53).
  { split; [unfold d; lia|].
    destruct (Z_lt_le_dec 53 d) as [Hlt|]; [|assumption].
    assert (2 ^ 53 <= 2 ^ (d - 1)) by (apply Z.pow_le_mono_r; lia). lia. }
  replace (fexp prec emax (d + 0)) with (d - 53)
    by (unfold fexp, SpecFloat.emin, prec, emax; lia).
  unfold shl_align.
  destruct (Z.eq_dec d 53) as [E|E].
  - rewrite E. change (53 - 53 - 0) with 0. cbv iota beta.
    rewrite binary_round_aux_exact by (rewrite E in Hd; simpl in Hd |- *; lia).
    exists p, 0. rewrite E in Hd. simpl in Hd. repeat split; simpl; lia.
  - destruct (d - 53 - 0) as [|k|k] eqn:Ek; try lia.
    assert (Hk : Z.pos k = 53 - d) by lia.
    assert (Hv : 2 ^ 52 <= Z.pos (Pos.iter xO p k) < 2 ^ 53).
    { rewrite iter_xO_value, Hk.
      replace (2 ^ 52) with (2 ^ (d - 1) * 2 ^ (53 - d))
        by (rewrite <- Z.pow_add_r by lia; f_equal; lia).
      replace (2 ^ 53) with (2 ^ d * 2 ^ (53 - d))
        by (rewrite <- Z.pow_add_r by lia; f_equal; lia).
      assert (0 < 2 ^ (53 - d)) by (apply Z.pow_pos_nonneg; lia).
      nia. }
    cbv iota beta.
    rewrite binary_round_aux_exact by (try exact Hv; lia).
    exists (Pos.iter xO p k), (d - 53). repeat split; try lia; apply Hv.
Qed.

Lemma of_uint63_small (t : Z) :
  1 <= t < 2 ^ 53 -> small_int_float (Prim2SF (PrimFloat.of_uint63 (Uint63.of_Z t))).
Proof.
  intros Ht. rewrite FloatAxioms.of_uint63_spec, Uint63.of_Z_spec.
  rewrite Z.mod_small.
  - apply binary_normalize_small. exact Ht.
  - split; [lia|]. apply Z.lt_trans with (2 ^ 53); [lia|reflexivity].
Qed.

Lemma SFdiv_small_nonzero (x y : spec_float) :
  small_int_float x -> small_int_float y -> SF_nonzero (SFdiv prec emax x y).
Proof.
  intros [p1 [e1 [-> [Hp1 He1]]]] [p2 [e2 [-> [Hp2 He2]]]].
  unfold SFdiv, SFdiv_core_binary. cbn [Zdigits2].
  rewrite (digits2_pos_bounds p1 53), (digits2_pos_bounds p2 53) by (simpl; lia).
  replace (Z.min (fexp prec emax (53 + e1 - (53 + e2))) (e1 - e2)) with (e1 - e2 - 53)
    by (unfold fexp, SpecFloat.emin, prec, emax; lia).
  replace (e1 - e2 - (e1 - e2 - 53)) with 53 by lia.
  cbv iota. rewrite Z.shiftl_mul_pow2 by lia.
  pose proof (Z.div_le_lower_bound (Z.pos p1 * 2 ^ 53) (Z.pos p2) (2 ^ 52)) as Hlo.
  pose proof (Z.div_lt_upper_bound (Z.pos p1 * 2 ^ 53) (Z.pos p2) (2 ^ 54)) as Hhi.
  unfold Z.div in Hlo, Hhi.
  destruct (Z.div_eucl (Z.pos p1 * 2 ^ 53) (Z.pos p2)) as [q r].
  apply binary_round_aux_nonzero; [|lia].
  change (2 ^ 52) with 4503599627370496 in *.
  change (2 ^ 53) with 9007199254740992 in *.
  change (2 ^ 54) with 18014398509481984 in *.
  split; [apply Hlo; lia|apply Hhi; lia].
Qed.

Lemma SF_nonzero_eqb (f : spec_float) :
  SF_nonzero f -> SFeqb f (S754_zero false) = false.
Proof.
  destruct f as [s|s| |s m e]; simpl; try contradiction; intros _;
    unfold SFeqb; simpl; try reflexivity; destruct s; reflexivity.
Qed.

Lemma small_nonzero (f : spec_float) : small_int_float f -> SF_nonzero f.
Proof. intros [p [e [-> _]]]. exact I. Qed.

Lemma float_eqb_zero (f : float) :
  SF_nonzero (Prim2SF f) -> PrimFloat.eqb f PrimFloat.zero = false.
Proof.
  intros H. rewrite FloatAxioms.eqb_spec.
  change (Prim2SF PrimFloat.zero) with (S754_zero false).
  apply SF_nonzero_eqb. exact H.
Qed.

Lemma float_div_small_nonzero (t s : Z) :
  1 <= t < 2 ^ 53 -> 1 <= s < 2 ^ 53 ->
  PrimFloat.eqb (PrimFloat.of_uint63 (Uint63.of_Z s)) PrimFloat.zero = false
  /\ PrimFloat.eqb (PrimFloat.div (PrimFloat.of_uint63 (Uint63.of_Z t))
                                  (PrimFloat.of_uint63 (Uint63.of_Z s)))
                   PrimFloat.zero = false.
Proof.
  intros Ht Hs. split; apply float_eqb_zero.
  - apply small_nonzero, of_uint63_small. exact Hs.
  - rewrite FloatAxioms.div_spec. apply SFdiv_small_nonzero; apply of_uint63_small; assumption.
Qed.

(** ** Floats: every integer that converts *)

Lemma digits2_pos_le_53 (p : positive) :
  Z.pos p < 2 ^ 53 -> 1 <= Z.pos (digits2_pos p) <= 53.
Proof.
  intros Hp. pose proof (digits2_pos_range p) as Hd.
  set (d := Z.pos (digits2_pos p)) in *.
  split; [unfold d; lia|].
  destruct (Z_lt_le_dec 53 d) as [Hlt|]; [|assumption].
  assert (2 ^ 53 <= 2 ^ (d - 1)) by (apply Z.pow_le_mono_r; lia). lia.
Qed.

Lemma shr_fexp_wide (m e : Z) (l : location) :
  1 <= m < 2 ^ 54 -> -1074 <= e ->
  1 <= shr_m (fst (shr_fexp prec emax m e l)) < 2 ^ 53
  /\ e <= snd (shr_fexp prec emax m e l).
Proof.
  intros Hm He. unfold shr_fexp.
  destruct m as [|p|p]; try lia.
  cbn [Zdigits2].
  destruct (Z_lt_le_dec (Z.pos p) (2 ^ 53)) as [Hlt|Hge].
  - pose proof (digits2_pos_le_53 p Hlt) as Hd.
    set (d := Z.pos (digits2_pos p)) in *.
    assert (Hn : fexp prec emax (d + e) - e <= 0)
      by (unfold fexp, SpecFloat.emin, prec, emax; lia).
    destruct (fexp prec emax (d + e) - e) as [|n|n]; try lia;
      cbn [shr fst snd]; rewrite shr_m_of_loc; lia.
  - rewrite (digits2_pos_bounds p 54) by (simpl; lia).
    replace (fexp prec emax (54 + e) - e) with 1
      by (unfold fexp, SpecFloat.emin, prec, emax; lia).
    cbn [shr iter_pos fst snd].
    pose proof (shr_1_half (shr_record_of_loc (Z.pos p) l)) as H.
    rewrite shr_m_of_loc in H. specialize (H ltac:(lia)).
    change (2 ^ 53) with 9007199254740992 in *.
    change (2 ^ 54) with 18014398509481984 in *. lia.
Qed.

Lemma binary_round_aux_nonzero_wide (sx : bool) (m e : Z) (l : location) :
  1 <= m < 2 ^ 54 -> -1074 <= e ->
  SF_nonzero (binary_round_aux prec emax sx m e l).
Proof.
  intros Hm He. unfold binary_round_aux.
  pose proof (shr_fexp_wide m e l Hm He) as [H1 H1e].
  destruct (shr_fexp prec emax m e l) as [mrs' e']. cbn [fst snd] in H1, H1e.
  pose proof (round_nearest_even_range (shr_m mrs') (loc_of_shr_record mrs')) as Hr.
  set (m2 := round_nearest_even (shr_m mrs') (loc_of_shr_record mrs')) in *.
  assert (Hm2 : 1 <= m2 < 2 ^ 54).
  { change (2 ^ 53) with 9007199254740992 in *.
    change (2 ^ 54) with 18014398509481984 in *. lia. }
  pose proof (shr_fexp_wide m2 e' loc_Exact Hm2 ltac:(lia)) as [H2 _].
  destruct (shr_fexp prec emax m2 e' loc_Exact) as [mrs'' e'']. cbn [fst] in H2.
  destruct (shr_m mrs'') as [|q|q]; try lia.
  destruct (e'' <=? emax - prec); exact I.
Qed.

Lemma SFdiv_normal_nonzero (x y : spec_float) :
  normal_float x -> normal_float y -> SF_nonzero (SFdiv prec emax x y).
Proof.
  intros [p1 [e1 [-> [Hp1 He1]]]] [p2 [e2 [-> [Hp2 He2]]]].
  unfold SFdiv, SFdiv_core_binary. cbn [Zdigits2].
  rewrite (digits2_pos_bounds p1 53), (digits2_pos_bounds p2 53) by (simpl; lia).
  set (e' := Z.min (fexp prec emax (53 + e1 - (53 + e2))) (e1 - e2)).
  assert (He' : -1074 <= e' /\ 51 <= e1 - e2 - e' <= 53)
    by (unfold e', fexp, SpecFloat.emin, prec, emax; lia).
  destruct (e1 - e2 - e') as [|s|s] eqn:Es; try lia.
  cbv iota. rewrite Z.shiftl_mul_pow2 by lia.
  assert (Hpow : 2 ^ 51 <= 2 ^ Z.pos s <= 2 ^ 53)
    by (split; apply Z.pow_le_mono_r; lia).
  set (X := 2 ^ Z.pos s) in *.
  change (2 ^ 51) with 2251799813685248 in *.
  change (2 ^ 52) with 4503599627370496 in *.
  change (2 ^ 53) with 9007199254740992 in *.
  pose proof (Z.div_le_lower_bound (Z.pos p1 * X) (Z.pos p2) 1) as Hlo.
  pose proof (Z.div_lt_upper_bound (Z.pos p1 * X) (Z.pos p2) (2 ^ 54)) as Hhi.
  change (2 ^ 54) with 18014398509481984 in *.
  unfold Z.div in Hlo, Hhi.
  destruct (Z.div_eucl (Z.pos p1 * X) (Z.pos p2)) as [q r].
  apply binary_round_aux_nonzero_wide; [|lia].
  change (2 ^ 54) with 18014398509481984.
  split; [apply Hlo; nia|apply Hhi; nia].
Qed.

Lemma binary_round_aux_exact_wide (sx : bool) (p : positive) (e : Z) :
  2 ^ 52 <= Z.pos p < 2 ^ 53 -> -1074 <= e <= 971 ->
  binary_round_aux prec emax sx (Z.pos p) e loc_Exact = S754_finite sx p e.
Proof.
  intros Hp He. unfold binary_round_aux.
  assert (Hs : shr_fexp prec emax (Z.pos p) e loc_Exact
               = (shr_record_of_loc (Z.pos p) loc_Exact, e)).
  { unfold shr_fexp. cbn [Zdigits2].
    rewrite (digits2_pos_bounds p 53) by (simpl; lia).
    replace (fexp prec emax (53 + e) - e) with 0
      by (unfold fexp, SpecFloat.emin, prec, emax; lia).
    reflexivity. }
  rewrite Hs. cbn [shr_m shr_record_of_loc loc_of_shr_record round_nearest_even].
  rewrite Hs. cbn [shr_m shr_record_of_loc].
  replace (e <=? emax - prec) with true
    by (symmetry; apply Z.leb_le; unfold emax, prec; lia).
  reflexivity.
Qed.

Lemma binary_round_53 (sx : bool) (p : positive) (e : Z) :
  2 ^ 52 <= Z.pos p < 2 ^ 53 -> -1074 <= e <= 971 ->
  binary_round prec emax sx p e = S754_finite sx p e.
Proof.
  intros Hp He. unfold binary_round.
  rewrite (digits2_pos_bounds p 53) by (simpl; lia).
  replace (fexp prec emax (53 + e)) with e
    by (unfold fexp, SpecFloat.emin, prec, emax; lia).
  unfold shl_align. rewrite Z.sub_diag.
  apply binary_round_aux_exact_wide; assumption.
Qed.

Lemma small_is_normal (f : spec_float) : small_int_float f -> normal_float f.
Proof.
  intros [p [e [-> [Hp He]]]]. exists p, e. repeat split; lia.
Qed.

Lemma of_uint63_53 (p : positive) :
  2 ^ 52 <= Z.pos p < 2 ^ 53 ->
  Prim2SF (PrimFloat.of_uint63 (Uint63.of_Z (Z.pos p))) = S754_finite false p 0.
Proof.
  intros Hp. rewrite FloatAxioms.of_uint63_spec, Uint63.of_Z_spec.
  rewrite Z.mod_small.
  - unfold binary_normalize. apply binary_round_53; [exact Hp|lia].
  - split; [lia|]. apply Z.lt_trans with (2 ^ 53); [lia|reflexivity].
Qed.

(** The rounded significand of an integer of more than 53 bits. *)
Lemma round_to_53_range (a : Z) :
  2 ^ 53 <= a < float_int_limit ->
  let (m, e) := round_to_53 a in
  1 <= e /\ ((2 ^ 52 <= m < 2 ^ 53 /\ e <= 971) \/ (m = 2 ^ 53 /\ e <= 970)).
Proof.
  intros [Hlo Hhi]. unfold round_to_53.
  assert (Hpos : 0 < a) by (apply Z.lt_le_trans with (2 ^ 53); [reflexivity|exact Hlo]).
  pose proof (Z.log2_spec a Hpos) as [HL1 HL2].
  assert (HL : 53 <= Z.log2 a) by (apply Z.log2_le_pow2; [exact Hpos|exact Hlo]).
  assert (HU : Z.log2 a <= 1023).
  { assert (Z.log2 a < 1024); [|lia]. apply Z.log2_lt_pow2; [exact Hpos|].
    apply Z.lt_trans with float_int_limit; [exact Hhi|reflexivity]. }
  set (L := Z.log2 a) in *.
  set (sh := L + 1 - 53).
  assert (Hsh : 1 <= sh <= 971) by (unfold sh; lia).
  rewrite Z.shiftr_div_pow2 by lia.
  rewrite Z.land_ones by lia.
  assert (HP : 0 < 2 ^ sh) by (apply Z.pow_pos_nonneg; lia).
  assert (E1 : 2 ^ L = 2 ^ 52 * 2 ^ sh)
    by (rewrite <- Z.pow_add_r by lia; f_equal; unfold sh; lia).
  assert (E2 : 2 ^ Z.succ L = 2 ^ 53 * 2 ^ sh)
    by (rewrite <- Z.pow_add_r by lia; f_equal; unfold sh; lia).
  assert (Hq : 2 ^ 52 <= a / 2 ^ sh < 2 ^ 53).
  { split.
    - apply Z.div_le_lower_bound; [exact HP|]. rewrite Z.mul_comm, <- E1. exact HL1.
    - apply Z.div_lt_upper_bound; [exact HP|]. rewrite Z.mul_comm, <- E2. exact HL2. }
  pose proof (Z.div_mod a (2 ^ sh) ltac:(lia)) as Hdm.
  pose proof (Z.mod_pos_bound a (2 ^ sh) HP) as Hr.
  set (q := a / 2 ^ sh) in *. set (r := a mod 2 ^ sh) in *.
  split; [exact (proj1 Hsh)|].
  destruct ((2 ^ (sh - 1) <? r) || ((r =? 2 ^ (sh - 1)) && Z.odd q)) eqn:Eup.
  - assert (Hhalf : 2 ^ (sh - 1) <= r).
    { apply orb_true_iff in Eup. destruct Eup as [E|E].
      - apply Z.ltb_lt in E. lia.
      - apply andb_true_iff in E. destruct E as [E _]. apply Z.eqb_eq in E. lia. }
    destruct (Z_lt_le_dec (q + 1) (2 ^ 53)) as [Hlt|Hge].
    + left. change (2 ^ 52) with 4503599627370496 in *. lia.
    + right. split; [change (2 ^ 53) with 9007199254740992 in *; lia|].
      destruct (Z_le_gt_dec sh 970) as [Hok|Hbad]; [exact Hok|exfalso].
      assert (Esh : sh = 971) by lia.
      rewrite Esh in *. change (971 - 1) with 970 in Hhalf.
      unfold float_int_limit in Hhi.
      replace (2 ^ 1024) with (2 ^ 54 * 2 ^ 970) in Hhi by reflexivity.
      replace (2 ^ 971) with (2 * 2 ^ 970) in * by reflexivity.
      set (P := 2 ^ 970) in *.
      change (2 ^ 53) with 9007199254740992 in *.
      change (2 ^ 54) with 18014398509481984 in *.
      assert (q = 9007199254740991) by lia. subst q. nia.
  - left. split; [exact Hq|lia].
Qed.

Lemma float_of_nonneg_normal (a : Z) :
  1 <= a < float_int_limit -> normal_float (Prim2SF (float_of_nonneg a)).
Proof.
  intros [Hlo Hhi]. unfold float_of_nonneg.
  destruct (Z.log2 a + 1 <=? 53) eqn:E.
  - apply Z.leb_le in E. apply small_is_normal, of_uint63_small.
    split; [exact Hlo|]. apply Z.log2_lt_pow2; lia.
  - apply Z.leb_gt in E.
    assert (Hbig : 2 ^ 53 <= a).
    { destruct (Z_lt_le_dec a (2 ^ 53)) as [Hlt|]; [|assumption].
      apply Z.log2_lt_pow2 in Hlt; lia. }
    pose proof (round_to_53_range a (conj Hbig Hhi)) as Hr.
    destruct (round_to_53 a) as [m e].
    destruct Hr as [He [[Hm He']|[-> He']]]; rewrite Z_ldexp_spec.
    + destruct m as [|p|p]; try lia.
      rewrite (of_uint63_53 p Hm). cbn [SFldexp].
      change (IntDef.Z.add 0 e) with e.
      rewrite binary_round_53 by (try exact Hm; lia).
      exists p, e. repeat split; lia.
    + replace (Prim2SF (PrimFloat.of_uint63 (Uint63.of_Z (2 ^ 53))))
        with (S754_finite false 4503599627370496 1) by (vm_compute; reflexivity).
      cbn [SFldexp].
      rewrite binary_round_53;
        [|vm_compute; split; [discriminate|reflexivity]|idtac]. 2:{ change (IntDef.Z.add 1 e) with (1 + e). lia. }
      exists 4503599627370496%positive, (1 + e).
      split; [reflexivity|]. split; [vm_compute; split; [discriminate|reflexivity]|lia].
Qed.

Lemma float_of_int_nonneg (z : Z) :
  0 <= z < float_int_limit -> float_of_int z = inr (float_of_nonneg z).
Proof.
  intros Hz. unfold float_of_int.
  replace (float_int_limit <=? Z.abs z) with false
    by (symmetry; apply Z.leb_gt; rewrite Z.abs_eq by lia; lia).
  replace (z <? 0) with false by (symmetry; apply Z.ltb_ge; lia).
  reflexivity.
Qed.

Lemma float_quotient_defined_wide (t s : Z) :
  1 <= t < float_int_limit -> 1 <= s < float_int_limit ->
  exists d,
    (tf <- float_of_int t ;; sf <- float_of_int s ;; float_truediv tf sf) = inr d
    /\ PrimFloat.eqb d PrimFloat.zero = false.
Proof.
  intros Ht Hs.
  pose proof (float_of_nonneg_normal t Ht) as Hnt.
  pose proof (float_of_nonneg_normal s Hs) as Hns.
  rewrite !float_of_int_nonneg by lia. cbn [bind].
  assert (Hs0 : PrimFloat.eqb (float_of_nonneg s) PrimFloat.zero = false).
  { apply float_eqb_zero. destruct Hns as [p [e [-> _]]]. exact I. }
  unfold float_truediv. rewrite Hs0.
  eexists. split; [reflexivity|].
  apply float_eqb_zero. rewrite FloatAxioms.div_spec.
  apply SFdiv_normal_nonzero; assumption.
Qed.

Set Implicit Arguments.

Lemma float_of_int_small (z : Z) :
  0 <= z < 2 ^ 53 -> float_of_int z = inr (PrimFloat.of_uint63 (Uint63.of_Z z)).
Proof.
  intros Hz. unfold float_of_int, float_of_nonneg.
  replace (float_int_limit <=? Z.abs z) with false.
  2:{ symmetry. apply Z.leb_gt. rewrite Z.abs_eq by lia.
      apply Z.lt_trans with (2 ^ 53); [lia|reflexivity]. }
  replace (z <? 0) with false by (symmetry; apply Z.ltb_ge; lia).
  replace (Z.log2 z + 1 <=? 53) with true; [reflexivity|].
  symmetry. apply Z.leb_le.
  destruct (Z.eq_dec z 0) as [->|Hnz]; [simpl; lia|].
  assert (Z.log2 z < 53) by (apply Z.log2_lt_pow2; lia). lia.
Qed.

(** Between two integers of [1, 2^53) the divisor is computed and is
    not zero. *)
Lemma float_quotient_defined (t s : Z) :
  1 <= t < 2 ^ 53 -> 1 <= s < 2 ^ 53 ->
  exists d,
    (tf <- float_of_int t ;; sf <- float_of_int s ;; float_truediv tf sf) = inr d
    /\ PrimFloat.eqb d PrimFloat.zero = false.
Proof.
  intros Ht Hs.
  destruct (float_div_small_nonzero t s Ht Hs) as [Hs0 Hd0].
  rewrite !float_of_int_small by lia. cbn [bind].
  rewrite (float_truediv_defined _ Hs0).
  eexists. split; [reflexivity|exact Hd0].
Qed.

(** ** apportion_counts *)

Lemma increment_loop_length (turns : nat) (r : list Z) (res : list float) (r' : list Z) :
  bayes_estimate.increment_loop turns r res = inr r' -> List.length r' = List.length r.
Proof.
  revert r res. induction turns as [|k IH]; simpl; intros r res H.
  - inversion H. reflexivity.
  - destruct (index_of_max res) as [e|i]; simpl in H; [discriminate|].
    apply IH in H. rewrite H. apply length_update.
Qed.

Lemma apportion_counts_length (counts : list Z) (target_sum : Z) (r : list Z) :
  bayes_estimate.apportion_counts counts target_sum = inr r ->
  List.length r = List.length counts.
Proof.
  unfold bayes_estimate.apportion_counts. intros H.
  destruct (bayes_estimate.divisor_of counts target_sum) as [e|d]; simpl in H; [discriminate|].
  match type of H with context [for_each ?f ?l] => destruct (for_each f l) as [e|res] end;
    simpl in H; [discriminate|].
  apply increment_loop_length in H. rewrite H. apply length_map.
Qed.

(** The loop gives out exactly [turns] units and takes none back. *)
Lemma increment_loop_spec (turns : nat) :
  forall (r : list Z) (res : list float),
    List.length res = List.length r ->
    (turns <> O -> r <> []) ->
    exists r',
      bayes_estimate.increment_loop turns r res = inr r'
      /\ List.length r' = List.length r
      /\ py_sum r' = py_sum r + Z.of_nat turns
      /\ (forall j x, nth_error r j = Some x ->
                      exists x', nth_error r' j = Some x' /\ x <= x').
Proof.
  induction turns as [|k IH]; intros r res Hlen Hne.
  - exists r. simpl. repeat split; try lia.
    intros j x Hj. exists x. split; [exact Hj|lia].
  - assert (Hres : res <> []).
    { intros ->. destruct r; [apply Hne; [discriminate|reflexivity]|discriminate]. }
    destruct (index_of_max_defined Hres) as [i [Hi Hlt]].
    simpl. rewrite Hi. simpl.
    destruct (IH (update r i (fun c => c + 1))
                 (update res i (fun x => PrimFloat.sub x 1%float))) as [r' [Hr' [Hl [Hs Hge]]]].
    + rewrite !length_update. exact Hlen.
    + intros _ Hnil. apply (f_equal (@List.length Z)) in Hnil.
      rewrite length_update in Hnil. simpl in Hnil. lia.
    + exists r'. split; [exact Hr'|]. split; [rewrite Hl; apply length_update|].
      split; [rewrite Hs, py_sum_update_succ by lia; lia|].
      intros j x Hj.
      destruct (Nat.eq_dec i j) as [->|Hij].
      * destruct (Hge j (x + 1)) as [x' [Hx' Hle]].
        { rewrite nth_error_update_same, Hj. reflexivity. }
        exists x'. split; [exact Hx'|lia].
      * apply Hge. rewrite nth_error_update_other by exact Hij. exact Hj.
Qed.

Lemma py_sum_seed (counts : list Z) :
  py_sum (map (fun count => if 0 <? count then 1 else 0) counts) = n_positive counts.
Proof.
  unfold n_positive, len.
  induction counts as [|c counts IH]; [reflexivity|].
  simpl. rewrite py_sum_cons, IH.
  destruct (0 <? c); simpl List.length; lia.
Qed.

Lemma residuals_defined (d : float) (limit_sum : Z) (counts : list Z) :
  PrimFloat.eqb d PrimFloat.zero = false ->
  limit_sum < float_int_limit ->
  Forall (fun c => 0 <= c <= limit_sum) counts ->
  exists res,
    for_each (fun cn : Z * Z =>
                c <- float_of_int (fst cn) ;;
                quotient <- float_truediv c d ;;
                n <- float_of_int (snd cn) ;;
                ret (PrimFloat.sub quotient n))
             (combine counts (map (fun count => if 0 <? count then 1 else 0) counts))
    = inr res.
Proof.
  intros Hd Hlim Hall. apply for_each_total.
  induction Hall as [|c counts Hc _ IH]; simpl; constructor; [|exact IH].
  simpl.
  destruct (@float_of_int_defined c) as [fc Hfc]; [lia|].
  rewrite Hfc. simpl. rewrite (float_truediv_defined _ Hd). simpl.
  pose proof float_int_limit_gt_1.
  destruct (@float_of_int_defined (if 0 <? c then 1 else 0)) as [fn Hfn];
    [destruct (0 <? c); lia|].
  rewrite Hfn. simpl. eexists. reflexivity.
Qed.

(** Whenever the divisor is computed and is not zero, the result has the
    length of [counts], keeps a positive entry wherever the count is
    positive, and sums to the target. *)
Lemma apportion_counts_when_divisor_nonzero (counts : list Z) (target_sum : Z) (divisor : float) :
  Forall (fun c => 0 <= c) counts ->
  Exists (fun c => 0 < c) counts ->
  n_positive counts <= target_sum <= py_sum counts ->
  bayes_estimate.divisor_of counts target_sum = inr divisor ->
  PrimFloat.eqb divisor PrimFloat.zero = false ->
  exists r,
    bayes_estimate.apportion_counts counts target_sum = inr r
    /\ List.length r = List.length counts
    /\ (forall i c x, nth_error counts i = Some c -> nth_error r i = Some x ->
                      0 <= x /\ (x = 0 -> c = 0))
    /\ py_sum r = target_sum.
Proof.
  intros Hnonneg Hpos [Hlo Hhi] Hdiv Hnz.
  assert (Hsum : py_sum counts < float_int_limit).
  { unfold bayes_estimate.divisor_of in Hdiv.
    destruct (float_of_int target_sum) as [e|t]; simpl in Hdiv; [discriminate|].
    destruct (float_of_int (py_sum counts)) as [e|s] eqn:Es; simpl in Hdiv; [discriminate|].
    apply float_of_int_in_range in Es. lia. }
  destruct (residuals_defined Hnz Hsum (py_sum_bounds_items Hnonneg)) as [res Hres].
  unfold bayes_estimate.apportion_counts. rewrite Hdiv. simpl. rewrite Hres. simpl.
  set (seed := map (fun count => if 0 <? count then 1 else 0) counts).
  destruct (@increment_loop_spec (Z.to_nat (target_sum - py_sum seed)) seed res)
    as [r [Hr [Hlen [Hs Hge]]]].
  - apply for_each_length in Hres. rewrite Hres, length_combine.
    unfold seed. rewrite length_map. apply Nat.min_id.
  - intros _ Hnil. unfold seed in Hnil. apply map_eq_nil in Hnil. subst counts.
    inversion Hpos.
  - exists r. split; [exact Hr|]. split; [rewrite Hlen; apply length_map|].
    split.
    + intros i c x Hc Hx.
      destruct (Hge i (if 0 <? c then 1 else 0)) as [x' [Hx' Hle]].
      { unfold seed. apply map_nth_error with (f := fun count => if 0 <? count then 1 else 0).
        exact Hc. }
      assert (x' = x) by congruence. subst x'.
      assert (0 <= c).
      { rewrite Forall_forall in Hnonneg. apply Hnonneg. eapply nth_error_In. exact Hc. }
      destruct (0 <? c) eqn:E.
      * lia.
      * apply Z.ltb_ge in E. lia.
    + rewrite Hs. unfold seed. rewrite py_sum_seed. lia.
Qed.

Lemma n_positive_ge_1 (counts : list Z) :
  Exists (fun c => 0 < c) counts -> 1 <= n_positive counts.
Proof.
  unfold n_positive, len.
  induction 1 as [c rest Hc|c rest _ IH]; simpl.
  - replace (0 <? c) with true by (symmetry; apply Z.ltb_lt; exact Hc).
    simpl List.length. lia.
  - destruct (0 <? c); simpl List.length; lia.
Qed.

(** C1 (as amended): for non-negative counts with a positive entry and a
    sum that converts to a float (below 2^1024 - 2^970), and a target
    between the number of positive entries and the sum of the counts,
    [apportion_counts] returns a list of the same length and order as
    [counts], with every entry non-negative, an entry being 0 only where
    the count is 0, and summing exactly to [target_sum]. *)
Theorem apportion_counts_exact (counts : list Z) (target_sum : Z) :
  Forall (fun c => 0 <= c) counts ->
  Exists (fun c => 0 < c) counts ->
  py_sum counts < float_int_limit ->
  n_positive counts <= target_sum <= py_sum counts ->
  exists r,
    bayes_estimate.apportion_counts counts target_sum = inr r
    /\ List.length r = List.length counts
    /\ (forall i c x, nth_error counts i = Some c -> nth_error r i = Some x ->
                      0 <= x /\ (x = 0 -> c = 0))
    /\ py_sum r = target_sum.
Proof.
  intros Hnonneg Hpos Hsmall Hrange.
  pose proof (n_positive_ge_1 Hpos) as Hn.
  destruct (float_quotient_defined_wide target_sum (py_sum counts)) as [d [Hd Hnz]];
    [lia|lia|].
  apply (@apportion_counts_when_divisor_nonzero counts target_sum d); assumption.
Qed.

Lemma apportion_counts_exact_witness :
  exists r,
    bayes_estimate.apportion_counts [10; 0; 1; 1] 6 = inr r
    /\ List.length r = 4%nat
    /\ (forall i c x, nth_error [10; 0; 1; 1] i = Some c -> nth_error r i = Some x ->
                      0 <= x /\ (x = 0 -> c = 0))
    /\ py_sum r = 6.
Proof.
  apply (@apportion_counts_exact [10; 0; 1; 1] 6).
  - repeat constructor; lia.
  - apply Exists_cons_hd. lia.
  - reflexivity.
  - vm_compute. split; discriminate.
Defined.

(** C1 (as stated) fails below the number of positive entries: with
    counts [3, 3] and target 1, inside [0, sum(counts)], the result is
    [1, 1], which sums to 2.  It also fails when the sum of the counts
    has no float: with the single count 2^1024 and target 1 the
    conversion for [float(target_sum) / sum(counts)] raises
    [OverflowError]. *)
Lemma apportion_counts_undershoot :
  Forall (fun c => 0 <= c) [3; 3]
  /\ Exists (fun c => 0 < c) [3; 3]
  /\ 0 <= 1 <= py_sum [3; 3]
  /\ bayes_estimate.apportion_counts [3; 3] 1 = inr [1; 1]
  /\ py_sum [1; 1] <> 1
  /\ Forall (fun c => 0 <= c) [2 ^ 1024]
  /\ Exists (fun c => 0 < c) [2 ^ 1024]
  /\ n_positive [2 ^ 1024] <= 1 <= py_sum [2 ^ 1024]
  /\ bayes_estimate.apportion_counts [2 ^ 1024] 1 = inl OverflowError.
Proof.
  split; [repeat constructor; lia|].
  split; [apply Exists_cons_hd; lia|].
  split; [vm_compute; split; discriminate|].
  split; [vm_compute; reflexivity|].
  split; [vm_compute; discriminate|].
  split; [repeat constructor; vm_compute; discriminate|].
  split; [apply Exists_cons_hd; reflexivity|].
  split; [vm_compute; split; discriminate|].
  vm_compute. reflexivity.
Qed.

(** A target of 0 makes the divisor zero, and the first quotient raises. *)
Example apportion_counts_target_zero :
  bayes_estimate.apportion_counts [3; 3] 0 = inl ZeroDivisionError.
Proof. vm_compute. reflexivity. Qed.

(** The example of the specification. *)
Example apportion_counts_10_1_1 :
  bayes_estimate.apportion_counts [10; 1; 1] 6 = inr [4; 1; 1].
Proof. vm_compute. reflexivity. Qed.

(** ** deduplicate_counts (Bayesian estimator) *)

Arguments bayes_estimate.computeMedian : simpl never.
Arguments bayes_estimate.apportion_counts : simpl never.
Arguments float_of_int : simpl never.
Arguments py_round : simpl never.

Lemma returned_deduplicate_counts sampler umi_counts nsamp nthin nburn uniform total_counts :
  bayes_estimate.returned
    (bayes_estimate.deduplicate_counts sampler umi_counts nsamp nthin nburn uniform total_counts)
  = (dp <- bayes_estimate.draw_posterior sampler umi_counts nsamp nthin nburn uniform total_counts ;;
     fst (bayes_estimate.distribute umi_counts (fst dp) (snd dp))).
Proof.
  unfold bayes_estimate.deduplicate_counts.
  destruct (bayes_estimate.draw_posterior sampler umi_counts nsamp nthin nburn uniform total_counts)
    as [e|[data pi_post]]; [reflexivity|].
  cbn [bind fst snd].
  destruct (bayes_estimate.distribute umi_counts data pi_post). reflexivity.
Qed.

Lemma pi_post_after_deduplicate_counts sampler umi_counts nsamp nthin nburn uniform total_counts :
  bayes_estimate.pi_post_after
    (bayes_estimate.deduplicate_counts sampler umi_counts nsamp nthin nburn uniform total_counts)
  = match bayes_estimate.draw_posterior sampler umi_counts nsamp nthin nburn uniform total_counts with
    | inl _ => None
    | inr dp => Some (snd (bayes_estimate.computeMedian (snd dp)))
    end.
Proof.
  unfold bayes_estimate.deduplicate_counts.
  destruct (bayes_estimate.draw_posterior sampler umi_counts nsamp nthin nburn uniform total_counts)
    as [e|[data pi_post]]; [reflexivity|].
  unfold bayes_estimate.distribute. cbn [snd].
  destruct (bayes_estimate.computeMedian pi_post). reflexivity.
Qed.

Lemma fst_distribute umi_counts data pi_post :
  fst (bayes_estimate.distribute umi_counts data pi_post)
  = (p <- fst (bayes_estimate.computeMedian pi_post) ;;
     N <- float_of_int (py_sum data) ;;
     target <- py_round (PrimFloat.mul p N) ;;
     data_dedup <- bayes_estimate.apportion_counts data target ;;
     for_in (zip3 (OrderedDict.keys umi_counts) (OrderedDict.values umi_counts) data_dedup)
            bayes_estimate.record_estimate []).
Proof.
  unfold bayes_estimate.distribute.
  destruct (bayes_estimate.computeMedian pi_post). reflexivity.
Qed.

(** C2: on the table [{A: 0, C: 4, G: 0, T: 0}] the estimator, whatever
    the sampler returns, either raises or returns [{A: 0}]: the final
    loop zips the keys and values of the whole table with the shares of
    the nonzero entries only, so the share of [C] is offered to [A], and
    [C], [G] and [T] get no entry.  With posterior draws of median 0.5
    it returns [{A: 0}]. *)
Theorem deduplicate_counts_misaligned :
  (forall sampler nsamp nthin nburn,
      match bayes_estimate.returned
              (bayes_estimate.deduplicate_counts sampler table_C4 nsamp nthin nburn true None)
      with
      | inr umi_true => umi_true = [("A"%string, 0)]
      | inl _ => True
      end)
  /\ bayes_estimate.returned
       (bayes_estimate.deduplicate_counts (constant_sampler [0.25; 0.5; 0.75]%float) table_C4
          bayes_estimate.DEFAULT_NSAMP bayes_estimate.DEFAULT_NTHIN
          bayes_estimate.DEFAULT_NBURN true None)
     = inr [("A"%string, 0)].
Proof.
  split; [|vm_compute; reflexivity].
  intros sampler nsamp nthin nburn.
  rewrite returned_deduplicate_counts.
  unfold bayes_estimate.draw_posterior.
  change (bayes_estimate.collect_data table_C4 true None) with (@inr exn _ ([4], @nil Z)).
  cbn [bind fst snd].
  replace (bayes_estimate.C_prior_of true (len [4]) []) with (@inr exn _ [1%float])
    by (vm_compute; reflexivity).
  cbn [bind].
  match goal with |- context [sampler ?a ?b ?c ?d ?e ?f ?g ?h ?i ?j] =>
    destruct (sampler a b c d e f g h i j) as [e0|pi_post] end;
    cbn [bind ret fst snd]; [exact I|].
  rewrite fst_distribute.
  destruct (fst (bayes_estimate.computeMedian pi_post)) as [e0|p]; cbn [bind]; [exact I|].
  destruct (float_of_int (py_sum [4])) as [e0|N]; cbn [bind]; [exact I|].
  destruct (py_round (PrimFloat.mul p N)) as [e0|target]; cbn [bind]; [exact I|].
  destruct (bayes_estimate.apportion_counts [4] target) as [e0|data_dedup] eqn:E;
    cbn [bind]; [exact I|].
  apply apportion_counts_length in E.
  destruct data_dedup as [|x [|y rest]]; simpl in E; try discriminate.
  reflexivity.
Qed.

(** ** Sorting *)

Section SortFacts.

Variables (A K : Type) (key : A -> K) (lt : K -> K -> bool).

Lemma insert_perm (x : A) (xs : list A) : Permutation (insert key lt x xs) (x :: xs).
Proof.
  induction xs as [|y xs IH]; simpl; [apply Permutation_refl|].
  destruct (lt (key y) (key x)).
  - apply Permutation_trans with (y :: x :: xs).
    + apply perm_skip. exact IH.
    + apply perm_swap.
  - apply Permutation_refl.
Qed.

Lemma sorted_perm (xs : list A) : Permutation (sorted key lt xs) xs.
Proof.
  induction xs as [|x xs IH]; simpl; [apply perm_nil|].
  eapply Permutation_trans; [apply insert_perm|].
  apply perm_skip. exact IH.
Qed.

(** Sortedness for any relation that [lt] decides on the good items. *)
Variables (good : A -> Prop) (le : A -> A -> Prop).
Hypothesis lt_le : forall a b, lt (key a) (key b) = true -> le a b.
Hypothesis not_lt_le : forall a b, good a -> good b -> lt (key b) (key a) = false -> le a b.

Lemma insert_Sorted (x : A) (xs : list A) :
  good x -> Forall good xs -> Sorted le xs -> Sorted le (insert key lt x xs).
Proof.
  intros Hx Hgood Hs. induction Hs as [|y xs Hs IH Hhd]; simpl.
  - repeat constructor.
  - inversion Hgood as [|? ? Hy Hxs]; subst.
    destruct (lt (key y) (key x)) eqn:E.
    + constructor; [apply IH; exact Hxs|].
      destruct xs as [|z xs]; simpl.
      * constructor. apply lt_le. exact E.
      * destruct (lt (key z) (key x)).
        -- inversion Hhd; subst. constructor. assumption.
        -- constructor. apply lt_le. exact E.
    + constructor; [constructor; assumption|].
      constructor. apply not_lt_le; assumption.
Qed.

Lemma insert_good (x : A) (xs : list A) :
  good x -> Forall good xs -> Forall good (insert key lt x xs).
Proof.
  intros Hx Hxs.
  apply Forall_forall. intros y Hy.
  apply (Permutation_in _ (insert_perm x xs)) in Hy.
  destruct Hy as [<-|Hy]; [exact Hx|].
  rewrite Forall_forall in Hxs. apply Hxs. exact Hy.
Qed.

Lemma sorted_Sorted (xs : list A) : Forall good xs -> Sorted le (sorted key lt xs).
Proof.
  induction 1 as [|x xs Hx Hxs IH]; simpl; [constructor|].
  apply insert_Sorted; [exact Hx| |exact IH].
  clear IH. induction Hxs as [|y ys Hy Hys IH]; simpl; [constructor|].
  apply insert_good; assumption.
Qed.

End SortFacts.

(** ** The order of floats *)

Lemma SFcompare_antisym (x y : spec_float) (c : comparison) :
  SFcompare x y = Some c -> SFcompare y x = Some (CompOpp c).
Proof.
  destruct x as [sx|sx| |sx mx ex], y as [sy|sy| |sy my ey]; simpl;
    intros H; try discriminate; inversion H; subst; clear H;
    try (destruct sx; reflexivity); try (destruct sy; reflexivity);
    try (destruct sx, sy; reflexivity).
  f_equal.
  rewrite (Z.compare_antisym ex ey).
  change (Pos.compare_cont Eq my mx) with (Pos.compare my mx).
  change (Pos.compare_cont Eq mx my) with (Pos.compare mx my).
  rewrite (Pos.compare_antisym mx my).
  destruct sx, sy; simpl; try reflexivity;
    destruct (ex ?= ey); simpl; try reflexivity;
    destruct (mx ?= my)%positive; reflexivity.
Qed.

Lemma not_nan_compare (x y : float) :
  not_nan x -> not_nan y -> exists c, SFcompare (Prim2SF x) (Prim2SF y) = Some c.
Proof.
  unfold not_nan. rewrite !FloatAxioms.eqb_spec. unfold SFeqb.
  destruct (Prim2SF x) as [sx|sx| |sx mx ex], (Prim2SF y) as [sy|sy| |sy my ey]; simpl;
    intros Hx Hy; try discriminate; eexists; reflexivity.
Qed.

Lemma float_ltb_le (a b : float) : PrimFloat.ltb a b = true -> float_le a b.
Proof.
  unfold float_le. rewrite FloatAxioms.ltb_spec, FloatAxioms.leb_spec. unfold SFltb, SFleb.
  destruct (SFcompare (Prim2SF a) (Prim2SF b)) as [[| |]|]; congruence.
Qed.

Lemma float_not_ltb_le (a b : float) :
  not_nan a -> not_nan b -> PrimFloat.ltb b a = false -> float_le a b.
Proof.
  intros Ha Hb. unfold float_le. rewrite FloatAxioms.ltb_spec, FloatAxioms.leb_spec. unfold SFltb, SFleb.
  destruct (not_nan_compare Hb Ha) as [c Hc].
  rewrite Hc, (SFcompare_antisym _ _ Hc).
  destruct c; simpl; congruence.
Qed.

(** ** computeMedian *)

Lemma computeMedian_leaves_sorted (draws : list float) :
  snd (bayes_estimate.computeMedian draws) = sorted (fun x => x) PrimFloat.ltb draws.
Proof. reflexivity. Qed.

Lemma computeMedian_permutes (draws : list float) :
  Permutation draws (snd (bayes_estimate.computeMedian draws)).
Proof.
  rewrite computeMedian_leaves_sorted. apply Permutation_sym, sorted_perm.
Qed.

Lemma computeMedian_ascending (draws : list float) :
  Forall not_nan draws -> Sorted float_le (snd (bayes_estimate.computeMedian draws)).
Proof.
  intros H. rewrite computeMedian_leaves_sorted.
  apply sorted_Sorted with (good := not_nan); [| |exact H].
  - intros a b. apply float_ltb_le.
  - intros a b. apply float_not_ltb_le.
Qed.

(** C10: [computeMedian] sorts its argument in place, and
    [deduplicate_counts] hands it the list of posterior draws itself: once
    the sampler has returned [draws], the list holds, after the call, the
    draws permuted into ascending order (ascending for [<=] on floats when
    no draw is a nan). *)
Theorem computeMedian_sorts_the_draws
        sampler umi_counts nsamp nthin nburn uniform total_counts data draws :
  bayes_estimate.draw_posterior sampler umi_counts nsamp nthin nburn uniform total_counts
  = inr (data, draws) ->
  exists after,
    bayes_estimate.pi_post_after
      (bayes_estimate.deduplicate_counts sampler umi_counts nsamp nthin nburn uniform total_counts)
    = Some after
    /\ after = snd (bayes_estimate.computeMedian draws)
    /\ Permutation draws after
    /\ (Forall not_nan draws -> Sorted float_le after).
Proof.
  intros H. exists (snd (bayes_estimate.computeMedian draws)).
  rewrite pi_post_after_deduplicate_counts, H. cbn [snd].
  split; [reflexivity|]. split; [reflexivity|].
  split; [apply computeMedian_permutes|apply computeMedian_ascending].
Qed.

Lemma computeMedian_sorts_the_draws_witness :
  exists after,
    bayes_estimate.pi_post_after
      (bayes_estimate.deduplicate_counts (constant_sampler [0.75; 0.25; 0.5]%float)
         table_C4 1000 1 200 true None)
    = Some after
    /\ after = snd (bayes_estimate.computeMedian [0.75; 0.25; 0.5]%float)
    /\ Permutation [0.75; 0.25; 0.5]%float after
    /\ (Forall not_nan [0.75; 0.25; 0.5]%float -> Sorted float_le after).
Proof.
  apply (@computeMedian_sorts_the_draws (constant_sampler [0.75; 0.25; 0.5]%float)
           table_C4 1000 1 200 true None [4] [0.75; 0.25; 0.5]%float).
  vm_compute. reflexivity.
Defined.

(** The list is changed by the call when it was not in order. *)
Example computeMedian_reorders :
  bayes_estimate.computeMedian [0.75; 0.25; 0.5]%float
  = (inr 0.5%float, [0.25; 0.5; 0.75]%float).
Proof. vm_compute. reflexivity. Qed.

(** ** Strings *)

Lemma string_app_assoc (a b c : string) : ((a ++ b) ++ c = a ++ (b ++ c))%string.
Proof. induction a as [|x a IH]; simpl; [reflexivity|]. rewrite IH. reflexivity. Qed.

Lemma string_app_nil_r (a : string) : (a ++ "" = a)%string.
Proof. induction a as [|x a IH]; simpl; [reflexivity|]. rewrite IH. reflexivity. Qed.

Lemma string_forall_app (P : ascii -> Prop) (a b : string) :
  string_forall P a -> string_forall P b -> string_forall P (a ++ b).
Proof.
  induction a as [|x a IH]; simpl; [auto|]. intros [Hx Ha] Hb. split; auto.
Qed.

Lemma string_forall_impl (P Q : ascii -> Prop) (s : string) :
  (forall c, P c -> Q c) -> string_forall P s -> string_forall Q s.
Proof.
  intros H. induction s as [|x s IH]; simpl; [auto|]. intros [Hx Hs]. split; auto.
Qed.

(** ** umi_is_good *)

Lemma contains_re_exclusion (c : ascii) :
  Str.contains umi_data.re_exclusion c = true <-> in_alphabet c \/ c = "+"%char.
Proof.
  change umi_data.re_exclusion with "ACGT+"%string. unfold in_alphabet.
  cbn [Str.contains].
  rewrite !orb_true_iff, !Ascii.eqb_eq. intuition (subst; auto; discriminate).
Qed.

Lemma search_not_in_none (s : string) :
  Str.search_not_in umi_data.re_exclusion s = None
  <-> string_forall (fun c => in_alphabet c \/ c = "+"%char) s.
Proof.
  induction s as [|a s IH]; [simpl; tauto|].
  cbn [Str.search_not_in string_forall].
  destruct (Str.contains umi_data.re_exclusion a) eqn:E.
  - apply contains_re_exclusion in E.
    destruct (Str.search_not_in umi_data.re_exclusion s) as [n|]; cbn [option_map].
    + split; [intros H; discriminate H|].
      intros [_ H]. apply IH in H. discriminate H.
    + split; [|reflexivity]. intros _. split; [exact E|]. apply IH. reflexivity.
  - split; [intros H; discriminate H|].
    intros [H _]. apply contains_re_exclusion in H. congruence.
Qed.

(** C8 (as amended): [umi_is_good(umi)] is true exactly when every
    character of [umi] is one of A, C, G, T and [+]; it accepts every
    string over the alphabet and every two such strings joined by one
    [+] (and, besides, any other arrangement of [+] signs). *)
Theorem umi_is_good_iff (umi : string) :
  (umi_data.umi_is_good umi = true
   <-> string_forall (fun c => in_alphabet c \/ c = "+"%char) umi)
  /\ (single_or_paired_umi umi -> umi_data.umi_is_good umi = true).
Proof.
  assert (Hiff : umi_data.umi_is_good umi = true
                 <-> string_forall (fun c => in_alphabet c \/ c = "+"%char) umi).
  { unfold umi_data.umi_is_good. rewrite <- search_not_in_none.
    destruct (Str.search_not_in umi_data.re_exclusion umi); split; congruence. }
  split; [exact Hiff|].
  intros Hw. apply Hiff.
  assert (Hover : forall s, over_alphabet s ->
                            string_forall (fun c => in_alphabet c \/ c = "+"%char) s).
  { intros s. apply string_forall_impl. auto. }
  destruct Hw as [H|[a [b [-> [Ha Hb]]]]]; [apply Hover; exact H|].
  apply string_forall_app; [apply Hover; exact Ha|].
  simpl. split; [right; reflexivity|apply Hover; exact Hb].
Qed.

Lemma umi_is_good_iff_witness :
  umi_data.umi_is_good "AC+GT" = true.
Proof.
  apply (proj2 (umi_is_good_iff "AC+GT")).
  right. exists "AC"%string, "GT"%string.
  unfold over_alphabet, in_alphabet. simpl. tauto.
Defined.

(** C8 (as stated) fails: [A+C+G] is accepted, and it is neither a
    string over the alphabet nor two such strings joined by one [+]. *)
Lemma umi_is_good_accepts_two_separators :
  umi_data.umi_is_good "A+C+G" = true /\ ~ single_or_paired_umi "A+C+G".
Proof.
  split; [reflexivity|].
  unfold single_or_paired_umi, over_alphabet, in_alphabet.
  intros [H|[a [b [E [Ha Hb]]]]].
  - simpl in H. destruct H as [_ [[H|[H|[H|H]]] _]]; discriminate.
  - destruct a as [|a0 [|a1 [|a2 a]]]; simpl in E; inversion E; subst; clear E.
    + simpl in Hb. destruct Hb as [_ [[H|[H|[H|H]]] _]]; discriminate.
    + simpl in Ha. destruct Ha as [_ [[H|[H|[H|H]]] _]]; discriminate.
Qed.

(** ** get_umi *)

Lemma char_free_cons (c a : ascii) (s : string) :
  char_free c (String a s) <-> a <> c /\ char_free c s.
Proof.
  unfold char_free. simpl. rewrite orb_false_iff.
  split; intros [H1 H2]; split; auto.
  - intros ->. rewrite Ascii.eqb_refl in H1. discriminate.
  - apply Ascii.eqb_neq. exact H1.
Qed.

Lemma char_free_app (c : ascii) (a b : string) :
  char_free c (a ++ b) <-> char_free c a /\ char_free c b.
Proof.
  induction a as [|x a IH]; simpl.
  - unfold char_free at 2. simpl. tauto.
  - rewrite !char_free_cons, IH. tauto.
Qed.

Lemma partition_app (c : ascii) (a b : string) :
  char_free c a ->
  Str.fst3 (Str.partition c (a ++ b)) = (a ++ Str.fst3 (Str.partition c b))%string.
Proof.
  induction a as [|x a IH]; simpl; intros H; [reflexivity|].
  apply char_free_cons in H. destruct H as [Hx Ha].
  apply Ascii.eqb_neq in Hx. rewrite Hx.
  specialize (IH Ha).
  destruct (Str.partition c (a ++ b)) as [[h sep] t].
  unfold Str.fst3 in *. simpl in *. rewrite IH. reflexivity.
Qed.

Lemma partition_head (c : ascii) (r : string) :
  Str.fst3 (Str.partition c (String c r)) = EmptyString.
Proof. simpl. rewrite Ascii.eqb_refl. reflexivity. Qed.

Lemma partition_free (c : ascii) (a : string) :
  char_free c a -> Str.fst3 (Str.partition c a) = a.
Proof.
  intros H. rewrite <- (string_app_nil_r a) at 1.
  rewrite partition_app by exact H. simpl. apply string_app_nil_r.
Qed.

Lemma rpartition_free (c : ascii) (s : string) :
  char_free c s -> Str.rpartition c s = (EmptyString, EmptyString, s).
Proof.
  induction s as [|a s IH]; simpl; intros H; [reflexivity|].
  apply char_free_cons in H. destruct H as [Ha Hs].
  rewrite (IH Hs). apply Ascii.eqb_neq in Ha. rewrite Ha. reflexivity.
Qed.

Lemma rpartition_last (c : ascii) (p seg : string) :
  char_free c seg ->
  Str.rpartition c (p ++ String c seg) = (p, String c EmptyString, seg).
Proof.
  intros H. induction p as [|a p IH]; simpl.
  - rewrite (rpartition_free H), Ascii.eqb_refl. reflexivity.
  - rewrite IH. reflexivity.
Qed.

Lemma get_umi_labels_find (labels : list string) (truncate : option Z) :
  umi_data.get_umi_labels labels truncate
  = match find has_5_or_7_colons labels with
    | Some label =>
        let umi := Str.thd3 (Str.rpartition ":"
                     (Str.fst3 (Str.partition "/" (Str.fst3 (Str.partition "#" label))))) in
        inr (match truncate with None => umi | Some t => Str.slice_to umi t end)
    | None => inl RuntimeError
    end.
Proof.
  induction labels as [|label rest IH]; simpl; [reflexivity|].
  unfold has_5_or_7_colons at 1.
  destruct ((Str.count ":" label =? 5) || (Str.count ":" label =? 7)); [reflexivity|exact IH].
Qed.

(** What the three nested calls leave of a label. *)
Lemma strip_label (pre seg rest : string) :
  char_free "#" (pre ++ seg) -> char_free "/" (pre ++ seg) -> char_free ":" seg ->
  empty_or_ends_with_colon pre -> empty_or_suffix_mark rest ->
  Str.thd3 (Str.rpartition ":"
     (Str.fst3 (Str.partition "/" (Str.fst3 (Str.partition "#" (pre ++ seg ++ rest))))))
  = seg.
Proof.
  intros Hhash Hslash Hcolon Hpre Hrest.
  rewrite <- string_app_assoc.
  assert (Hstage : Str.fst3 (Str.partition "/"
                     (Str.fst3 (Str.partition "#" ((pre ++ seg) ++ rest))))
                   = (pre ++ seg)%string).
  { rewrite (partition_app _ Hhash).
    destruct Hrest as [->|[c [r [-> [->| ->]]]]].
    - simpl. rewrite string_app_nil_r. apply partition_free. exact Hslash.
    - rewrite partition_head, string_app_nil_r. apply partition_free. exact Hslash.
    - assert (E : exists r', Str.fst3 (Str.partition "#" (String "/" r)) = String "/" r').
      { simpl. destruct (Str.partition "#" r) as [[h sep] t]. eexists. reflexivity. }
      destruct E as [r' ->].
      rewrite (partition_app _ Hslash), partition_head. apply string_app_nil_r. }
  rewrite Hstage.
  destruct Hpre as [->|[p ->]].
  - simpl. rewrite (rpartition_free Hcolon). reflexivity.
  - rewrite string_app_assoc. simpl.
    rewrite (rpartition_last _ Hcolon). reflexivity.
Qed.

Lemma slice_to_nonneg (s : string) (t : Z) :
  0 <= t -> Str.slice_to s t = substring 0 (Z.to_nat t) s.
Proof.
  intros H. unfold Str.slice_to.
  destruct (t <? 0) eqn:E; [apply Z.ltb_lt in E; lia|reflexivity].
Qed.

(** C3 (as amended): [get_umi] looks at the first two space-separated
    tokens of the read name at most.  From the first of them with
    exactly 5 or exactly 7 colons it returns the colon-free text that
    ends at the token's first [#] or [/] (at the end of the token when it
    has neither) and starts after the last colon before that point (at
    the start of the token when there is none), shortened to its first
    [truncate] characters when [truncate] is given (and not negative).
    When neither token has exactly 5 or 7 colons it raises. *)
Theorem get_umi_first_qualifying_token (read_name : string) (truncate : option Z) :
  (forall tok pre seg rest,
      find has_5_or_7_colons (firstn 2 (Str.split " " read_name)) = Some tok ->
      tok = (pre ++ seg ++ rest)%string ->
      empty_or_ends_with_colon pre ->
      char_free "#" (pre ++ seg) -> char_free "/" (pre ++ seg) -> char_free ":" seg ->
      empty_or_suffix_mark rest ->
      (forall t, truncate = Some t -> 0 <= t) ->
      umi_data.get_umi read_name truncate = inr (shortened truncate seg))
  /\ (find has_5_or_7_colons (firstn 2 (Str.split " " read_name)) = None ->
      umi_data.get_umi read_name truncate = inl RuntimeError).
Proof.
  unfold umi_data.get_umi. rewrite get_umi_labels_find. split.
  - intros tok pre seg rest Hfind -> Hpre Hhash Hslash Hcolon Hrest Htr.
    rewrite Hfind. cbv zeta.
    rewrite (strip_label Hhash Hslash Hcolon Hpre Hrest).
    destruct truncate as [t|]; simpl; [|reflexivity].
    rewrite slice_to_nonneg by (apply Htr; reflexivity). reflexivity.
  - intros ->. reflexivity.
Qed.

Lemma get_umi_first_qualifying_token_witness :
  umi_data.get_umi "SRR001.1 M01:7:FC1:1:1101:1500:2000:ACGTACGT#0/1" (Some 4)
  = inr "ACGT"%string.
Proof.
  apply (proj1 (get_umi_first_qualifying_token
                  "SRR001.1 M01:7:FC1:1:1101:1500:2000:ACGTACGT#0/1" (Some 4))
               "M01:7:FC1:1:1101:1500:2000:ACGTACGT#0/1"%string
               "M01:7:FC1:1:1101:1500:2000:"%string "ACGTACGT"%string "#0/1"%string).
  - reflexivity.
  - reflexivity.
  - right. exists "M01:7:FC1:1:1101:1500:2000"%string. reflexivity.
  - reflexivity.
  - reflexivity.
  - reflexivity.
  - right. exists "#"%char, "0/1"%string. split; [reflexivity|left; reflexivity].
  - intros t H. inversion H. lia.
Defined.

(** C3 (as stated) fails when a [/] (or [#]) stands before the last
    colon: the token [a:b/c:d:e:f:ACGT] has 5 colons and the text after
    its last colon is [ACGT], but [get_umi] returns [b]. *)
Lemma get_umi_cuts_before_last_colon :
  Str.count ":" "a:b/c:d:e:f:ACGT" = 5
  /\ Str.thd3 (Str.rpartition ":" "a:b/c:d:e:f:ACGT") = "ACGT"%string
  /\ umi_data.get_umi "a:b/c:d:e:f:ACGT" None = inr "b"%string.
Proof. repeat split. Qed.

(** The examples of the specification. *)
Example get_umi_7_colons :
  umi_data.get_umi "M01:7:FC1:1:1101:1500:2000:ACGTACGT" None = inr "ACGTACGT"%string.
Proof. reflexivity. Qed.

Example get_umi_no_convention :
  umi_data.get_umi "read_17 1:N:0" None = inl RuntimeError.
Proof. reflexivity. Qed.

(** ** dedup_cluster (Poisson-mixture estimator) *)

Lemma n_nonzero_le_sum (umi_counts : poisson_mixture.UmiValues) :
  nonneg_counts umi_counts ->
  0 <= poisson_mixture.n_nonzero umi_counts
    <= py_sum (poisson_mixture.nonzero_values umi_counts).
Proof.
  unfold poisson_mixture.n_nonzero, poisson_mixture.nonzero_values,
    poisson_mixture.nonzero_items, len.
  induction 1 as [|[k v] rest Hv _ IH]; simpl; [rewrite py_sum_nil; lia|].
  simpl in Hv. destruct (v =? 0) eqn:E; simpl; [exact IH|].
  apply Z.eqb_neq in E. rewrite py_sum_cons. simpl List.length. lia.
Qed.

Lemma final_estimate_cases fit (umi_counts : poisson_mixture.UmiValues) (kmax : Z) :
  nonneg_counts umi_counts ->
  match poisson_mixture.final_estimate fit umi_counts kmax with
  | inr est =>
      poisson_mixture.n_nonzero umi_counts <= est
      /\ est <= py_sum (poisson_mixture.nonzero_values umi_counts)
  | inl e => exists data obs, fit data obs kmax = inl e
  end.
Proof.
  intros Hnn. pose proof (n_nonzero_le_sum Hnn) as Hb.
  unfold poisson_mixture.final_estimate.
  match goal with |- context [if ?c then _ else _] => destruct c end; [simpl; lia|].
  match goal with |- context [fit ?d ?o kmax] => destruct (fit d o kmax) as [e|est] eqn:Efit end;
    simpl.
  - eexists. eexists. exact Efit.
  - destruct (est <=? poisson_mixture.n_nonzero umi_counts) eqn:E1; simpl; [lia|].
    apply Z.leb_gt in E1.
    destruct (py_sum (poisson_mixture.nonzero_values umi_counts) <=? est) eqn:E2; simpl.
    + lia.
    + apply Z.leb_gt in E2. lia.
Qed.

Lemma nonzero_values_nonempty (umi_counts : poisson_mixture.UmiValues) :
  Exists (fun kv => snd kv <> 0) umi_counts -> poisson_mixture.nonzero_values umi_counts <> [].
Proof.
  unfold poisson_mixture.nonzero_values, poisson_mixture.nonzero_items.
  induction 1 as [[k v] rest Hv|[k v] rest _ IH]; simpl.
  - simpl in Hv. apply Z.eqb_neq in Hv. rewrite Hv. simpl. discriminate.
  - destruct (v =? 0); simpl; [exact IH|discriminate].
Qed.

(** C4: on a table of non-negative counts with a nonzero one,
    [dedup_cluster] either takes the shortcut and returns the table, or
    raises what the mixture fit raised, or calls [apportion_counts] on
    the nonzero counts with a total that is at least the number of
    nonzero UMIs and at most the sum of the nonzero counts, whatever the
    fit returned. *)
Theorem dedup_cluster_total_within_bounds
        fit (umi_counts : poisson_mixture.UmiValues) (kmax : Z) :
  nonneg_counts umi_counts ->
  Exists (fun kv => snd kv <> 0) umi_counts ->
  poisson_mixture.dedup_cluster fit umi_counts kmax = inr umi_counts
  \/ (exists e data obs,
         fit data obs kmax = inl e
         /\ poisson_mixture.dedup_cluster fit umi_counts kmax = inl e)
  \/ (exists est,
         poisson_mixture.final_estimate fit umi_counts kmax = inr est
         /\ poisson_mixture.n_nonzero umi_counts <= est
         /\ est <= py_sum (poisson_mixture.nonzero_values umi_counts)
         /\ poisson_mixture.dedup_cluster fit umi_counts kmax
            = (data_dedup <- bayes_estimate.apportion_counts
                               (poisson_mixture.nonzero_values umi_counts) est ;;
               ret (OrderedDict.of_pairs
                      (combine (poisson_mixture.nonzero_keys umi_counts) data_dedup)))).
Proof.
  intros Hnn Hex.
  pose proof (final_estimate_cases fit kmax Hnn) as Hest.
  pose proof (nonzero_values_nonempty Hex) as Hne.
  unfold poisson_mixture.dedup_cluster.
  destruct (poisson_mixture.nonzero_values umi_counts) as [|v vs] eqn:Ev; [congruence|].
  cbn [py_max bind ret].
  match goal with |- context [if ?c then _ else _] => destruct c end; [left; reflexivity|].
  right.
  destruct (poisson_mixture.final_estimate fit umi_counts kmax) as [e|est].
  - left. destruct Hest as [data [obs Hfit]]. exists e, data, obs. split; [exact Hfit|reflexivity].
  - right. exists est. destruct Hest as [Hlo Hhi]. repeat split; assumption.
Qed.

Lemma dedup_cluster_total_within_bounds_witness :
  exists est,
    poisson_mixture.final_estimate (constant_fit 100)
      [("A"%string, 3); ("C"%string, 1); ("G"%string, 0); ("T"%string, 2)] 10 = inr est
    /\ 3 <= est <= 6.
Proof.
  destruct (@dedup_cluster_total_within_bounds (constant_fit 100)
              [("A"%string, 3); ("C"%string, 1); ("G"%string, 0); ("T"%string, 2)] 10)
    as [H|[H|H]].
  - repeat constructor; simpl; lia.
  - apply Exists_cons_hd. simpl. lia.
  - vm_compute in H. discriminate H.
  - destruct H as [e [data [obs [H _]]]]. discriminate H.
  - destruct H as [est [H1 [H2 [H3 _]]]]. exists est.
    split; [exact H1|]. split; [exact H2|exact H3].
Defined.


Example final_estimate_clipped_above :
  poisson_mixture.final_estimate (constant_fit 100)
    [("A"%string, 3); ("C"%string, 1); ("G"%string, 0); ("T"%string, 2)] 10 = inr 6.
Proof. reflexivity. Qed.

Example final_estimate_clipped_below :
  poisson_mixture.final_estimate (constant_fit 0)
    [("A"%string, 3); ("C"%string, 1); ("G"%string, 0); ("T"%string, 2)] 10 = inr 3.
Proof. reflexivity. Qed.

Lemma py_max_all_ones (xs : list Z) :
  xs <> [] -> Forall (fun v => v = 1) xs -> py_max xs = inr 1.
Proof.
  destruct xs as [|x rest]; [congruence|]. intros _ H.
  inversion H as [|? ? Hx Hrest]; subst. unfold py_max, ret. f_equal.
  induction Hrest as [|y rest Hy _ IH]; simpl; [reflexivity|].
  subst y. simpl. apply IH. constructor; [reflexivity|].
  inversion H as [|? ? _ H']; subst. inversion H'; subst. assumption.
Qed.

(** C5: when the nonzero counts of the table are all 1 (their maximum is
    1), [dedup_cluster] returns the table it was given; the fit plays no
    part, the equation holding for every fit, also one that raises. *)
Theorem dedup_cluster_singletons fit (umi_counts : poisson_mixture.UmiValues) (kmax : Z) :
  poisson_mixture.nonzero_values umi_counts <> [] ->
  Forall (fun v => v = 1) (poisson_mixture.nonzero_values umi_counts) ->
  poisson_mixture.dedup_cluster fit umi_counts kmax = inr umi_counts.
Proof.
  intros Hne Hones. unfold poisson_mixture.dedup_cluster.
  rewrite (py_max_all_ones Hne Hones). reflexivity.
Qed.

Lemma dedup_cluster_singletons_witness :
  poisson_mixture.dedup_cluster failing_fit
    [("A"%string, 1); ("C"%string, 0); ("G"%string, 1); ("T"%string, 0)]
    poisson_mixture.DEFAULT_KMAX
  = inr [("A"%string, 1); ("C"%string, 0); ("G"%string, 1); ("T"%string, 0)].
Proof.
  apply (@dedup_cluster_singletons failing_fit
           [("A"%string, 1); ("C"%string, 0); ("G"%string, 1); ("T"%string, 0)]).
  - simpl. discriminate.
  - simpl. repeat constructor.
Defined.

(** C9: on a table whose counts are all zero, [dedup_cluster] raises the
    [ValueError] of [max] over an empty sequence. *)
Theorem dedup_cluster_all_zero_raises fit (umi_counts : poisson_mixture.UmiValues) (kmax : Z) :
  Forall (fun kv => snd kv = 0) umi_counts ->
  poisson_mixture.dedup_cluster fit umi_counts kmax = inl ValueError.
Proof.
  intros H. unfold poisson_mixture.dedup_cluster.
  assert (E : poisson_mixture.nonzero_values umi_counts = []).
  { unfold poisson_mixture.nonzero_values, poisson_mixture.nonzero_items.
    induction H as [|[k v] rest Hv _ IH]; simpl; [reflexivity|].
    simpl in Hv. subst v. simpl. exact IH. }
  rewrite E. reflexivity.
Qed.

Lemma dedup_cluster_all_zero_raises_witness :
  poisson_mixture.dedup_cluster (constant_fit 1)
    [("A"%string, 0); ("C"%string, 0); ("G"%string, 0); ("T"%string, 0)]
    poisson_mixture.DEFAULT_KMAX
  = inl ValueError.
Proof.
  apply (@dedup_cluster_all_zero_raises (constant_fit 1)
           [("A"%string, 0); ("C"%string, 0); ("G"%string, 0); ("T"%string, 0)]).
  repeat constructor.
Defined.

(** ** mark_duplicates *)

Section Stability.

Variables (A : Type) (key : A -> Z).

(** A stable sort keeps the items of each key in their order. *)
Lemma insert_filter_key (q : Z) (x : A) (xs : list A) :
  filter (fun a => key a =? q) (insert key Z.ltb x xs)
  = filter (fun a => key a =? q) (x :: xs).
Proof.
  induction xs as [|y xs IH]; [reflexivity|].
  cbn [insert]. destruct (key y <? key x) eqn:E; [|reflexivity].
  apply Z.ltb_lt in E.
  cbn [filter] in *. rewrite IH.
  destruct (key x =? q) eqn:Ex; [|reflexivity].
  apply Z.eqb_eq in Ex.
  destruct (key y =? q) eqn:Ey; [|reflexivity].
  apply Z.eqb_eq in Ey. lia.
Qed.

Lemma sorted_stable (q : Z) (xs : list A) :
  filter (fun a => key a =? q) (sorted key Z.ltb xs) = filter (fun a => key a =? q) xs.
Proof.
  induction xs as [|x xs IH]; [reflexivity|].
  cbn [sorted fold_right]. fold (sorted key Z.ltb xs).
  rewrite insert_filter_key. cbn [filter]. rewrite IH. reflexivity.
Qed.

Lemma sorted_by_key (xs : list A) :
  StronglySorted (fun a b => key a <= key b) (sorted key Z.ltb xs).
Proof.
  apply Sorted_StronglySorted.
  - intros a b c; lia.
  - apply sorted_Sorted with (good := fun _ => True).
    + intros a b H. apply Z.ltb_lt in H. lia.
    + intros a b _ _ H. apply Z.ltb_ge in H. exact H.
    + apply Forall_forall. intros; exact I.
Qed.

Lemma StronglySorted_app_le (R : A -> A -> Prop) (l1 l2 : list A) :
  StronglySorted R (l1 ++ l2) -> forall a b, In a l1 -> In b l2 -> R a b.
Proof.
  induction l1 as [|x l1 IH]; simpl; intros H a b Ha Hb; [contradiction|].
  inversion H as [|? ? Hs Hall]; subst.
  destruct Ha as [<-|Ha].
  - rewrite Forall_forall in Hall. apply Hall. apply in_or_app. right. exact Hb.
  - apply IH; assumption.
Qed.

End Stability.

Lemma flag_all_outside (l : list parse_sam.address) (h : parse_sam.heap) (a : parse_sam.address) :
  ~ In a l -> nth_error (flag_all l h) a = nth_error h a.
Proof.
  unfold flag_all. revert h. induction l as [|x l IH]; simpl; intros h Hnin; [reflexivity|].
  rewrite IH by tauto. apply nth_error_update_other. intros ->. tauto.
Qed.

Lemma flag_all_inside (l : list parse_sam.address) (h : parse_sam.heap) (a : parse_sam.address) :
  In a l ->
  nth_error (flag_all l h) a = option_map (parse_sam.set_is_duplicate true) (nth_error h a).
Proof.
  revert h. induction l as [|x l IH]; intros h Hin; [contradiction|].
  change (flag_all (x :: l) h)
    with (flag_all l (update h x (parse_sam.set_is_duplicate true))).
  destruct (in_dec Nat.eq_dec a l) as [Hl|Hl].
  - rewrite (IH _ Hl).
    destruct (Nat.eq_dec x a) as [->|Hxa].
    + rewrite nth_error_update_same. destruct (nth_error h a); reflexivity.
    + rewrite nth_error_update_other by exact Hxa. reflexivity.
  - rewrite flag_all_outside by exact Hl.
    destruct Hin as [->|Hin]; [|contradiction].
    apply nth_error_update_same.
Qed.

Lemma NoDup_firstn {A} (n : nat) (l : list A) : NoDup l -> NoDup (firstn n l).
Proof.
  intros H. rewrite <- (firstn_skipn n l) in H. apply NoDup_app_remove_r in H. exact H.
Qed.

(** C6: [mark_duplicates(reads, n)] with [0 < n <= len(reads)] orders
    the records by ascending aggregate quality, records of equal quality
    staying in their order, sets the duplicate flag of the first [n] of
    them, [n] distinct records none of which has a higher quality than a
    record it leaves out, leaves every other record as it was (so that,
    the flags being false before, a record of the list is flagged
    afterwards exactly when it is one of those [n]), and returns the list
    it was given; with [n <= 0] it changes nothing.  For three records of quality 10, 30 and 20 and
    [n = 2], in any order, the records of quality 10 and 20 are flagged
    and the record of quality 30 is not. *)
Theorem mark_duplicates_flags_lowest_quality :
  (forall (h : parse_sam.heap) (reads : list parse_sam.address) (n : Z),
      NoDup reads -> 0 < n <= len reads ->
      exists sorted_reads flagged h',
        umi_data.mark_duplicates h reads n = inr (h', reads)
        /\ Permutation sorted_reads reads
        /\ StronglySorted (quality_le h) sorted_reads
        /\ (forall q, filter (fun a => parse_sam.quality_at h a =? q) sorted_reads
                      = filter (fun a => parse_sam.quality_at h a =? q) reads)
        /\ flagged = firstn (Z.to_nat n) sorted_reads
        /\ len flagged = n
        /\ NoDup flagged
        /\ (forall a, In a flagged ->
                      nth_error h' a
                      = option_map (parse_sam.set_is_duplicate true) (nth_error h a))
        /\ (forall a, ~ In a flagged -> nth_error h' a = nth_error h a)
        /\ (forall a b, In a flagged -> In b reads -> ~ In b flagged -> quality_le h a b)
        /\ (Forall (fun a => (a < List.length h)%nat) reads ->
            (forall a, In a reads -> parse_sam.flag_at h a = false) ->
            forall a, In a reads -> (parse_sam.flag_at h' a = true <-> In a flagged)))
  /\ (forall (h : parse_sam.heap) (reads : list parse_sam.address) (n : Z),
         n <= 0 -> umi_data.mark_duplicates h reads n = inr (h, reads))
  /\ (forall reads : list parse_sam.address,
         Permutation reads [0; 1; 2]%nat ->
         exists h',
           umi_data.mark_duplicates three_reads reads 2 = inr (h', reads)
           /\ parse_sam.flag_at h' 0%nat = true
           /\ parse_sam.flag_at h' 1%nat = false
           /\ parse_sam.flag_at h' 2%nat = true).
Proof.
  split; [|split].
  - intros h reads n Hnd [Hpos Hle].
    set (sorted_reads := sorted (parse_sam.quality_at h) Z.ltb reads).
    assert (Hperm : Permutation sorted_reads reads) by apply sorted_perm.
    assert (Hlen : List.length sorted_reads = List.length reads)
      by (apply Permutation_length; exact Hperm).
    exists sorted_reads, (firstn (Z.to_nat n) sorted_reads),
      (flag_all (firstn (Z.to_nat n) sorted_reads) h).
    split.
    { unfold umi_data.mark_duplicates.
      replace (n <=? len reads) with true by (symmetry; apply Z.leb_le; exact Hle).
      replace (0 <? n) with true by (symmetry; apply Z.ltb_lt; exact Hpos).
      reflexivity. }
    split; [exact Hperm|].
    split; [apply sorted_by_key|].
    split; [intros q; apply sorted_stable|].
    split; [reflexivity|].
    split; [unfold len in *; rewrite length_firstn; lia|].
    split; [apply NoDup_firstn; apply (Permutation_NoDup (Permutation_sym Hperm)); exact Hnd|].
    split; [intros a; apply flag_all_inside|].
    split; [intros a; apply flag_all_outside|].
    split.
    { intros a b Ha Hb Hnb.
      apply (@StronglySorted_app_le _ (quality_le h)
               (firstn (Z.to_nat n) sorted_reads) (skipn (Z.to_nat n) sorted_reads)).
      + rewrite firstn_skipn. apply sorted_by_key.
      + exact Ha.
      + apply (Permutation_in _ (Permutation_sym Hperm)) in Hb.
        rewrite <- (firstn_skipn (Z.to_nat n) sorted_reads) in Hb.
        apply in_app_or in Hb. tauto. }
    intros Hvalid Hclear a Ha. unfold parse_sam.flag_at.
    destruct (in_dec Nat.eq_dec a (firstn (Z.to_nat n) sorted_reads)) as [Hin|Hout].
    + rewrite flag_all_inside by exact Hin.
      rewrite Forall_forall in Hvalid. specialize (Hvalid a Ha).
      apply nth_error_Some in Hvalid.
      destruct (nth_error h a) as [r|]; [|congruence].
      simpl. tauto.
    + rewrite flag_all_outside by exact Hout.
      specialize (Hclear a Ha). unfold parse_sam.flag_at in Hclear. rewrite Hclear.
      split; [discriminate|tauto].
  - intros h reads n Hn. unfold umi_data.mark_duplicates.
    replace (n <=? len reads) with true by (symmetry; apply Z.leb_le; unfold len; lia).
    replace (0 <? n) with false by (symmetry; apply Z.ltb_ge; exact Hn).
    reflexivity.
  - intros reads Hperm.
    pose proof (Permutation_length Hperm) as Hlen.
    pose proof (Permutation_NoDup (Permutation_sym Hperm)) as Hnd.
    assert (Hin : forall a, In a reads -> (a = 0 \/ a = 1 \/ a = 2)%nat).
    { intros a Ha. apply (Permutation_in _ Hperm) in Ha. simpl in Ha. intuition. }
    destruct reads as [|a [|b [|c [|d rest]]]]; simpl in Hlen; try discriminate.
    assert (Hnd' : NoDup [a; b; c]).
    { apply Hnd. repeat constructor; simpl; intuition discriminate. }
    assert (a <> b /\ a <> c /\ b <> c) as [Hab [Hac Hbc]].
    { inversion Hnd' as [|? ? Ha Hnd1]; subst. inversion Hnd1 as [|? ? Hb _]; subst.
      simpl in Ha, Hb. intuition. }
    pose proof (Hin a (or_introl eq_refl)) as Ha.
    pose proof (Hin b (or_intror (or_introl eq_refl))) as Hb.
    pose proof (Hin c (or_intror (or_intror (or_introl eq_refl)))) as Hc.
    clear Hin Hnd Hnd' Hperm Hlen.
    destruct Ha as [-> |[-> | ->]]; destruct Hb as [-> |[-> | ->]];
      destruct Hc as [-> |[-> | ->]]; try congruence;
      (eexists; split; [vm_compute; reflexivity|repeat split]).
Qed.

Lemma mark_duplicates_flags_lowest_quality_witness :
  exists sorted_reads flagged h',
    umi_data.mark_duplicates three_reads [1; 2; 0]%nat 2 = inr (h', [1; 2; 0]%nat)
    /\ Permutation sorted_reads [1; 2; 0]%nat
    /\ StronglySorted (quality_le three_reads) sorted_reads
    /\ (forall q, filter (fun a => parse_sam.quality_at three_reads a =? q) sorted_reads
                  = filter (fun a => parse_sam.quality_at three_reads a =? q) [1; 2; 0]%nat)
    /\ flagged = firstn (Z.to_nat 2) sorted_reads
    /\ len flagged = 2
    /\ NoDup flagged
    /\ (forall a, In a flagged ->
                  nth_error h' a
                  = option_map (parse_sam.set_is_duplicate true) (nth_error three_reads a))
    /\ (forall a, ~ In a flagged -> nth_error h' a = nth_error three_reads a)
    /\ (forall a b, In a flagged -> In b [1; 2; 0]%nat -> ~ In b flagged ->
                    quality_le three_reads a b)
    /\ (Forall (fun a => (a < List.length three_reads)%nat) [1; 2; 0]%nat ->
        (forall a, In a [1; 2; 0]%nat -> parse_sam.flag_at three_reads a = false) ->
        forall a, In a [1; 2; 0]%nat -> (parse_sam.flag_at h' a = true <-> In a flagged)).
Proof.
  apply (proj1 mark_duplicates_flags_lowest_quality three_reads [1; 2; 0]%nat 2).
  - repeat constructor; simpl; intuition discriminate.
  - vm_compute. split; [reflexivity|discriminate].
Defined.

(** Records of equal quality: the one that comes first in [reads] is
    flagged first. *)
Example mark_duplicates_tie :
  umi_data.mark_duplicates
    [plain_read "r0" [7]; plain_read "r1" [7]; plain_read "r2" [7]] [2; 0; 1]%nat 1
  = inr ([plain_read "r0" [7]; plain_read "r1" [7];
          parse_sam.set_is_duplicate true (plain_read "r2" [7])],
         [2; 0; 1]%nat).
Proof. reflexivity. Qed.

(** ** The two counts of usable reads *)

(** C7: the two totals differ on an input of one record that failed the
    quality checks and carries a valid UMI.  The first pass counts every
    record whose UMI is in the universe, usable or not: its table sums
    to 1.  The second pass skips the record: its counter stays at 0.
    The final assertion fails.  They also differ, the other way round,
    on a usable record with the paired UMI [A+C]: it is not in the
    universe of the first pass (total 0) and it is counted by the second
    (counter 1). *)
Theorem usable_read_totals_disagree :
  (exists umi_totals,
      dedup.first_pass [qcfail_read "M01:7:FC1:1:1101:ACGT" [30; 30]] = inr umi_totals
      /\ py_sum (OrderedDict.values umi_totals) = 1
      /\ dedup.second_pass_read_counter [qcfail_read "M01:7:FC1:1:1101:ACGT" [30; 30]] = inr 0
      /\ dedup.summary_assertion [qcfail_read "M01:7:FC1:1:1101:ACGT" [30; 30]]
         = inl AssertionError)
  /\ (exists umi_totals,
         dedup.first_pass [plain_read "M01:7:FC1:1:1101:A+C" [30; 30]] = inr umi_totals
         /\ py_sum (OrderedDict.values umi_totals) = 0
         /\ dedup.second_pass_read_counter [plain_read "M01:7:FC1:1:1101:A+C" [30; 30]] = inr 1
         /\ dedup.summary_assertion [plain_read "M01:7:FC1:1:1101:A+C" [30; 30]]
            = inl AssertionError).
Proof.
  split.
  - eexists. split; [vm_compute; reflexivity|].
    split; [vm_compute; reflexivity|].
    split; vm_compute; reflexivity.
  - eexists. split; [vm_compute; reflexivity|].
    split; [vm_compute; reflexivity|].
    split; vm_compute; reflexivity.
Qed.

(** On usable records with UMIs over the alphabet the two totals agree. *)
Example usable_read_totals_agree :
  dedup.summary_assertion
    [plain_read "M01:7:FC1:1:1101:AC" [30]; plain_read "M01:7:FC1:1:1102:AC" [20];
     plain_read "M01:7:FC1:1:1103:GT" [10]]
  = inr tt.
Proof. vm_compute. reflexivity. Qed.

(* ================================================================= *)
(** * Further properties of the modelled code *)

(** ** OrderedDict: lookup and assignment *)

Lemma od_get_set_same {V} (d : OrderedDict.t V) (k : string) (v : V) :
  OrderedDict.get (OrderedDict.set d k v) k = inr v.
Proof.
  induction d as [|[k' v'] d IH]; simpl.
  - rewrite String.eqb_refl. reflexivity.
  - destruct (String.eqb k' k) eqn:E; simpl; rewrite E; [reflexivity|exact IH].
Qed.

Lemma od_get_set_other {V} (d : OrderedDict.t V) (k k' : string) (v : V) :
  k <> k' -> OrderedDict.get (OrderedDict.set d k v) k' = OrderedDict.get d k'.
Proof.
  intros Hne. induction d as [|[k0 v0] d IH]; simpl.
  - replace (String.eqb k k') with false by (symmetry; apply String.eqb_neq; exact Hne).
    reflexivity.
  - destruct (String.eqb k0 k) eqn:E; simpl.
    + apply String.eqb_eq in E. subst k0.
      replace (String.eqb k k') with false by (symmetry; apply String.eqb_neq; exact Hne).
      reflexivity.
    + rewrite IH. reflexivity.
Qed.

Lemma od_get_in {V} (d : OrderedDict.t V) (k : string) :
  In k (OrderedDict.keys d) -> exists v, OrderedDict.get d k = inr v.
Proof.
  induction d as [|[k' v'] d IH]; simpl; [contradiction|].
  intros H. destruct (String.eqb k' k) eqn:E; [eexists; reflexivity|].
  apply String.eqb_neq in E. destruct H as [H|H]; [congruence|]. apply IH. exact H.
Qed.

Lemma od_get_not_in {V} (d : OrderedDict.t V) (k : string) :
  ~ In k (OrderedDict.keys d) -> OrderedDict.get d k = inl KeyError.
Proof.
  induction d as [|[k' v'] d IH]; simpl; [reflexivity|].
  intros H. destruct (String.eqb k' k) eqn:E.
  - apply String.eqb_eq in E. tauto.
  - apply IH. tauto.
Qed.

Lemma od_keys_set_in {V} (d : OrderedDict.t V) (k : string) (v : V) :
  In k (OrderedDict.keys d) -> OrderedDict.keys (OrderedDict.set d k v) = OrderedDict.keys d.
Proof.
  induction d as [|[k' v'] d IH]; simpl; [contradiction|].
  intros H. destruct (String.eqb k' k) eqn:E; simpl; [reflexivity|].
  apply String.eqb_neq in E. f_equal. apply IH. destruct H; [congruence|assumption].
Qed.

Lemma od_set_not_in {V} (d : OrderedDict.t V) (k : string) (v : V) :
  ~ In k (OrderedDict.keys d) -> OrderedDict.set d k v = (d ++ [(k, v)])%list.
Proof.
  induction d as [|[k' v'] d IH]; simpl; [reflexivity|].
  intros H. destruct (String.eqb k' k) eqn:E.
  - apply String.eqb_eq in E. tauto.
  - f_equal. apply IH. tauto.
Qed.

Lemma od_of_pairs_distinct {V} (pairs : list (string * V)) :
  NoDup (map fst pairs) -> OrderedDict.of_pairs pairs = pairs.
Proof.
  unfold OrderedDict.of_pairs.
  assert (H : forall acc,
             NoDup (map fst (acc ++ pairs)) ->
             fold_left (fun d kv => OrderedDict.set d (fst kv) (snd kv)) pairs acc
             = (acc ++ pairs)%list).
  { induction pairs as [|[k v] pairs IH]; intros acc Hnd; simpl.
    - rewrite app_nil_r. reflexivity.
    - rewrite od_set_not_in.
      + rewrite IH; rewrite <- app_assoc; [reflexivity|exact Hnd].
      + rewrite map_app in Hnd. simpl in Hnd. apply NoDup_remove_2 in Hnd.
        intros Hin. apply Hnd. apply in_or_app. left. exact Hin. }
  intros Hnd. apply (H []). exact Hnd.
Qed.

(** ** make_umi_list: the universe of UMIs *)

Lemma in_alphabet_chars (c : ascii) :
  In c (list_ascii_of_string umi_data.alphabet) <-> in_alphabet c.
Proof.
  unfold in_alphabet. simpl. intuition (subst; auto; try discriminate).
Qed.

Lemma make_umi_list_in (n : nat) (s : string) :
  In s (umi_data.make_umi_list n umi_data.alphabet)
  <-> String.length s = n /\ over_alphabet s.
Proof.
  revert s. induction n as [|n IH]; intros s.
  - simpl. split.
    + intros [<-|[]]. simpl. unfold over_alphabet. simpl. auto.
    + intros [Hlen _]. destruct s; [left; reflexivity|discriminate].
  - cbn [umi_data.make_umi_list]. rewrite in_flat_map. split.
    + intros [a [Ha Hs]]. apply in_map_iff in Hs. destruct Hs as [t [<- Ht]].
      apply IH in Ht. destruct Ht as [Hlen Hover].
      apply in_alphabet_chars in Ha.
      simpl. split; [congruence|]. split; assumption.
    + intros [Hlen Hover]. destruct s as [|a t]; [discriminate|].
      simpl in Hlen. destruct Hover as [Ha Ht].
      exists a. split; [apply in_alphabet_chars; exact Ha|].
      apply in_map. apply IH. split; [congruence|exact Ht].
Qed.

Lemma NoDup_flat_map {A B} (f : A -> list B) (l : list A) :
  NoDup l ->
  (forall a, In a l -> NoDup (f a)) ->
  (forall a b x, In a l -> In b l -> In x (f a) -> In x (f b) -> a = b) ->
  NoDup (flat_map f l).
Proof.
  induction 1 as [|a l Ha Hl IH]; intros Hf Hdisj; simpl; [constructor|].
  apply NoDup_app.
  - apply Hf. left. reflexivity.
  - apply IH.
    + intros b Hb. apply Hf. right. exact Hb.
    + intros b c x Hb Hc. apply Hdisj; right; assumption.
  - intros x Hx Hin. apply in_flat_map in Hin. destruct Hin as [b [Hb Hxb]].
    assert (a = b) by (apply (Hdisj a b x); [left; reflexivity|right; exact Hb| |]; assumption).
    subst b. tauto.
Qed.

Lemma make_umi_list_NoDup (n : nat) : NoDup (umi_data.make_umi_list n umi_data.alphabet).
Proof.
  induction n as [|n IH]; cbn [umi_data.make_umi_list].
  - repeat constructor. simpl. tauto.
  - apply NoDup_flat_map.
    + simpl. repeat constructor; simpl; intuition discriminate.
    + intros a _. apply Finite.Injective_map_NoDup_in; [|exact IH].
      intros x y _ _ H. inversion H. reflexivity.
    + intros a b x _ _ Ha Hb.
      apply in_map_iff in Ha. destruct Ha as [t [<- _]].
      apply in_map_iff in Hb. destruct Hb as [t' [E _]].
      inversion E. reflexivity.
Qed.

Lemma make_umi_list_length (n : nat) :
  List.length (umi_data.make_umi_list n umi_data.alphabet) = (4 ^ n)%nat.
Proof.
  induction n as [|n IH]; [reflexivity|].
  cbn [umi_data.make_umi_list]. simpl flat_map.
  rewrite !length_app, !length_map, IH. simpl. lia.
Qed.

(** X1: [make_umi_list(n)] lists exactly the strings of length [n] over
    A, C, G, T, each one once: [4^n] strings. *)
Theorem make_umi_list_universe (n : nat) :
  (forall s, In s (umi_data.make_umi_list n umi_data.alphabet)
             <-> String.length s = n /\ over_alphabet s)
  /\ NoDup (umi_data.make_umi_list n umi_data.alphabet)
  /\ List.length (umi_data.make_umi_list n umi_data.alphabet) = (4 ^ n)%nat.
Proof.
  split; [intros s; apply make_umi_list_in|].
  split; [apply make_umi_list_NoDup|apply make_umi_list_length].
Qed.

Lemma over_alphabet_good (umi : string) :
  over_alphabet umi -> umi_data.umi_is_good umi = true.
Proof.
  intros H. unfold umi_data.umi_is_good.
  replace (Str.search_not_in umi_data.re_exclusion umi) with (@None nat); [reflexivity|].
  symmetry. apply search_not_in_none.
  revert H. apply string_forall_impl. auto.
Qed.

(** X2: every UMI of the universe passes [umi_is_good], and a UMI with
    the pair separator, which [umi_is_good] also accepts, is in no
    universe. *)
Theorem universe_is_good (n : nat) (umi : string) :
  (In umi (umi_data.make_umi_list n umi_data.alphabet) -> umi_data.umi_is_good umi = true)
  /\ (Str.contains umi "+" = true ->
      ~ In umi (umi_data.make_umi_list n umi_data.alphabet)).
Proof.
  split.
  - intros H. apply make_umi_list_in in H. apply over_alphabet_good. apply H.
  - intros Hplus Hin. apply make_umi_list_in in Hin. destruct Hin as [_ Hover].
    clear n. induction umi as [|a umi IH]; simpl in Hplus; [discriminate|].
    destruct Hover as [Ha Hrest].
    apply orb_true_iff in Hplus. destruct Hplus as [E|E].
    + apply Ascii.eqb_eq in E. subst a.
      destruct Ha as [H|[H|[H|H]]]; discriminate.
    + apply IH; assumption.
Qed.

Lemma universe_is_good_witness :
  umi_data.umi_is_good "GATC" = true.
Proof.
  apply (proj1 (universe_is_good 4 "GATC")).
  vm_compute. tauto.
Defined.

(** ** make_umi_counts *)

(** X3: for a list of distinct UMIs, [make_umi_counts] without counts
    holds one entry per UMI, in the order of the list, each with count
    0; with counts it pairs the UMIs with them, as far as the shorter of
    the two lists goes. *)
Theorem make_umi_counts_entries (umi_list : list string) (counts : list Z) :
  NoDup umi_list ->
  umi_data.make_umi_counts umi_list None = map (fun umi => (umi, 0)) umi_list
  /\ umi_data.make_umi_counts umi_list (Some counts) = combine umi_list counts.
Proof.
  intros Hnd. unfold umi_data.make_umi_counts. split.
  - apply od_of_pairs_distinct. rewrite map_map. simpl. rewrite map_id. exact Hnd.
  - apply od_of_pairs_distinct.
    revert counts. induction Hnd as [|u l Hu Hl IH]; intros [|c cs]; simpl; try constructor.
    + intros Hin. apply Hu. apply in_map_iff in Hin. destruct Hin as [[k v] [<- Hkv]].
      apply in_combine_l in Hkv. exact Hkv.
    + apply IH.
Qed.

Lemma make_umi_counts_entries_witness :
  umi_data.make_umi_counts ["AA"; "AC"; "CA"]%string None
  = [("AA", 0); ("AC", 0); ("CA", 0)]%string
  /\ umi_data.make_umi_counts ["AA"; "AC"; "CA"]%string (Some [5; 7])
     = [("AA", 5); ("AC", 7)]%string.
Proof.
  apply (@make_umi_counts_entries ["AA"; "AC"; "CA"]%string [5; 7]).
  repeat constructor; simpl; intuition discriminate.
Defined.

(** ** read_umi_counts_from_reads *)

Lemma get_zero_table (l : list string) (u : string) :
  In u l -> OrderedDict.get (map (fun umi => (umi, 0)) l) u = inr 0.
Proof.
  induction l as [|k l IH]; simpl; [contradiction|].
  intros H. destruct (String.eqb k u) eqn:E; [reflexivity|].
  apply String.eqb_neq in E. destruct H; [congruence|]. apply IH. assumption.
Qed.

Lemma get_umi_labels_error (labels : list string) (truncate : option Z) (e : exn) :
  umi_data.get_umi_labels labels truncate = inl e -> e = RuntimeError.
Proof.
  induction labels as [|l rest IH]; simpl.
  - intros H. inversion H. reflexivity.
  - destruct ((Str.count ":" l =? 5) || (Str.count ":" l =? 7)); [discriminate|exact IH].
Qed.

(** One turn of the loop, once the universe is set up: the count of the
    UMI goes up by one when it is a key, and nothing else changes. *)
Lemma count_read_step (truncate : option Z) (d : OrderedDict.t Z) (n : nat)
      (r : parse_sam.read) (u : string) :
  umi_of truncate r = inr u -> String.length u = n ->
  exists d',
    umi_data.count_read truncate (Some d, Some (Z.of_nat n)) r = inr (Some d', Some (Z.of_nat n))
    /\ OrderedDict.keys d' = OrderedDict.keys d
    /\ (forall k c, OrderedDict.get d k = inr c ->
                    OrderedDict.get d' k = inr (c + if String.eqb u k then 1 else 0)).
Proof.
  intros Hu Hlen. unfold umi_of in Hu. unfold umi_data.count_read. rewrite Hu. cbn [bind].
  rewrite Hlen, Z.eqb_refl. cbn [bind ret].
  destruct (in_dec string_dec u (OrderedDict.keys d)) as [Hin|Hout].
  - destruct (od_get_in d u Hin) as [c Hc]. rewrite Hc. cbn [bind catch ret].
    exists (OrderedDict.set d u (c + 1)). split; [reflexivity|].
    split; [apply od_keys_set_in; exact Hin|].
    intros k c' Hk. destruct (String.eqb u k) eqn:E.
    + apply String.eqb_eq in E. subst k. rewrite od_get_set_same. congruence.
    + apply String.eqb_neq in E. rewrite od_get_set_other by exact E.
      rewrite Hk. f_equal. lia.
  - rewrite (od_get_not_in d u Hout). cbn [bind catch exn_eqb ret].
    exists d. split; [reflexivity|]. split; [reflexivity|].
    intros k c Hk. destruct (String.eqb u k) eqn:E.
    + apply String.eqb_eq in E. subst k. rewrite (od_get_not_in d u Hout) in Hk. discriminate.
    + rewrite Hk. f_equal. lia.
Qed.

Lemma count_loop (truncate : option Z) (n : nat) (reads : list parse_sam.read) :
  forall d : OrderedDict.t Z,
    Forall (parses_to_length truncate n) reads ->
    exists d',
      for_in reads (umi_data.count_read truncate) (Some d, Some (Z.of_nat n))
      = inr (Some d', Some (Z.of_nat n))
      /\ OrderedDict.keys d' = OrderedDict.keys d
      /\ (forall k c, OrderedDict.get d k = inr c ->
                      OrderedDict.get d' k = inr (c + len (filter (carries truncate k) reads))).
Proof.
  induction reads as [|r reads IH]; intros d Hall.
  - exists d. split; [reflexivity|]. split; [reflexivity|].
    intros k c Hk. rewrite Hk. f_equal. unfold len. simpl. lia.
  - apply Forall_cons_iff in Hall. destruct Hall as [[u [Hu Hlen]] Hrest].
    destruct (@count_read_step truncate d n r u Hu Hlen) as [d1 [Hstep [Hkeys1 Hget1]]].
    destruct (IH d1 Hrest) as [d' [Hloop [Hkeys Hget]]].
    exists d'. split; [cbn [for_in]; rewrite Hstep; exact Hloop|].
    split; [congruence|].
    intros k c Hk. rewrite (Hget k _ (Hget1 k c Hk)). f_equal.
    cbn [filter]. unfold carries at 2. rewrite Hu.
    destruct (String.eqb u k); unfold len; simpl List.length; lia.
Qed.

Lemma count_read_first (truncate : option Z) (r : parse_sam.read) (u : string) :
  umi_of truncate r = inr u ->
  umi_data.count_read truncate (None, None) r
  = umi_data.count_read truncate
      (Some (umi_data.make_umi_counts
               (umi_data.make_umi_list (String.length u) umi_data.alphabet) None),
       Some (Z.of_nat (String.length u))) r.
Proof.
  intros Hu. unfold umi_of in Hu. unfold umi_data.count_read.
  rewrite Hu. cbn [bind]. rewrite Z.eqb_refl, Nat2Z.id. reflexivity.
Qed.

(** The table built from a non-empty input whose names all parse to
    UMIs of one length. *)
Lemma count_table_of_reads
        (in_file : list parse_sam.read) (truncate : option Z) (n : nat) :
  in_file <> [] ->
  Forall (parses_to_length truncate n) in_file ->
  exists umi_totals,
    umi_data.read_umi_counts_from_reads in_file truncate = inr umi_totals
    /\ OrderedDict.keys umi_totals = umi_data.make_umi_list n umi_data.alphabet
    /\ (forall u, In u (umi_data.make_umi_list n umi_data.alphabet) ->
                  OrderedDict.get umi_totals u
                  = inr (len (filter (carries truncate u) in_file))).
Proof.
  intros Hne Hall. destruct in_file as [|r rest]; [congruence|].
  pose proof Hall as Hall'.
  apply Forall_cons_iff in Hall. destruct Hall as [[u [Hu Hlen]] Hrest]. subst n.
  set (d0 := umi_data.make_umi_counts
               (umi_data.make_umi_list (String.length u) umi_data.alphabet) None).
  destruct (@count_loop truncate (String.length u) (r :: rest) d0 Hall')
    as [d' [Hloop [Hkeys Hget]]].
  assert (Hd0 : d0 = map (fun umi => (umi, 0))
                         (umi_data.make_umi_list (String.length u) umi_data.alphabet)).
  { unfold d0, umi_data.make_umi_counts.
    apply od_of_pairs_distinct. rewrite map_map. simpl. rewrite map_id.
    apply make_umi_list_NoDup. }
  exists d'. split.
  - unfold umi_data.read_umi_counts_from_reads.
    cbn [for_in]. rewrite (@count_read_first truncate r u Hu). fold d0.
    cbn [for_in] in Hloop. rewrite Hloop. reflexivity.
  - split.
    + rewrite Hkeys, Hd0. unfold OrderedDict.keys. rewrite map_map. simpl. apply map_id.
    + intros k Hk. rewrite (Hget k 0); [f_equal; lia|].
      rewrite Hd0. apply get_zero_table. exact Hk.
Qed.


(** X4: when the input is not empty and every name parses to a UMI of
    the same length [n], [read_umi_counts_from_reads] returns a table
    whose keys are the universe [make_umi_list(n)], in its order, and in
    which each UMI of the universe has as count the number of records
    that carry it. *)
Theorem read_umi_counts_from_reads_counts
        (in_file : list parse_sam.read) (truncate : option Z) (n : nat) :
  in_file <> [] ->
  Forall (parses_to_length truncate n) in_file ->
  exists umi_totals,
    umi_data.read_umi_counts_from_reads in_file truncate = inr umi_totals
    /\ OrderedDict.keys umi_totals = umi_data.make_umi_list n umi_data.alphabet
    /\ (forall u, In u (umi_data.make_umi_list n umi_data.alphabet) ->
                  OrderedDict.get umi_totals u
                  = inr (len (filter (carries truncate u) in_file))).
Proof.
  intros Hne Hall. exact (@count_table_of_reads in_file truncate n Hne Hall).
Qed.

Lemma read_umi_counts_from_reads_counts_witness :
  exists umi_totals,
    umi_data.read_umi_counts_from_reads
      [plain_read "M01:7:FC1:1:1101:AC" [30]; qcfail_read "M01:7:FC1:1:1102:AC" [20];
       plain_read "M01:7:FC1:1:1103:G+" [10]] None = inr umi_totals
    /\ OrderedDict.keys umi_totals = umi_data.make_umi_list 2 umi_data.alphabet
    /\ (forall u, In u (umi_data.make_umi_list 2 umi_data.alphabet) ->
                  OrderedDict.get umi_totals u
                  = inr (len (filter (carries None u)
                                [plain_read "M01:7:FC1:1:1101:AC" [30];
                                 qcfail_read "M01:7:FC1:1:1102:AC" [20];
                                 plain_read "M01:7:FC1:1:1103:G+" [10]]))).
Proof.
  apply (@read_umi_counts_from_reads_counts
           [plain_read "M01:7:FC1:1:1101:AC" [30]; qcfail_read "M01:7:FC1:1:1102:AC" [20];
            plain_read "M01:7:FC1:1:1103:G+" [10]] None 2).
  - discriminate.
  - repeat constructor; eexists; split; reflexivity.
Defined.

Lemma od_get_error {V} (d : OrderedDict.t V) (k : string) (e : exn) :
  OrderedDict.get d k = inl e -> e = KeyError.
Proof.
  induction d as [|[k' v] d IH]; simpl.
  - intros H. inversion H. reflexivity.
  - destruct (String.eqb k' k); [discriminate|exact IH].
Qed.

(** What one turn of the loop can do from a state in which the table
    and the length are both unset or both set. *)
Lemma count_read_cases (truncate : option Z) (st : option (OrderedDict.t Z) * option Z)
      (r : parse_sam.read) :
  (st = (None, None) \/ exists d l, st = (Some d, Some l)) ->
  match umi_data.count_read truncate st r with
  | inl e => e = RuntimeError
  | inr st' =>
      exists u d' l',
        umi_of truncate r = inr u
        /\ st' = (Some d', Some l')
        /\ l' = Z.of_nat (String.length u)
        /\ (forall d l, st = (Some d, Some l) -> l = l')
  end.
Proof.
  intros Hst. unfold umi_data.count_read, umi_of, umi_data.get_umi.
  destruct st as [umi_totals umi_length].
  destruct (umi_data.get_umi_labels (firstn 2 (Str.split " " (parse_sam.query_name r))) truncate)
    as [e|u] eqn:Eu; cbn [bind].
  - apply get_umi_labels_error in Eu. exact Eu.
  - destruct Hst as [Hst|[d [l Hst]]]; inversion Hst; subst; cbn [bind ret].
    + match goal with |- context [OrderedDict.get ?t u] =>
        destruct (OrderedDict.get t u) as [e|c] eqn:Eg;
        [apply od_get_error in Eg; subst e|] end; cbn [bind catch exn_eqb ret];
        (exists u; do 2 eexists; repeat split; intros; discriminate).
    + destruct (Z.of_nat (String.length u) =? l) eqn:El; cbn [bind ret raise];
        [|reflexivity].
      apply Z.eqb_eq in El.
      destruct (OrderedDict.get d u) as [e|c] eqn:Eg;
        [apply od_get_error in Eg; subst e|]; cbn [bind catch exn_eqb ret];
        (exists u; do 2 eexists; repeat split; [symmetry; exact El|];
         intros d1 l1 H1; inversion H1; subst; reflexivity).
Qed.

Lemma count_loop_cases (truncate : option Z) (reads : list parse_sam.read) :
  forall d l,
    match for_in reads (umi_data.count_read truncate) (Some d, Some l) with
    | inl e => e = RuntimeError
    | inr st =>
        (exists d', st = (Some d', Some l))
        /\ Forall (fun r => exists u, umi_of truncate r = inr u
                                      /\ Z.of_nat (String.length u) = l) reads
    end.
Proof.
  induction reads as [|r reads IH]; intros d l; cbn [for_in ret].
  - split; [exists d; reflexivity|constructor].
  - pose proof (@count_read_cases truncate (Some d, Some l) r) as Hstep.
    destruct (umi_data.count_read truncate (Some d, Some l) r) as [e|st']; cbn [bind].
    + apply Hstep. right. eexists. eexists. reflexivity.
    + destruct Hstep as [u [d' [l' [Hu [-> [Hl' Hsame]]]]]];
        [right; eexists; eexists; reflexivity|].
      specialize (Hsame d l eq_refl). subst l.
      specialize (IH d' l').
      destruct (for_in reads (umi_data.count_read truncate) (Some d', Some l')) as [e|st''];
        [exact IH|].
      destruct IH as [Hst Hall]. split; [exact Hst|].
      constructor; [|exact Hall]. exists u. split; [exact Hu|symmetry; exact Hl'].
Qed.

(** X5: [read_umi_counts_from_reads] returns a table exactly when the
    input is not empty, every name parses and all the UMIs have the same
    length; in every other case it raises [RuntimeError], and nothing
    else. *)
Theorem read_umi_counts_from_reads_returns_iff
        (in_file : list parse_sam.read) (truncate : option Z) :
  ((exists umi_totals, umi_data.read_umi_counts_from_reads in_file truncate = inr umi_totals)
   <-> in_file <> [] /\ exists n, Forall (parses_to_length truncate n) in_file)
  /\ (forall e, umi_data.read_umi_counts_from_reads in_file truncate = inl e ->
                e = RuntimeError).
Proof.
  assert (Hcases :
            match umi_data.read_umi_counts_from_reads in_file truncate with
            | inl e => e = RuntimeError
            | inr _ => in_file <> [] /\ exists n, Forall (parses_to_length truncate n) in_file
            end).
  { unfold umi_data.read_umi_counts_from_reads.
    destruct in_file as [|r rest]; [reflexivity|].
    cbn [for_in].
    pose proof (@count_read_cases truncate (None, None) r (or_introl eq_refl)) as Hstep.
    destruct (umi_data.count_read truncate (None, None) r) as [e|st']; cbn [bind];
      [exact Hstep|].
    destruct Hstep as [u [d' [l' [Hu [-> [Hl' _]]]]]].
    pose proof (@count_loop_cases truncate rest d' l') as Hloop.
    destruct (for_in rest (umi_data.count_read truncate) (Some d', Some l')) as [e|st''];
      cbn [bind]; [exact Hloop|].
    destruct Hloop as [[d'' ->] Hloop]. cbn [fst ret].
    split; [discriminate|]. exists (String.length u).
    constructor; [exists u; split; [exact Hu|reflexivity]|].
    eapply Forall_impl; [|exact Hloop]. simpl.
    intros r' [u' [Hu' Hlen']]. exists u'. split; [exact Hu'|]. lia. }
  split; [split|].
  - intros [t Ht]. rewrite Ht in Hcases. exact Hcases.
  - intros [Hne [n Hall]].
    destruct (@count_table_of_reads in_file truncate n Hne Hall) as [t [Ht _]].
    exists t. exact Ht.
  - intros e He. rewrite He in Hcases. exact Hcases.
Qed.

Lemma read_umi_counts_from_reads_returns_iff_witness :
  exists umi_totals,
    umi_data.read_umi_counts_from_reads
      [plain_read "M01:7:FC1:1:1101:AC" [30]; plain_read "M01:7:FC1:1:1102:GT" [20]] None
    = inr umi_totals.
Proof.
  apply (proj2 (proj1 (read_umi_counts_from_reads_returns_iff
                         [plain_read "M01:7:FC1:1:1101:AC" [30];
                          plain_read "M01:7:FC1:1:1102:GT" [20]] None))).
  split; [discriminate|].
  exists 2%nat. repeat constructor; eexists; split; reflexivity.
Defined.

(** ** dedup.py: the two counts of usable reads *)

Lemma od_sum_set (d : OrderedDict.t Z) (u : string) (c v : Z) :
  OrderedDict.get d u = inr c ->
  py_sum (OrderedDict.values (OrderedDict.set d u v)) = py_sum (OrderedDict.values d) - c + v.
Proof.
  unfold OrderedDict.values.
  induction d as [|[k x] d IH]; cbn [OrderedDict.get OrderedDict.set]; [discriminate|].
  destruct (String.eqb k u); cbn [map snd]; rewrite !py_sum_cons; intros H.
  - inversion H; subst. lia.
  - rewrite IH by exact H. lia.
Qed.

Lemma sum_zero_table (l : list string) :
  py_sum (OrderedDict.values (map (fun umi => (umi, 0)) l)) = 0.
Proof.
  unfold OrderedDict.values.
  induction l as [|k l IH]; [reflexivity|].
  cbn [map snd]. rewrite py_sum_cons, IH. reflexivity.
Qed.

Lemma contains_alphabet (a : ascii) :
  Str.contains umi_data.alphabet a = true <-> in_alphabet a.
Proof.
  unfold in_alphabet, umi_data.alphabet. cbn [Str.contains].
  rewrite !orb_true_iff, !Ascii.eqb_eq. intuition (try discriminate; auto).
Qed.

Lemma over_alphabetb_spec (s : string) : over_alphabetb s = true <-> over_alphabet s.
Proof.
  unfold over_alphabetb, over_alphabet.
  induction s as [|a s IH]; cbn [Str.search_not_in string_forall]; [tauto|].
  pose proof (contains_alphabet a) as Ha.
  destruct (Str.contains umi_data.alphabet a).
  - destruct (Str.search_not_in umi_data.alphabet s); cbn [option_map] in *.
    + split; [discriminate|]. intros [_ H]. apply IH in H. discriminate.
    + split; [|reflexivity]. intros _. split; [apply Ha; reflexivity|apply IH; reflexivity].
  - split; [discriminate|]. intros [H _]. apply Ha in H. discriminate.
Qed.

(** One turn of the first pass on the total of the table. *)
Lemma count_read_total (truncate : option Z) (d : OrderedDict.t Z) (n : nat)
      (r : parse_sam.read) (u : string) :
  umi_of truncate r = inr u -> String.length u = n ->
  OrderedDict.keys d = umi_data.make_umi_list n umi_data.alphabet ->
  exists d',
    umi_data.count_read truncate (Some d, Some (Z.of_nat n)) r = inr (Some d', Some (Z.of_nat n))
    /\ OrderedDict.keys d' = OrderedDict.keys d
    /\ py_sum (OrderedDict.values d')
       = py_sum (OrderedDict.values d) + (if over_alphabetb u then 1 else 0).
Proof.
  intros Hu Hlen Hkeys. pose proof Hu as Hu'.
  unfold umi_of in Hu. unfold umi_data.count_read. rewrite Hu. cbn [bind].
  rewrite Hlen, Z.eqb_refl. cbn [bind ret].
  destruct (in_dec string_dec u (OrderedDict.keys d)) as [Hin|Hout].
  - destruct (od_get_in d u Hin) as [c Hc]. rewrite Hc. cbn [bind catch ret].
    exists (OrderedDict.set d u (c + 1)). split; [reflexivity|].
    split; [apply od_keys_set_in; exact Hin|].
    rewrite (od_sum_set d u (c + 1) Hc).
    rewrite Hkeys in Hin. apply make_umi_list_in in Hin. destruct Hin as [_ Hover].
    apply over_alphabetb_spec in Hover. rewrite Hover. lia.
  - rewrite (od_get_not_in d u Hout). cbn [bind catch exn_eqb ret].
    exists d. split; [reflexivity|]. split; [reflexivity|].
    destruct (over_alphabetb u) eqn:E; [|lia].
    exfalso. apply Hout. rewrite Hkeys. apply make_umi_list_in.
    split; [exact Hlen|apply over_alphabetb_spec; exact E].
Qed.

Lemma count_loop_total (truncate : option Z) (n : nat) (reads : list parse_sam.read) :
  forall d : OrderedDict.t Z,
    OrderedDict.keys d = umi_data.make_umi_list n umi_data.alphabet ->
    Forall (parses_to_length truncate n) reads ->
    exists d',
      for_in reads (umi_data.count_read truncate) (Some d, Some (Z.of_nat n))
      = inr (Some d', Some (Z.of_nat n))
      /\ py_sum (OrderedDict.values d')
         = py_sum (OrderedDict.values d)
           + len (filter (counted_by_first_pass truncate) reads).
Proof.
  induction reads as [|r reads IH]; intros d Hkeys Hall.
  - exists d. split; [reflexivity|]. unfold len. simpl. lia.
  - apply Forall_cons_iff in Hall. destruct Hall as [[u [Hu Hlen]] Hrest].
    destruct (@count_read_total truncate d n r u Hu Hlen Hkeys) as [d1 [Hstep [Hkeys1 Hsum1]]].
    destruct (IH d1 (eq_trans Hkeys1 Hkeys) Hrest) as [d' [Hloop Hsum]].
    exists d'. split; [cbn [for_in]; rewrite Hstep; exact Hloop|].
    rewrite Hsum, Hsum1. cbn [filter]. unfold counted_by_first_pass at 2. rewrite Hu.
    destruct (over_alphabetb u); unfold len; simpl List.length; lia.
Qed.

Lemma first_pass_total (in_file : list parse_sam.read) (truncate : option Z) (n : nat) :
  in_file <> [] ->
  Forall (parses_to_length truncate n) in_file ->
  exists umi_totals,
    umi_data.read_umi_counts_from_reads in_file truncate = inr umi_totals
    /\ py_sum (OrderedDict.values umi_totals)
       = len (filter (counted_by_first_pass truncate) in_file).
Proof.
  intros Hne Hall. destruct in_file as [|r rest]; [congruence|].
  pose proof Hall as Hall'.
  apply Forall_cons_iff in Hall. destruct Hall as [[u [Hu Hlen]] Hrest]. subst n.
  set (d0 := umi_data.make_umi_counts
               (umi_data.make_umi_list (String.length u) umi_data.alphabet) None).
  assert (Hd0 : d0 = map (fun umi => (umi, 0))
                         (umi_data.make_umi_list (String.length u) umi_data.alphabet)).
  { unfold d0, umi_data.make_umi_counts.
    apply od_of_pairs_distinct. rewrite map_map. simpl. rewrite map_id.
    apply make_umi_list_NoDup. }
  destruct (@count_loop_total truncate (String.length u) (r :: rest) d0) as [d' [Hloop Hsum]].
  { rewrite Hd0. unfold OrderedDict.keys. rewrite map_map. simpl. apply map_id. }
  { exact Hall'. }
  exists d'. split.
  - unfold umi_data.read_umi_counts_from_reads.
    cbn [for_in]. rewrite (@count_read_first truncate r u Hu). fold d0.
    cbn [for_in] in Hloop. rewrite Hloop. reflexivity.
  - rewrite Hsum, Hd0, sum_zero_table. lia.
Qed.

(** X6: on a non-empty input whose names all parse to UMIs of one
    length, the table of the first pass sums to the number of records
    whose UMI is over A, C, G, T: the figure that [dedup.py] reports as
    usable alignments counts every such record, usable or not, and no
    record with a paired UMI. *)
Theorem first_pass_counts_unfiltered_reads (in_bam : list parse_sam.read) (n : nat) :
  in_bam <> [] ->
  Forall (parses_to_length None n) in_bam ->
  exists umi_totals,
    dedup.first_pass in_bam = inr umi_totals
    /\ py_sum (OrderedDict.values umi_totals)
       = len (filter (counted_by_first_pass None) in_bam).
Proof.
  intros Hne Hall. exact (@first_pass_total in_bam None n Hne Hall).
Qed.

Lemma first_pass_counts_unfiltered_reads_witness :
  exists umi_totals,
    dedup.first_pass
      [plain_read "M01:7:FC1:1:1101:AC" [30]; qcfail_read "M01:7:FC1:1:1102:AC" [20];
       plain_read "M01:7:FC1:1:1103:G+" [10]] = inr umi_totals
    /\ py_sum (OrderedDict.values umi_totals)
       = len (filter (counted_by_first_pass None)
                [plain_read "M01:7:FC1:1:1101:AC" [30]; qcfail_read "M01:7:FC1:1:1102:AC" [20];
                 plain_read "M01:7:FC1:1:1103:G+" [10]]).
Proof.
  apply (@first_pass_counts_unfiltered_reads
           [plain_read "M01:7:FC1:1:1101:AC" [30]; qcfail_read "M01:7:FC1:1:1102:AC" [20];
            plain_read "M01:7:FC1:1:1103:G+" [10]] 2).
  - discriminate.
  - repeat constructor; eexists; split; reflexivity.
Defined.

(** Whether [read_umi_counts_from_reads] returns. *)
Lemma read_counts_return_cases (in_file : list parse_sam.read) (truncate : option Z) :
  match umi_data.read_umi_counts_from_reads in_file truncate with
  | inl e => e = RuntimeError
  | inr _ => in_file <> [] /\ exists n, Forall (parses_to_length truncate n) in_file
  end.
Proof.
  unfold umi_data.read_umi_counts_from_reads.
  destruct in_file as [|r rest]; [reflexivity|].
  cbn [for_in].
  pose proof (@count_read_cases truncate (None, None) r (or_introl eq_refl)) as Hstep.
  destruct (umi_data.count_read truncate (None, None) r) as [e|st']; cbn [bind];
    [exact Hstep|].
  destruct Hstep as [u [d' [l' [Hu [-> [Hl' _]]]]]].
  pose proof (@count_loop_cases truncate rest d' l') as Hloop.
  destruct (for_in rest (umi_data.count_read truncate) (Some d', Some l')) as [e|st''];
    cbn [bind]; [exact Hloop|].
  destruct Hloop as [[d'' ->] Hloop]. cbn [fst ret].
  split; [discriminate|]. exists (String.length u).
  constructor; [exists u; split; [exact Hu|reflexivity]|].
  eapply Forall_impl; [|exact Hloop]. simpl.
  intros r' [u' [Hu' Hlen']]. exists u'. split; [exact Hu'|]. lia.
Qed.

Section RunFacts.

Variables world position : Type.
Variable get_start_pos : parse_sam.read -> result position.
Variable advance_and_track :
  OrderedDict.t Z -> world -> parse_sam.read -> string -> position -> result world.
Variable flush_buffer : OrderedDict.t Z -> world -> result world.

Lemma second_pass_body_counter (umi_totals : OrderedDict.t Z) (st : Z * world)
      (r : parse_sam.read) :
  match dedup.second_pass_body get_start_pos advance_and_track umi_totals st r with
  | inr st' => fst st' = fst st + (if counted_by_second_pass r then 1 else 0)
  | inl _ => True
  end.
Proof.
  unfold dedup.second_pass_body, counted_by_second_pass, umi_of.
  destruct (parse_sam.read_is_good r); cbn [negb andb ret]; [|lia].
  destruct (umi_data.get_umi (parse_sam.query_name r) None) as [e|u]; cbn [bind]; [exact I|].
  destruct (umi_data.umi_is_good u); cbn [negb ret]; [|lia].
  destruct (get_start_pos (parse_sam.set_is_duplicate false r)) as [e|p]; cbn [bind];
    [exact I|].
  match goal with |- context [advance_and_track ?a ?b ?c ?d ?e] =>
    destruct (advance_and_track a b c d e) as [e0|w] end; cbn [bind ret fst]; [exact I|lia].
Qed.

Lemma second_pass_counter (umi_totals : OrderedDict.t Z) (reads : list parse_sam.read) :
  forall st : Z * world,
    match for_in reads (dedup.second_pass_body get_start_pos advance_and_track umi_totals) st with
    | inr st' => fst st' = fst st + len (filter counted_by_second_pass reads)
    | inl _ => True
    end.
Proof.
  induction reads as [|r reads IH]; intros st; cbn [for_in ret].
  - unfold len. simpl. lia.
  - pose proof (second_pass_body_counter umi_totals st r) as Hstep.
    destruct (dedup.second_pass_body get_start_pos advance_and_track umi_totals st r)
      as [e|st1]; cbn [bind]; [exact I|].
    specialize (IH st1).
    destruct (for_in reads (dedup.second_pass_body get_start_pos advance_and_track umi_totals)
                st1) as [e|st']; [exact I|].
    rewrite IH, Hstep. cbn [filter].
    destruct (counted_by_second_pass r); unfold len; simpl List.length; lia.
Qed.

Lemma second_pass_completes (umi_totals : OrderedDict.t Z) (reads : list parse_sam.read) :
  (forall r, exists p, get_start_pos r = inr p) ->
  (forall t w r u p, exists w', advance_and_track t w r u p = inr w') ->
  Forall (fun r => parse_sam.read_is_good r = true -> exists u, umi_of None r = inr u) reads ->
  forall st : Z * world,
  exists st',
    for_in reads (dedup.second_pass_body get_start_pos advance_and_track umi_totals) st
    = inr st'.
Proof.
  intros Hpos Htrack. induction 1 as [|r reads Hr _ IH]; intros st; cbn [for_in].
  - eexists. reflexivity.
  - assert (Hstep : exists st1,
               dedup.second_pass_body get_start_pos advance_and_track umi_totals st r
               = inr st1).
    { unfold dedup.second_pass_body.
      destruct (parse_sam.read_is_good r); cbn [negb]; [|eexists; reflexivity].
      destruct (Hr eq_refl) as [u Hu]. unfold umi_of in Hu. rewrite Hu. cbn [bind].
      destruct (umi_data.umi_is_good u); cbn [negb]; [|eexists; reflexivity].
      destruct (Hpos (parse_sam.set_is_duplicate false r)) as [p Hp]. rewrite Hp. cbn [bind].
      destruct (Htrack umi_totals (snd st) (parse_sam.set_is_duplicate false r) u p)
        as [w Hw].
      rewrite Hw. cbn [bind]. eexists. reflexivity. }
    destruct Hstep as [st1 Hst1]. rewrite Hst1. cbn [bind]. apply IH.
Qed.

(** X7: whatever the window, the tracker, [pop_buffer] and the modules
    outside the sources do, when the second pass of [dedup.py] gets to
    the end of the input, [read_counter['read']] holds the number of
    usable records whose UMI passes [umi_is_good]: no other line assigns
    it.  The pass does get there when the name of every usable record
    parses and that outside code does not raise. *)
Theorem second_pass_counts_usable_reads
        (umi_totals : OrderedDict.t Z) (in_bam : list parse_sam.read) (w0 : world) :
  (forall st,
      for_in in_bam (dedup.second_pass_body get_start_pos advance_and_track umi_totals) (0, w0)
      = inr st ->
      fst st = len (filter counted_by_second_pass in_bam))
  /\ ((forall r, exists p, get_start_pos r = inr p) ->
      (forall t w r u p, exists w', advance_and_track t w r u p = inr w') ->
      Forall (fun r => parse_sam.read_is_good r = true -> exists u, umi_of None r = inr u)
             in_bam ->
      exists w,
        for_in in_bam (dedup.second_pass_body get_start_pos advance_and_track umi_totals)
               (0, w0)
        = inr (len (filter counted_by_second_pass in_bam), w)).
Proof.
  pose proof (second_pass_counter umi_totals in_bam (0, w0)) as Hcount.
  split.
  - intros st Hst. rewrite Hst in Hcount. cbn [fst] in Hcount. lia.
  - intros Hpos Htrack Hall.
    destruct (second_pass_completes umi_totals Hpos Htrack Hall (0, w0)) as [[c w] Hst].
    rewrite Hst in Hcount. cbn [fst] in Hcount.
    exists w. rewrite Hst. f_equal. f_equal. lia.
Qed.

(** X8: when a run of [dedup.py] without [--umi_table] gets to its final
    assertion (the first pass, the second pass and the flush have
    returned), the assertion holds exactly when as many records have a
    UMI over A, C, G, T as there are usable records with a UMI that
    passes [umi_is_good], and fails with [AssertionError] otherwise,
    whatever the code outside the sources did on the way. *)
Theorem summary_assertion_holds_iff
        (in_bam : list parse_sam.read) (w0 : world)
        (umi_totals : OrderedDict.t Z) (st : Z * world) (w : world) :
  dedup.first_pass in_bam = inr umi_totals ->
  for_in in_bam (dedup.second_pass_body get_start_pos advance_and_track umi_totals) (0, w0)
  = inr st ->
  flush_buffer umi_totals (snd st) = inr w ->
  (dedup.run_without_table get_start_pos advance_and_track flush_buffer in_bam w0 = inr tt
   <-> len (filter (counted_by_first_pass None) in_bam)
       = len (filter counted_by_second_pass in_bam))
  /\ (dedup.run_without_table get_start_pos advance_and_track flush_buffer in_bam w0 <> inr tt ->
      dedup.run_without_table get_start_pos advance_and_track flush_buffer in_bam w0
      = inl AssertionError).
Proof.
  intros Hfirst Hsecond Hflush.
  pose proof (read_counts_return_cases in_bam None) as Hcases.
  unfold dedup.first_pass in Hfirst. rewrite Hfirst in Hcases.
  destruct Hcases as [Hne [n Hall]].
  destruct (@first_pass_total in_bam None n Hne Hall) as [t [Ht Hsum]].
  assert (t = umi_totals) by congruence. subst t.
  pose proof (second_pass_counter umi_totals in_bam (0, w0)) as Hcount.
  rewrite Hsecond in Hcount. cbn [fst] in Hcount.
  assert (Heq : dedup.run_without_table get_start_pos advance_and_track flush_buffer in_bam w0
                = assert (len (filter (counted_by_first_pass None) in_bam)
                          =? len (filter counted_by_second_pass in_bam))).
  { unfold dedup.run_without_table, dedup.first_pass.
    rewrite Hfirst. cbn [bind]. rewrite Hsecond. cbn [bind]. rewrite Hflush. cbn [bind].
    rewrite Hsum, Hcount. reflexivity. }
  rewrite Heq. unfold assert.
  destruct (Z.eqb_spec (len (filter (counted_by_first_pass None) in_bam))
                       (len (filter counted_by_second_pass in_bam))) as [E|E].
  - split; [split; [intros _; exact E|reflexivity]|].
    intros H. exfalso. apply H. reflexivity.
  - split; [split; [discriminate|contradiction]|].
    intros _. reflexivity.
Qed.

End RunFacts.

Lemma second_pass_counts_usable_reads_witness :
  exists w,
    for_in [plain_read "M01:7:FC1:1:1101:AC" [30]; qcfail_read "not a read name" [20];
            plain_read "M01:7:FC1:1:1103:G+" [10]; plain_read "M01:7:FC1:1:1104:GN" [10]]
           (dedup.second_pass_body (fun _ => inr tt) (fun _ _ _ _ _ => inr tt) []) (0, tt)
    = inr (len (filter counted_by_second_pass
                  [plain_read "M01:7:FC1:1:1101:AC" [30]; qcfail_read "not a read name" [20];
                   plain_read "M01:7:FC1:1:1103:G+" [10];
                   plain_read "M01:7:FC1:1:1104:GN" [10]]), w).
Proof.
  apply (proj2 (@second_pass_counts_usable_reads unit unit
                  (fun _ => inr tt) (fun _ _ _ _ _ => inr tt) []
                  [plain_read "M01:7:FC1:1:1101:AC" [30]; qcfail_read "not a read name" [20];
                   plain_read "M01:7:FC1:1:1103:G+" [10];
                   plain_read "M01:7:FC1:1:1104:GN" [10]] tt)).
  - intros r. exists tt. reflexivity.
  - intros t w r u p. exists tt. reflexivity.
  - repeat constructor; intros H; try discriminate H; eexists; reflexivity.
Defined.

Lemma summary_assertion_holds_iff_witness :
  dedup.run_without_table (fun _ => inr tt) (fun _ _ _ _ _ => inr tt) (fun _ _ => inr tt)
    [plain_read "M01:7:FC1:1:1101:AC" [30]; plain_read "M01:7:FC1:1:1102:GT" [20]] tt
  = inr tt.
Proof.
  refine (proj2 (proj1 (@summary_assertion_holds_iff unit unit
                          (fun _ => inr tt) (fun _ _ _ _ _ => inr tt) (fun _ _ => inr tt)
                          [plain_read "M01:7:FC1:1:1101:AC" [30];
                           plain_read "M01:7:FC1:1:1102:GT" [20]] tt
                          (map (fun umi => (umi, if String.eqb umi "AC" then 1
                                                 else if String.eqb umi "GT" then 1 else 0))
                               (umi_data.make_umi_list 2 umi_data.alphabet))
                          (2, tt) tt _ _ _)) _).
  - vm_compute. reflexivity.
  - vm_compute. reflexivity.
  - reflexivity.
  - reflexivity.
Defined.

Example run_without_table_fails :
  dedup.run_without_table (fun _ => inr tt) (fun _ _ _ _ _ => inr tt) (fun _ _ => inr tt)
    [qcfail_read "M01:7:FC1:1:1101:AC" [30]; plain_read "M01:7:FC1:1:1102:GT" [20]] tt
  = inl AssertionError.
Proof. vm_compute. reflexivity. Qed.

(** ** apportion_counts outside the range of the targets it can meet *)

Lemma n_positive_le_sum (counts : list Z) :
  Forall (fun c => 0 <= c) counts -> n_positive counts <= py_sum counts.
Proof.
  unfold n_positive, len.
  induction 1 as [|c counts Hc _ IH]; [rewrite py_sum_nil; simpl; lia|].
  rewrite py_sum_cons. cbn [filter].
  destruct (0 <? c) eqn:E; simpl List.length; [apply Z.ltb_lt in E|]; lia.
Qed.

(** The general case: any target in [1, 2^53). *)
Lemma apportion_counts_general (counts : list Z) (target_sum : Z) :
  Forall (fun c => 0 <= c) counts ->
  Exists (fun c => 0 < c) counts ->
  py_sum counts < 2 ^ 53 ->
  1 <= target_sum < 2 ^ 53 ->
  exists r,
    bayes_estimate.apportion_counts counts target_sum = inr r
    /\ List.length r = List.length counts
    /\ py_sum r = Z.max target_sum (n_positive counts)
    /\ (forall i c x, nth_error counts i = Some c -> nth_error r i = Some x ->
                      (if 0 <? c then 1 else 0) <= x)
    /\ (target_sum <= n_positive counts ->
        r = map (fun c => if 0 <? c then 1 else 0) counts).
Proof.
  intros Hnonneg Hpos Hsmall Htarget.
  pose proof (n_positive_ge_1 Hpos) as Hn.
  pose proof (n_positive_le_sum Hnonneg) as Hle.
  destruct (@float_quotient_defined target_sum (py_sum counts)) as [d [Hd Hnz]]; [lia|lia|].
  assert (Hsum : py_sum counts < float_int_limit).
  { apply Z.lt_trans with (2 ^ 53); [exact Hsmall|reflexivity]. }
  destruct (residuals_defined Hnz Hsum (py_sum_bounds_items Hnonneg)) as [res Hres].
  unfold bayes_estimate.apportion_counts, bayes_estimate.divisor_of.
  rewrite Hd. cbn [bind]. rewrite Hres. cbn [bind].
  set (seed := map (fun count => if 0 <? count then 1 else 0) counts).
  destruct (@increment_loop_spec (Z.to_nat (target_sum - py_sum seed)) seed res)
    as [r [Hr [Hlen [Hs Hge]]]].
  - apply for_each_length in Hres. rewrite Hres, length_combine.
    unfold seed. rewrite length_map. apply Nat.min_id.
  - intros _ Hnil. unfold seed in Hnil. apply map_eq_nil in Hnil. subst counts.
    inversion Hpos.
  - exists r. split; [exact Hr|]. split; [rewrite Hlen; apply length_map|].
    split; [rewrite Hs; unfold seed; rewrite py_sum_seed; lia|].
    split.
    + intros i c x Hc Hx.
      destruct (Hge i (if 0 <? c then 1 else 0)) as [x' [Hx' Hle']].
      { unfold seed. apply map_nth_error with (f := fun count => if 0 <? count then 1 else 0).
        exact Hc. }
      assert (x' = x) by congruence. subst x'. exact Hle'.
    + intros Hlow. unfold seed in Hr. rewrite py_sum_seed in Hr.
      replace (Z.to_nat (target_sum - n_positive counts)) with O in Hr by lia.
      cbn [bayes_estimate.increment_loop ret] in Hr. inversion Hr. reflexivity.
Qed.


(** X9: for non-negative counts with a positive entry and a sum below
    2^53, and every target in [1, 2^53), [apportion_counts] returns; the
    result has the length of [counts], holds at least 1 wherever the count
    is positive, and sums to the greater of the target and the number of
    positive counts.  A target that is not above that number gives
    exactly 1 per positive count and 0 elsewhere; a target above the sum
    of the counts is met as well. *)
Theorem apportion_counts_total (counts : list Z) (target_sum : Z) :
  Forall (fun c => 0 <= c) counts ->
  Exists (fun c => 0 < c) counts ->
  py_sum counts < 2 ^ 53 ->
  1 <= target_sum < 2 ^ 53 ->
  exists r,
    bayes_estimate.apportion_counts counts target_sum = inr r
    /\ List.length r = List.length counts
    /\ py_sum r = Z.max target_sum (n_positive counts)
    /\ (forall i c x, nth_error counts i = Some c -> nth_error r i = Some x ->
                      (if 0 <? c then 1 else 0) <= x)
    /\ (target_sum <= n_positive counts ->
        r = map (fun c => if 0 <? c then 1 else 0) counts).
Proof.
  intros Hnonneg Hpos Hsmall Htarget.
  exact (@apportion_counts_general counts target_sum Hnonneg Hpos Hsmall Htarget).
Qed.

Lemma apportion_counts_total_witness :
  exists r,
    bayes_estimate.apportion_counts [1; 0; 2] 5 = inr r
    /\ List.length r = 3%nat
    /\ py_sum r = Z.max 5 (n_positive [1; 0; 2])
    /\ (forall i c x, nth_error [1; 0; 2] i = Some c -> nth_error r i = Some x ->
                      (if 0 <? c then 1 else 0) <= x)
    /\ (5 <= n_positive [1; 0; 2] ->
        r = map (fun c => if 0 <? c then 1 else 0) [1; 0; 2]).
Proof.
  apply (@apportion_counts_total [1; 0; 2] 5).
  - repeat constructor; lia.
  - apply Exists_cons_hd. lia.
  - reflexivity.
  - split; [lia|reflexivity].
Defined.

Lemma float_zero_quotient (s : Z) :
  1 <= s < 2 ^ 53 ->
  exists d,
    (tf <- float_of_int 0 ;; sf <- float_of_int s ;; float_truediv tf sf) = inr d
    /\ PrimFloat.eqb d PrimFloat.zero = true.
Proof.
  intros Hs.
  destruct (float_div_small_nonzero 1 s ltac:(split; [lia|reflexivity]) Hs) as [Hs0 _].
  rewrite !float_of_int_small by (split; [lia|try reflexivity; lia]). cbn [bind].
  rewrite (float_truediv_defined _ Hs0).
  eexists. split; [reflexivity|].
  rewrite FloatAxioms.eqb_spec, FloatAxioms.div_spec.
  destruct (of_uint63_small s Hs) as [p [e [-> _]]].
  replace (Prim2SF (PrimFloat.of_uint63 (Uint63.of_Z 0))) with (S754_zero false)
    by (vm_compute; reflexivity).
  reflexivity.
Qed.

(** X10: [apportion_counts] raises [ZeroDivisionError] when the counts
    sum to zero (for every target that has a float), and when the target
    is 0 (for non-negative counts with a positive entry and a sum below
    2^53): the divisor is then 0.0 and the first quotient raises. *)
Theorem apportion_counts_zero_division (counts : list Z) (target_sum : Z) :
  (py_sum counts = 0 -> Z.abs target_sum < float_int_limit ->
   bayes_estimate.apportion_counts counts target_sum = inl ZeroDivisionError)
  /\ (target_sum = 0 ->
      Forall (fun c => 0 <= c) counts -> Exists (fun c => 0 < c) counts ->
      py_sum counts < 2 ^ 53 ->
      bayes_estimate.apportion_counts counts target_sum = inl ZeroDivisionError).
Proof.
  split.
  - intros Hzero Habs.
    unfold bayes_estimate.apportion_counts, bayes_estimate.divisor_of.
    destruct (@float_of_int_defined target_sum Habs) as [t Ht]. rewrite Ht, Hzero. cbn [bind].
    reflexivity.
  - intros -> Hnonneg Hpos Hsmall.
    pose proof (n_positive_ge_1 Hpos) as Hn.
    pose proof (n_positive_le_sum Hnonneg) as Hle.
    destruct (@float_zero_quotient (py_sum counts)) as [d [Hd Hz]]; [lia|].
    unfold bayes_estimate.apportion_counts, bayes_estimate.divisor_of.
    rewrite Hd. cbn [bind].
    pose proof (py_sum_bounds_items Hnonneg) as Hb.
    destruct counts as [|c counts]; [inversion Hpos|].
    cbn [map combine for_each fst snd].
    apply Forall_cons_iff in Hb. destruct Hb as [Hc _].
    destruct (@float_of_int_defined c) as [fc Hfc].
    { rewrite Z.abs_eq by lia.
      apply Z.le_lt_trans with (py_sum (c :: counts)); [lia|].
      apply Z.lt_trans with (2 ^ 53); [exact Hsmall|reflexivity]. }
    rewrite Hfc. cbn [bind]. unfold float_truediv. rewrite Hz. reflexivity.
Qed.

Lemma apportion_counts_zero_division_witness :
  bayes_estimate.apportion_counts [0; 0] 3 = inl ZeroDivisionError
  /\ bayes_estimate.apportion_counts [3; 3] 0 = inl ZeroDivisionError.
Proof.
  split.
  - apply (proj1 (apportion_counts_zero_division [0; 0] 3)); reflexivity.
  - apply (proj2 (apportion_counts_zero_division [3; 3] 0)).
    + reflexivity.
    + repeat constructor; lia.
    + apply Exists_cons_hd. lia.
    + reflexivity.
Defined.

(** ** computeMedian *)

Lemma SFleb_trans (x y z : spec_float) :
  SFleb x y = true -> SFleb y z = true -> SFleb x z = true.
Proof.
  unfold SFleb.
  destruct x as [sx|sx| |sx mx ex], y as [sy|sy| |sy my ey], z as [sz|sz| |sz mz ez];
    cbn [SFcompare];
    try discriminate; try reflexivity;
    try (destruct sx; try discriminate; try reflexivity;
         destruct sy; try discriminate; try reflexivity;
         destruct sz; try discriminate; try reflexivity; fail);
    try (destruct sx; try discriminate; try reflexivity;
         destruct sz; try discriminate; try reflexivity;
         destruct sy; try discriminate; try reflexivity; fail).
  all: destruct sx, sy, sz; try discriminate; try reflexivity.
  all: change (Pos.compare_cont Eq mx my) with (Pos.compare mx my);
    change (Pos.compare_cont Eq my mz) with (Pos.compare my mz);
    change (Pos.compare_cont Eq mx mz) with (Pos.compare mx mz);
    destruct (Z.compare_spec ex ey), (Z.compare_spec ey ez), (Z.compare_spec ex ez);
    try discriminate; try reflexivity; try lia;
    destruct (Pos.compare_spec mx my), (Pos.compare_spec my mz), (Pos.compare_spec mx mz);
    cbn [CompOpp]; try discriminate; try reflexivity; try lia.
Qed.

Lemma float_le_trans (a b c : float) : float_le a b -> float_le b c -> float_le a c.
Proof.
  unfold float_le. rewrite !FloatAxioms.leb_spec. apply SFleb_trans.
Qed.

Lemma float_le_refl (a : float) : not_nan a -> float_le a a.
Proof.
  intros H. apply float_not_ltb_le; [exact H|exact H|].
  unfold not_nan in H. rewrite FloatAxioms.eqb_spec in H. rewrite FloatAxioms.ltb_spec.
  unfold SFeqb in H. unfold SFltb.
  destruct (SFcompare (Prim2SF a) (Prim2SF a)) as [[| |]|]; congruence.
Qed.

Lemma filter_length_perm {A} (f : A -> bool) (l l' : list A) :
  Permutation l l' -> List.length (filter f l) = List.length (filter f l').
Proof.
  induction 1 as [|x l l' _ IH|x y l|l l' l'' _ IH1 _ IH2]; cbn [filter].
  - reflexivity.
  - destruct (f x); simpl; congruence.
  - destruct (f x), (f y); reflexivity.
  - congruence.
Qed.

Lemma filter_length_all {A} (f : A -> bool) (l : list A) :
  Forall (fun x => f x = true) l -> List.length (filter f l) = List.length l.
Proof.
  induction 1 as [|x l Hx _ IH]; cbn [filter]; [reflexivity|].
  rewrite Hx. simpl. congruence.
Qed.

Lemma filter_length_le {A} (f : A -> bool) (l : list A) :
  (List.length (filter f l) <= List.length l)%nat.
Proof.
  induction l as [|x l IH]; cbn [filter]; [lia|]. destruct (f x); simpl; lia.
Qed.

(** Around the item at place [k] of a list in ascending order. *)
Lemma sorted_split_at (s : list float) (k : nat) (m : float) :
  StronglySorted float_le s -> Forall not_nan s -> nth_error s k = Some m ->
  Forall (fun x => PrimFloat.leb x m = true) (firstn (S k) s)
  /\ Forall (fun x => PrimFloat.leb m x = true) (skipn k s).
Proof.
  revert k. induction s as [|a s IH]; intros k Hs Hnn Hk; [destruct k; discriminate|].
  inversion Hs as [|? ? Hs' Ha]; subst. inversion Hnn as [|? ? Hna Hnn']; subst.
  destruct k as [|k]; cbn [nth_error firstn skipn] in *.
  - inversion Hk; subst. split.
    + constructor; [apply float_le_refl; exact Hna|constructor].
    + constructor; [apply float_le_refl; exact Hna|exact Ha].
  - destruct (IH k Hs' Hnn' Hk) as [Hlo Hhi]. split; [|exact Hhi].
    constructor; [|exact Hlo].
    rewrite Forall_forall in Ha. apply Ha. eapply nth_error_In. exact Hk.
Qed.

Lemma half_bounds (n : nat) :
  (n mod 2 = 0 \/ n mod 2 = 1)%nat /\ (n = 2 * (n / 2) + n mod 2)%nat.
Proof.
  pose proof (Nat.div_mod_eq n 2). pose proof (Nat.mod_upper_bound n 2). lia.
Qed.

(** X11: [computeMedian] raises [IndexError] on the empty list and
    returns a number on every other list.  On a list of odd length the
    number is one of the items, and when no item is a nan it is a median
    for the order of floats: more than half of the items are [<=] it and
    more than half are [>=] it. *)
Theorem computeMedian_is_a_median (draws : list float) :
  (draws = [] -> fst (bayes_estimate.computeMedian draws) = inl IndexError)
  /\ (draws <> [] ->
      exists m,
        fst (bayes_estimate.computeMedian draws) = inr m
        /\ (Nat.odd (List.length draws) = true ->
            In m draws
            /\ (Forall not_nan draws ->
                len draws < 2 * count_if (fun x => PrimFloat.leb x m) draws
                /\ len draws < 2 * count_if (fun x => PrimFloat.leb m x) draws))).
Proof.
  split; [intros ->; reflexivity|].
  intros Hne.
  pose proof (sorted_perm (fun x : float => x) PrimFloat.ltb draws) as Hperm.
  pose proof (Permutation_length Hperm) as Hlen.
  unfold bayes_estimate.computeMedian. cbn [fst].
  set (s := sorted (fun x : float => x) PrimFloat.ltb draws) in *.
  assert (Hpos : (0 < List.length s)%nat).
  { rewrite Hlen. destruct draws; [congruence|simpl; lia]. }
  destruct (half_bounds (List.length s)) as [Hmod Hdiv].
  destruct (Nat.eqb (List.length s mod 2) 0) eqn:Epar.
  - apply Nat.eqb_eq in Epar.
    destruct (List.length s) as [|L'] eqn:EL; [lia|]. rewrite <- EL in *.
    destruct (nth_error s (List.length s / 2 - 1)) as [a|] eqn:Ea.
    2:{ apply nth_error_None in Ea. lia. }
    destruct (nth_error s (List.length s / 2)) as [b|] eqn:Eb.
    2:{ apply nth_error_None in Eb. lia. }
    eexists. split; [reflexivity|].
    intros Hodd. rewrite Nat.odd_spec in Hodd. destruct Hodd as [q Hq]. lia.
  - apply Nat.eqb_neq in Epar.
    destruct (nth_error s (List.length s / 2)) as [m|] eqn:Em.
    2:{ apply nth_error_None in Em. lia. }
    exists m. split; [reflexivity|]. intros _.
    split; [apply (Permutation_in _ Hperm); eapply nth_error_In; exact Em|].
    intros Hnn.
    assert (Hs : StronglySorted float_le s).
    { apply Sorted_StronglySorted; [intros a b c; apply float_le_trans|].
      apply (computeMedian_ascending Hnn). }
    assert (Hnns : Forall not_nan s).
    { apply Forall_forall. intros x Hx. rewrite Forall_forall in Hnn.
      apply Hnn. apply (Permutation_in _ Hperm). exact Hx. }
    destruct (@sorted_split_at _ _ _ Hs Hnns Em) as [Hlo Hhi].
    unfold count_if, len.
    rewrite (filter_length_perm (fun x => PrimFloat.leb x m) (Permutation_sym Hperm)).
    rewrite (filter_length_perm (fun x => PrimFloat.leb m x) (Permutation_sym Hperm)).
    rewrite <- Hlen.
    split.
    + rewrite <- (firstn_skipn (S (List.length s / 2)) s) at 2.
      rewrite filter_app, length_app, (filter_length_all _ Hlo), length_firstn. lia.
    + assert (Hall : List.length (filter (fun x => PrimFloat.leb m x)
                                         (skipn (List.length s / 2) s))
                     = List.length (skipn (List.length s / 2) s))
        by (apply filter_length_all; exact Hhi).
      rewrite <- (firstn_skipn (List.length s / 2) s) at 2.
      rewrite filter_app, length_app, Hall, length_skipn. lia.
Qed.

Lemma computeMedian_is_a_median_witness :
  exists m,
    fst (bayes_estimate.computeMedian [0.75; 0.25; 0.5]%float) = inr m
    /\ (Nat.odd (List.length [0.75; 0.25; 0.5]%float) = true ->
        In m [0.75; 0.25; 0.5]%float
        /\ (Forall not_nan [0.75; 0.25; 0.5]%float ->
            len [0.75; 0.25; 0.5]%float
            < 2 * count_if (fun x => PrimFloat.leb x m) [0.75; 0.25; 0.5]%float
            /\ len [0.75; 0.25; 0.5]%float
               < 2 * count_if (fun x => PrimFloat.leb m x) [0.75; 0.25; 0.5]%float)).
Proof.
  apply (proj2 (computeMedian_is_a_median [0.75; 0.25; 0.5]%float)).
  discriminate.
Defined.

(** ** deduplicate_counts (Bayesian estimator) *)

Lemma filter_positive_none (values : list Z) :
  Forall (fun v => v <= 0) values -> filter (fun value => 0 <? value) values = [].
Proof.
  induction 1 as [|v values Hv _ IH]; [reflexivity|].
  cbn [filter]. replace (0 <? v) with false by (symmetry; apply Z.ltb_ge; exact Hv).
  exact IH.
Qed.

(** X12: with the uniform prior, a table without a positive count (no
    read at the position) makes [deduplicate_counts] raise
    [ZeroDivisionError] at [C_prior = [1. / n] * n], before the sampler
    is called. *)
Theorem deduplicate_counts_without_reads
        sampler (umi_counts : OrderedDict.t Z) (nsamp nthin nburn : Z)
        (total_counts : option (OrderedDict.t Z)) :
  Forall (fun kv => snd kv <= 0) umi_counts ->
  bayes_estimate.returned
    (bayes_estimate.deduplicate_counts sampler umi_counts nsamp nthin nburn true total_counts)
  = inl ZeroDivisionError
  /\ bayes_estimate.pi_post_after
       (bayes_estimate.deduplicate_counts sampler umi_counts nsamp nthin nburn true total_counts)
     = None.
Proof.
  intros Hall.
  assert (Hdraw : bayes_estimate.draw_posterior sampler umi_counts nsamp nthin nburn true
                    total_counts = inl ZeroDivisionError).
  { unfold bayes_estimate.draw_posterior, bayes_estimate.collect_data.
    rewrite filter_positive_none.
    - reflexivity.
    - unfold OrderedDict.values. apply Forall_map. exact Hall. }
  rewrite returned_deduplicate_counts, pi_post_after_deduplicate_counts, Hdraw.
  split; reflexivity.
Qed.

Lemma deduplicate_counts_without_reads_witness :
  bayes_estimate.returned
    (bayes_estimate.deduplicate_counts (constant_sampler [0.5]%float)
       [("A"%string, 0); ("C"%string, 0)] 1000 1 200 true None)
  = inl ZeroDivisionError
  /\ bayes_estimate.pi_post_after
       (bayes_estimate.deduplicate_counts (constant_sampler [0.5]%float)
          [("A"%string, 0); ("C"%string, 0)] 1000 1 200 true None)
     = None.
Proof.
  apply (@deduplicate_counts_without_reads (constant_sampler [0.5]%float)
           [("A"%string, 0); ("C"%string, 0)] 1000 1 200 None).
  repeat constructor; simpl; lia.
Defined.

Lemma collect_loop (total_counts : option (OrderedDict.t Z)) (items : list (string * Z)) :
  forall acc dt,
    for_in items
      (fun (acc : list Z * list Z) (kv : string * Z) =>
         if 0 <? snd kv then
           tc <- match total_counts with
                 | None => raise TypeError
                 | Some d => OrderedDict.get d (fst kv)
                 end ;;
           ret (fst acc ++ [snd kv], snd acc ++ [tc])
         else ret acc) acc = inr dt ->
    fst dt = (fst acc ++ filter (fun value => 0 <? value) (map snd items))%list.
Proof.
  induction items as [|[k v] items IH]; intros acc dt; cbn [for_in map filter snd fst].
  - intros H. inversion H. rewrite app_nil_r. reflexivity.
  - destruct (0 <? v).
    + destruct (match total_counts with
                | None => raise TypeError
                | Some d => OrderedDict.get d k
                end) as [e|tc]; cbn [bind ret]; [discriminate|].
      intros H. apply IH in H. rewrite H. cbn [fst]. rewrite <- app_assoc. reflexivity.
    + cbn [bind ret]. apply IH.
Qed.

Lemma collect_data_positive (umi_counts : OrderedDict.t Z) (uniform : bool)
      (total_counts : option (OrderedDict.t Z)) (dt : list Z * list Z) :
  bayes_estimate.collect_data umi_counts uniform total_counts = inr dt ->
  fst dt = filter (fun value => 0 <? value) (OrderedDict.values umi_counts).
Proof.
  unfold bayes_estimate.collect_data. destruct uniform.
  - intros H. inversion H. reflexivity.
  - intros H. apply collect_loop in H. exact H.
Qed.

Lemma record_estimate_entry (umi_true : OrderedDict.t Z) (umi : string) (raw dedup : Z)
      (t : OrderedDict.t Z) :
  ~ In umi (OrderedDict.keys umi_true) ->
  bayes_estimate.record_estimate umi_true (umi, raw, dedup) = inr t ->
  exists v, t = (umi_true ++ [(umi, v)])%list /\ estimate_of (umi, raw) (umi, v).
Proof.
  intros Hnew. unfold bayes_estimate.record_estimate, estimate_of.
  destruct (raw =? 0) eqn:E; cbn [ret fst snd].
  - apply Z.eqb_eq in E. intros H. inversion H. exists raw.
    rewrite od_set_not_in by exact Hnew. split; [reflexivity|].
    split; [reflexivity|split; intros; lia].
  - apply Z.eqb_neq in E.
    destruct (float_of_int dedup) as [e|f]; cbn [bind]; [discriminate|].
    destruct (py_round f) as [e|v]; cbn [bind]; [discriminate|].
    unfold assert. destruct (0 <? v) eqn:Ev; cbn [bind ret raise]; [|discriminate].
    apply Z.ltb_lt in Ev. intros H. inversion H. exists v.
    rewrite od_set_not_in by exact Hnew. split; [reflexivity|].
    split; [reflexivity|split; intros; lia].
Qed.

Lemma record_loop (umi_counts : OrderedDict.t Z) :
  forall (data_dedup : list Z) (acc t : OrderedDict.t Z),
    NoDup (OrderedDict.keys acc ++ OrderedDict.keys umi_counts) ->
    for_in (zip3 (OrderedDict.keys umi_counts) (OrderedDict.values umi_counts) data_dedup)
           bayes_estimate.record_estimate acc = inr t ->
    exists new,
      t = (acc ++ new)%list
      /\ Forall2 estimate_of (firstn (List.length data_dedup) umi_counts) new.
Proof.
  induction umi_counts as [|[k c] d IH]; intros ds acc t Hnd Hloop.
  - cbn [OrderedDict.keys OrderedDict.values map zip3 for_in ret] in Hloop.
    inversion Hloop. exists []. rewrite app_nil_r, firstn_nil. split; [reflexivity|constructor].
  - destruct ds as [|x ds];
      cbn [OrderedDict.keys OrderedDict.values map zip3 for_in ret fst snd] in Hloop.
    + inversion Hloop. exists []. rewrite app_nil_r. split; [reflexivity|constructor].
    + destruct (bayes_estimate.record_estimate acc (k, c, x)) as [e|acc1] eqn:Estep;
        cbn [bind] in Hloop; [discriminate|].
      apply record_estimate_entry in Estep.
      2:{ cbn [OrderedDict.keys map fst] in Hnd. apply NoDup_remove_2 in Hnd.
          intros Hin. apply Hnd. apply in_or_app. left. exact Hin. }
      destruct Estep as [v [-> Hv]].
      destruct (IH ds (acc ++ [(k, v)])%list t) as [new [Ht Hnew]].
      * unfold OrderedDict.keys in *. rewrite map_app. cbn [map fst] in *.
        rewrite <- app_assoc. exact Hnd.
      * exact Hloop.
      * exists ((k, v) :: new). split; [rewrite Ht, <- app_assoc; reflexivity|].
        cbn [List.length firstn]. constructor; assumption.
Qed.

Lemma estimate_keys (raws ests : list (string * Z)) :
  Forall2 estimate_of raws ests -> OrderedDict.keys ests = OrderedDict.keys raws.
Proof.
  unfold OrderedDict.keys.
  induction 1 as [|r e raws ests [Hk _] _ IH]; [reflexivity|].
  cbn [map]. rewrite Hk, IH. reflexivity.
Qed.

(** X13: whenever [deduplicate_counts] returns a table for a table of
    [k] positive counts, with either prior and whatever the sampler drew,
    the result has [k] entries and they stand for the first [k] UMIs of
    the table given, in its order: each one holds 0 when the count of
    that UMI is 0 and a positive number otherwise.  So the result is
    defined over the UMIs given exactly when every count is positive. *)
Theorem deduplicate_counts_entries
        sampler (umi_counts : OrderedDict.t Z) (nsamp nthin nburn : Z) (uniform : bool)
        (total_counts : option (OrderedDict.t Z)) (umi_true : OrderedDict.t Z) :
  NoDup (OrderedDict.keys umi_counts) ->
  bayes_estimate.returned
    (bayes_estimate.deduplicate_counts sampler umi_counts nsamp nthin nburn uniform total_counts)
  = inr umi_true ->
  Forall2 estimate_of
    (firstn (Z.to_nat (n_positive (OrderedDict.values umi_counts))) umi_counts) umi_true
  /\ OrderedDict.keys umi_true
     = firstn (Z.to_nat (n_positive (OrderedDict.values umi_counts)))
              (OrderedDict.keys umi_counts)
  /\ (Forall (fun kv => 0 < snd kv) umi_counts ->
      OrderedDict.keys umi_true = OrderedDict.keys umi_counts
      /\ Forall (fun kv => 0 < snd kv) umi_true).
Proof.
  intros Hnd Hret.
  rewrite returned_deduplicate_counts in Hret.
  destruct (bayes_estimate.draw_posterior sampler umi_counts nsamp nthin nburn uniform
              total_counts) as [e|[data pi_post]] eqn:Edraw; cbn [bind fst snd] in Hret;
    [discriminate|].
  assert (Hdata : data = filter (fun value => 0 <? value) (OrderedDict.values umi_counts)).
  { unfold bayes_estimate.draw_posterior in Edraw.
    destruct (bayes_estimate.collect_data umi_counts uniform total_counts) as [e|dt] eqn:Ec;
      cbn [bind] in Edraw; [discriminate|].
    apply collect_data_positive in Ec.
    destruct (bayes_estimate.C_prior_of uniform (len (fst dt)) (snd dt)) as [e|C_prior];
      cbn [bind] in Edraw; [discriminate|].
    match type of Edraw with context [sampler ?a ?b ?c ?d ?e ?f ?g ?h ?i ?j] =>
      destruct (sampler a b c d e f g h i j) as [e0|pp] end;
      cbn [bind ret] in Edraw; [discriminate|].
    inversion Edraw. subst. exact Ec. }
  rewrite fst_distribute in Hret.
  destruct (fst (bayes_estimate.computeMedian pi_post)) as [e|p]; cbn [bind] in Hret;
    [discriminate|].
  destruct (float_of_int (py_sum data)) as [e|N]; cbn [bind] in Hret; [discriminate|].
  destruct (py_round (PrimFloat.mul p N)) as [e|target]; cbn [bind] in Hret; [discriminate|].
  destruct (bayes_estimate.apportion_counts data target) as [e|data_dedup] eqn:Eapp;
    cbn [bind] in Hret; [discriminate|].
  apply apportion_counts_length in Eapp.
  destruct (@record_loop umi_counts data_dedup [] umi_true Hnd Hret) as [new [Ht Hnew]].
  cbn [app] in Ht. subst new.
  assert (Hk : Z.to_nat (n_positive (OrderedDict.values umi_counts)) = List.length data_dedup).
  { unfold n_positive, len. rewrite Nat2Z.id, Eapp, Hdata. reflexivity. }
  rewrite Hk.
  split; [exact Hnew|].
  split.
  - rewrite (estimate_keys Hnew). unfold OrderedDict.keys. symmetry. apply firstn_map.
  - intros Hpos.
    assert (Hfull : firstn (List.length data_dedup) umi_counts = umi_counts).
    { apply firstn_all2. rewrite Eapp, Hdata. unfold OrderedDict.values.
      rewrite filter_length_all; [rewrite length_map; lia|].
      apply Forall_forall. intros v Hv. apply in_map_iff in Hv.
      destruct Hv as [kv [<- Hkv]]. rewrite Forall_forall in Hpos.
      apply Z.ltb_lt. apply Hpos. exact Hkv. }
    rewrite Hfull in Hnew. split; [apply estimate_keys; exact Hnew|].
    clear - Hnew Hpos.
    induction Hnew as [|r e raws ests [_ [_ Hv]] _ IH]; [constructor|].
    inversion Hpos; subst. constructor; [apply Hv; lia|apply IH; assumption].
Qed.

Lemma deduplicate_counts_entries_witness :
  Forall2 estimate_of (firstn (Z.to_nat (n_positive (OrderedDict.values table_C4))) table_C4)
          [("A"%string, 0)]
  /\ OrderedDict.keys [("A"%string, 0)]
     = firstn (Z.to_nat (n_positive (OrderedDict.values table_C4))) (OrderedDict.keys table_C4)
  /\ (Forall (fun kv => 0 < snd kv) table_C4 ->
      OrderedDict.keys [("A"%string, 0)] = OrderedDict.keys table_C4
      /\ Forall (fun kv => 0 < snd kv) [("A"%string, 0)]).
Proof.
  apply (@deduplicate_counts_entries (constant_sampler [0.25; 0.5; 0.75]%float) table_C4
           bayes_estimate.DEFAULT_NSAMP bayes_estimate.DEFAULT_NTHIN
           bayes_estimate.DEFAULT_NBURN true None [("A"%string, 0)]).
  - repeat constructor; simpl; intuition discriminate.
  - vm_compute. reflexivity.
Defined.

(** ** dedup_cluster (Poisson-mixture estimator) *)












(** ** get_umi: what a UMI never contains *)

Lemma partition_head_free (c : ascii) (s : string) :
  char_free c (Str.fst3 (Str.partition c s)).
Proof.
  induction s as [|a s IH]; cbn [Str.partition]; [reflexivity|].
  destruct (Ascii.eqb a c) eqn:E; [reflexivity|].
  destruct (Str.partition c s) as [[h sep] t]. unfold Str.fst3 in *. cbn [fst] in *.
  apply char_free_cons. split; [apply Ascii.eqb_neq; exact E|exact IH].
Qed.

Lemma partition_head_keeps (c d : ascii) (s : string) :
  char_free d s -> char_free d (Str.fst3 (Str.partition c s)).
Proof.
  induction s as [|a s IH]; cbn [Str.partition]; intros H; [reflexivity|].
  apply char_free_cons in H. destruct H as [Ha Hs].
  destruct (Ascii.eqb a c); [reflexivity|].
  specialize (IH Hs).
  destruct (Str.partition c s) as [[h sep] t]. unfold Str.fst3 in *. cbn [fst] in *.
  apply char_free_cons. split; assumption.
Qed.

Lemma rpartition_tail (c : ascii) (s : string) :
  char_free c (Str.thd3 (Str.rpartition c s))
  /\ (forall d, char_free d s -> char_free d (Str.thd3 (Str.rpartition c s)))
  /\ (snd (fst (Str.rpartition c s)) = EmptyString -> Str.thd3 (Str.rpartition c s) = s).
Proof.
  induction s as [|a s IH]; cbn [Str.rpartition].
  - repeat split; auto.
  - destruct (Str.rpartition c s) as [[h sep] t]. unfold Str.thd3 in *. cbn [fst snd] in *.
    destruct IH as [Hfree [Hkeep Hwhole]].
    destruct sep as [|x sep].
    + specialize (Hwhole eq_refl). subst t.
      destruct (Ascii.eqb a c) eqn:E; cbn [fst snd].
      * split; [exact Hfree|]. split; [|discriminate].
        intros d H. apply char_free_cons in H. apply H.
      * split; [apply char_free_cons; split; [apply Ascii.eqb_neq; exact E|exact Hfree]|].
        split; [intros d H; exact H|reflexivity].
    + cbn [fst snd]. split; [exact Hfree|]. split; [|discriminate].
      intros d H. apply char_free_cons in H. apply Hkeep. apply H.
Qed.

Lemma substring_keeps (d : ascii) (s : string) :
  char_free d s -> forall n m, char_free d (substring n m s).
Proof.
  induction s as [|a s IH]; intros H n m.
  - destruct n, m; reflexivity.
  - apply char_free_cons in H. destruct H as [Ha Hs].
    destruct n as [|n]; cbn [substring].
    + destruct m as [|m]; [reflexivity|].
      apply char_free_cons. split; [exact Ha|apply IH; exact Hs].
    + apply IH. exact Hs.
Qed.

Lemma substring_length_le (s : string) (m : nat) :
  (String.length (substring 0 m s) <= m)%nat.
Proof.
  revert m. induction s as [|a s IH]; intros [|m]; cbn [substring String.length]; try lia.
  specialize (IH m). lia.
Qed.

Lemma split_free (c : ascii) (s : string) : Forall (char_free c) (Str.split c s).
Proof.
  induction s as [|a s IH]; cbn [Str.split]; [repeat constructor|].
  destruct (Ascii.eqb a c) eqn:E; [constructor; [reflexivity|exact IH]|].
  apply Ascii.eqb_neq in E.
  destruct (Str.split c s) as [|tok toks].
  - constructor; [|constructor]. apply char_free_cons. split; [exact E|reflexivity].
  - inversion IH; subst. constructor; [|assumption].
    apply char_free_cons. split; assumption.
Qed.

Lemma Forall_firstn_of {A} (P : A -> Prop) (n : nat) (l : list A) :
  Forall P l -> Forall P (firstn n l).
Proof.
  intros H. revert n. induction H as [|x l Hx _ IH]; intros [|n]; cbn [firstn];
    constructor; auto.
Qed.

Lemma get_umi_labels_clean (labels : list string) (truncate : option Z) (umi : string) :
  Forall (char_free " ") labels ->
  umi_data.get_umi_labels labels truncate = inr umi ->
  char_free ":" umi /\ char_free "#" umi /\ char_free "/" umi /\ char_free " " umi
  /\ (forall t, truncate = Some t -> 0 <= t -> Z.of_nat (String.length umi) <= t).
Proof.
  induction 1 as [|label rest Hlabel _ IH]; cbn [umi_data.get_umi_labels]; [discriminate|].
  destruct ((Str.count ":" label =? 5) || (Str.count ":" label =? 7)); [|exact IH].
  set (head := Str.fst3 (Str.partition "/" (Str.fst3 (Str.partition "#" label)))).
  set (seg := Str.thd3 (Str.rpartition ":" head)).
  assert (Hhash : char_free "#" head)
    by (apply partition_head_keeps, partition_head_free).
  assert (Hslash : char_free "/" head) by apply partition_head_free.
  assert (Hspace : char_free " " head)
    by (apply partition_head_keeps, partition_head_keeps; exact Hlabel).
  destruct (rpartition_tail ":" head) as [Hcolon [Hkeep _]]. fold seg in Hcolon, Hkeep.
  intros H. unfold ret in H. inversion H as [Humi]. clear H.
  destruct truncate as [t|].
  - unfold Str.slice_to.
    repeat split; try (apply substring_keeps; auto).
    intros t' Ht' Hpos. inversion Ht'; subst t'.
    replace (t <? 0) with false by (symmetry; apply Z.ltb_ge; exact Hpos).
    pose proof (substring_length_le seg (Z.to_nat t)). lia.
  - repeat split; auto. intros t Ht. discriminate Ht.
Qed.

(** X16: whatever the read name, a UMI returned by [get_umi] contains
    no colon, no [#], no [/] and no space, and with a non-negative
    [truncate] it has at most [truncate] characters; the only exception
    [get_umi] raises is [RuntimeError]. *)
Theorem get_umi_without_separators (read_name : string) (truncate : option Z) :
  (forall umi,
      umi_data.get_umi read_name truncate = inr umi ->
      char_free ":" umi /\ char_free "#" umi /\ char_free "/" umi /\ char_free " " umi
      /\ (forall t, truncate = Some t -> 0 <= t -> Z.of_nat (String.length umi) <= t))
  /\ (forall e, umi_data.get_umi read_name truncate = inl e -> e = RuntimeError).
Proof.
  unfold umi_data.get_umi. split.
  - intros umi. apply get_umi_labels_clean. apply Forall_firstn_of. apply split_free.
  - intros e. apply get_umi_labels_error.
Qed.

Lemma get_umi_without_separators_witness :
  char_free ":" "ACGT" /\ char_free "#" "ACGT" /\ char_free "/" "ACGT" /\ char_free " " "ACGT"
  /\ (forall t, Some 4 = Some t -> 0 <= t -> Z.of_nat (String.length "ACGT") <= t).
Proof.
  apply (proj1 (get_umi_without_separators
                  "SRR001.1 M01:7:FC1:1:1101:1500:2000:ACGTACGT#0/1" (Some 4)) "ACGT"%string).
  reflexivity.
Defined.

(** ** mark_duplicates: what it leaves alone *)

Lemma flag_all_length (l : list parse_sam.address) (h : parse_sam.heap) :
  List.length (flag_all l h) = List.length h.
Proof.
  unfold flag_all. revert h. induction l as [|a l IH]; intros h; cbn [fold_left]; [reflexivity|].
  rewrite IH. apply length_update.
Qed.

Lemma In_firstn_of {A} (n : nat) (l : list A) (x : A) : In x (firstn n l) -> In x l.
Proof.
  intros H. rewrite <- (firstn_skipn n l). apply in_or_app. left. exact H.
Qed.

(** X17: [mark_duplicates(reads, n)] raises [AssertionError] when [n]
    exceeds the number of reads and returns the list it was given
    otherwise.  It creates and removes no record, touches no record
    outside [reads], changes nothing of a record but its duplicate flag,
    and never clears a flag. *)
Theorem mark_duplicates_frame
        (h : parse_sam.heap) (reads : list parse_sam.address) (n : Z) :
  (len reads < n -> umi_data.mark_duplicates h reads n = inl AssertionError)
  /\ (n <= len reads ->
      exists h',
        umi_data.mark_duplicates h reads n = inr (h', reads)
        /\ List.length h' = List.length h
        /\ (forall a, ~ In a reads -> nth_error h' a = nth_error h a)
        /\ (forall a r, nth_error h a = Some r ->
                        nth_error h' a = Some r
                        \/ nth_error h' a = Some (parse_sam.set_is_duplicate true r))
        /\ (forall a, parse_sam.flag_at h a = true -> parse_sam.flag_at h' a = true)).
Proof.
  unfold umi_data.mark_duplicates. split.
  - intros Hn. replace (n <=? len reads) with false by (symmetry; apply Z.leb_gt; exact Hn).
    reflexivity.
  - intros Hn. replace (n <=? len reads) with true by (symmetry; apply Z.leb_le; exact Hn).
    cbn [assert bind ret].
    destruct (0 <? n).
    + set (flagged := firstn (Z.to_nat n) (sorted (parse_sam.quality_at h) Z.ltb reads)).
      fold (flag_all flagged h).
      assert (Hsub : forall a, In a flagged -> In a reads).
      { intros a Ha. apply In_firstn_of in Ha.
        apply (Permutation_in _ (sorted_perm (parse_sam.quality_at h) Z.ltb reads)). exact Ha. }
      assert (Hcases : forall a r, nth_error h a = Some r ->
                nth_error (flag_all flagged h) a = Some r
                \/ nth_error (flag_all flagged h) a
                   = Some (parse_sam.set_is_duplicate true r)).
      { intros a r Hr. destruct (in_dec Nat.eq_dec a flagged) as [Hin|Hout].
        - right. rewrite flag_all_inside by exact Hin. rewrite Hr. reflexivity.
        - left. rewrite flag_all_outside by exact Hout. exact Hr. }
      exists (flag_all flagged h). split; [reflexivity|].
      split; [apply flag_all_length|].
      split; [intros a Ha; apply flag_all_outside; intros Hin; apply Ha, Hsub, Hin|].
      split; [exact Hcases|].
      intros a. unfold parse_sam.flag_at.
      destruct (nth_error h a) as [r|] eqn:Er; [|discriminate].
      intros Hflag. destruct (Hcases a r Er) as [-> | ->]; [exact Hflag|reflexivity].
    + exists h. split; [reflexivity|]. split; [reflexivity|].
      split; [reflexivity|]. split; [intros a r Hr; left; exact Hr|].
      intros a Ha. exact Ha.
Qed.

Lemma mark_duplicates_frame_witness :
  umi_data.mark_duplicates three_reads [0; 1]%nat 3 = inl AssertionError.
Proof.
  apply (proj1 (mark_duplicates_frame three_reads [0; 1]%nat 3)).
  reflexivity.
Defined.

(** ** read_umi_counts_from_table *)

Lemma py_int_error (s : string) (e : exn) : Str.py_int s = inl e -> e = ValueError.
Proof.
  unfold Str.py_int.
  destruct (match s with
            | String "-" rest => (true, rest)
            | String "+" rest => (false, rest)
            | _ => (false, s)
            end) as [negative body].
  destruct body as [|a body]; [intros H; inversion H; reflexivity|].
  destruct (Str.digits_value (String a body) 0); intros H; inversion H; reflexivity.
Qed.

Lemma read_table_line_cases (truncate : option Z) (d : OrderedDict.t Z) (line : string) :
  umi_data.read_table_line truncate d line
  = match table_line_umi truncate line with
    | None => inr d
    | Some umi => v <- table_line_count line ;; ret (OrderedDict.set d umi v)
    end.
Proof.
  unfold umi_data.read_table_line, table_line_umi, table_line_count.
  destruct (Str.split_whitespace line) as [|umi0 [|count rest]]; reflexivity.
Qed.

Lemma find_last {A} (f : A -> bool) (l : list A) (x : A) :
  find f (l ++ [x]) = match find f l with
                      | Some y => Some y
                      | None => if f x then Some x else None
                      end.
Proof.
  induction l as [|a l IH]; cbn [app find]; [reflexivity|].
  destruct (f a); [reflexivity|exact IH].
Qed.

Lemma table_loop (truncate : option Z) (lines : list string) :
  forall d : OrderedDict.t Z,
    Forall (fun line => exists v, table_line_count line = inr v) lines ->
    exists d',
      for_in lines (umi_data.read_table_line truncate) d = inr d'
      /\ (forall umi,
             OrderedDict.get d' umi
             = match find (names_umi truncate umi) (rev lines) with
               | Some line => table_line_count line
               | None => OrderedDict.get d umi
               end)
      /\ (d <> [] \/ Exists (fun line => table_line_umi truncate line <> None) lines ->
          d' <> [])
      /\ (d = [] -> Forall (fun line => table_line_umi truncate line = None) lines ->
          d' = []).
Proof.
  induction lines as [|line lines IH]; intros d Hall.
  - exists d. split; [reflexivity|]. split; [reflexivity|]. split.
    + intros [H|H]; [exact H|inversion H].
    + intros H _. exact H.
  - apply Forall_cons_iff in Hall. destruct Hall as [[v Hv] Hall].
    cbn [for_in]. rewrite read_table_line_cases.
    destruct (table_line_umi truncate line) as [u|] eqn:Eu.
    + rewrite Hv. cbn [bind ret].
      destruct (IH (OrderedDict.set d u v) Hall) as [d' [Hloop [Hget [Hne _]]]].
      exists d'. split; [exact Hloop|]. split; [|split].
      * intros umi. rewrite Hget. cbn [rev]. rewrite find_last.
        destruct (find (names_umi truncate umi) (rev lines)); [reflexivity|].
        unfold names_umi at 1. rewrite Eu.
        destruct (String.eqb u umi) eqn:E.
        -- apply String.eqb_eq in E. subst umi. rewrite od_get_set_same. symmetry. exact Hv.
        -- apply String.eqb_neq in E. apply od_get_set_other. exact E.
      * intros _. apply Hne. left. destruct d as [|[k x] d]; cbn [OrderedDict.set];
          [discriminate|destruct (String.eqb k u); discriminate].
      * intros _ Hblank. apply Forall_cons_iff in Hblank. destruct Hblank as [Hb _].
        congruence.
    + cbn [bind].
      destruct (IH d Hall) as [d' [Hloop [Hget [Hne Hempty]]]].
      exists d'. split; [exact Hloop|]. split; [|split].
      * intros umi. rewrite Hget. cbn [rev]. rewrite find_last.
        destruct (find (names_umi truncate umi) (rev lines)); [reflexivity|].
        unfold names_umi at 1. rewrite Eu. reflexivity.
      * intros [H|H]; apply Hne; [left; exact H|].
        apply Exists_cons in H. destruct H as [H|H]; [congruence|right; exact H].
      * intros Hd Hblank. apply Forall_cons_iff in Hblank. destruct Hblank as [_ Hb].
        apply Hempty; assumption.
Qed.

Lemma table_loop_error (truncate : option Z) (lines : list string) :
  forall (d : OrderedDict.t Z) (e : exn),
    for_in lines (umi_data.read_table_line truncate) d = inl e -> e = ValueError.
Proof.
  induction lines as [|line lines IH]; intros d e; cbn [for_in ret]; [discriminate|].
  rewrite read_table_line_cases.
  destruct (table_line_umi truncate line) as [u|]; cbn [bind]; [|apply IH].
  unfold table_line_count.
  destruct (Str.split_whitespace line) as [|t0 [|count rest]]; cbn [bind ret]; try apply IH.
  destruct (Str.py_int count) as [e'|v] eqn:Ei; cbn [bind ret]; [|apply IH].
  intros H. inversion H; subst. apply py_int_error in Ei. exact Ei.
Qed.

(** X18: [read_umi_counts_from_table] raises only the [ValueError] of a
    count that is not an integer and the [RuntimeError] of a table
    without an entry.  When every count given is an integer, it raises
    the latter exactly on a file of blank lines, and otherwise returns a
    non-empty table in which a UMI is a key when some line names it, its
    count being the count of the last such line (0 when that line gives
    none). *)
Theorem read_umi_counts_from_table_last_line_wins
        (in_file : list string) (truncate : option Z) :
  (forall e, umi_data.read_umi_counts_from_table in_file truncate = inl e ->
             e = ValueError \/ e = RuntimeError)
  /\ (Forall (fun line => exists v, table_line_count line = inr v) in_file ->
      (Forall (fun line => table_line_umi truncate line = None) in_file ->
       umi_data.read_umi_counts_from_table in_file truncate = inl RuntimeError)
      /\ (Exists (fun line => table_line_umi truncate line <> None) in_file ->
          exists umi_counts,
            umi_data.read_umi_counts_from_table in_file truncate = inr umi_counts
            /\ umi_counts <> []
            /\ (forall umi,
                   OrderedDict.get umi_counts umi
                   = match find (names_umi truncate umi) (rev in_file) with
                     | Some line => table_line_count line
                     | None => inl KeyError
                     end))).
Proof.
  unfold umi_data.read_umi_counts_from_table. split.
  - intros e.
    destruct (for_in in_file (umi_data.read_table_line truncate) []) as [e'|d] eqn:Eloop;
      cbn [bind].
    + intros H. inversion H; subst. left. eapply table_loop_error. exact Eloop.
    + destruct d; intros H; inversion H. right. reflexivity.
  - intros Hall.
    destruct (@table_loop truncate in_file [] Hall) as [d' [Hloop [Hget [Hne Hempty]]]].
    rewrite Hloop. cbn [bind]. split.
    + intros Hblank. rewrite (Hempty eq_refl Hblank). reflexivity.
    + intros Hex. exists d'.
      assert (Hd' : d' <> []) by (apply Hne; right; exact Hex).
      split; [destruct d'; [congruence|reflexivity]|].
      split; [exact Hd'|exact Hget].
Qed.

Lemma read_umi_counts_from_table_last_line_wins_witness :
  exists umi_counts,
    umi_data.read_umi_counts_from_table ["AC 5"; ""; "GT"; "AC 7 x"]%string None
    = inr umi_counts
    /\ umi_counts <> []
    /\ (forall umi,
           OrderedDict.get umi_counts umi
           = match find (names_umi None umi) (rev ["AC 5"; ""; "GT"; "AC 7 x"]%string) with
             | Some line => table_line_count line
             | None => inl KeyError
             end).
Proof.
  apply (proj2 (read_umi_counts_from_table_last_line_wins
                  ["AC 5"; ""; "GT"; "AC 7 x"]%string None)).
  - repeat constructor; eexists; reflexivity.
  - apply Exists_cons_hd. discriminate.
Defined.

Example read_umi_counts_from_table_example :
  umi_data.read_umi_counts_from_table ["AC 5"; ""; "GT"; "AC 7 x"]%string None
  = inr [("AC"%string, 7); ("GT"%string, 0)].
Proof. reflexivity. Qed.

Example read_umi_counts_from_table_bad_count :
  umi_data.read_umi_counts_from_table ["AC 5"; "GT 1.5"]%string None = inl ValueError.
Proof. reflexivity. Qed.

(** ** deduplicate_counts with the prior taken from the totals *)

Lemma collect_loop_error (total_counts : option (OrderedDict.t Z)) (items : list (string * Z)) :
  forall acc,
    match for_in items
            (fun (acc : list Z * list Z) (kv : string * Z) =>
               if 0 <? snd kv then
                 tc <- match total_counts with
                       | None => raise TypeError
                       | Some d => OrderedDict.get d (fst kv)
                       end ;;
                 ret (fst acc ++ [snd kv], snd acc ++ [tc])
               else ret acc) acc
    with
    | inl e =>
        match total_counts with
        | None => e = TypeError
        | Some d => e = KeyError
        end
    | inr _ =>
        Forall (fun kv => 0 < snd kv ->
                          exists d, total_counts = Some d /\ In (fst kv) (OrderedDict.keys d))
               items
    end.
Proof.
  induction items as [|[k v] items IH]; intros acc; cbn [for_in ret fst snd]; [constructor|].
  destruct (0 <? v) eqn:Ev.
  - destruct total_counts as [d|]; cbn [bind raise]; [|reflexivity].
    destruct (OrderedDict.get d k) as [e|tc] eqn:Eg; cbn [bind ret].
    + apply od_get_error in Eg. exact Eg.
    + specialize (IH (fst acc ++ [v], snd acc ++ [tc])%list).
      cbn [bind ret raise fst snd] in IH |- *.
      match goal with |- match ?m with _ => _ end => destruct m end; [exact IH|].
      constructor; [|exact IH]. intros _. exists d. split; [reflexivity|].
      destruct (in_dec string_dec k (OrderedDict.keys d)) as [Hin|Hout]; [exact Hin|].
      rewrite (od_get_not_in d k Hout) in Eg. discriminate.
  - specialize (IH acc). cbn [bind ret raise fst snd] in IH |- *.
    match goal with |- match ?m with _ => _ end => destruct m end; [exact IH|].
    constructor; [|exact IH]. apply Z.ltb_ge in Ev. cbn [snd]. intros; lia.
Qed.

(** X19: with [uniform = False], [deduplicate_counts] reads the total of
    every UMI of positive count.  Without [total_counts] it raises
    [TypeError] as soon as the table has a positive count, and with a
    [total_counts] that lacks one of those UMIs it raises [KeyError]; in
    both cases the sampler is not called. *)
Theorem deduplicate_counts_needs_totals
        sampler (umi_counts : OrderedDict.t Z) (nsamp nthin nburn : Z)
        (total_counts : option (OrderedDict.t Z)) :
  (total_counts = None ->
   Exists (fun kv => 0 < snd kv) umi_counts ->
   bayes_estimate.returned
     (bayes_estimate.deduplicate_counts sampler umi_counts nsamp nthin nburn false total_counts)
   = inl TypeError)
  /\ (forall d,
         total_counts = Some d ->
         Exists (fun kv => 0 < snd kv /\ ~ In (fst kv) (OrderedDict.keys d)) umi_counts ->
         bayes_estimate.returned
           (bayes_estimate.deduplicate_counts sampler umi_counts nsamp nthin nburn false
              total_counts)
         = inl KeyError).
Proof.
  pose proof (@collect_loop_error total_counts (OrderedDict.items umi_counts) ([], [])) as Hloop.
  rewrite returned_deduplicate_counts.
  unfold bayes_estimate.draw_posterior, bayes_estimate.collect_data.
  split.
  - intros -> Hex.
    match type of Hloop with match ?m with _ => _ end => destruct m as [e|dt] end.
    + subst e. reflexivity.
    + exfalso. apply Exists_exists in Hex. destruct Hex as [kv [Hin Hpos]].
      rewrite Forall_forall in Hloop. destruct (Hloop kv Hin Hpos) as [d [Hd _]].
      discriminate Hd.
  - intros d -> Hex.
    match type of Hloop with match ?m with _ => _ end => destruct m as [e|dt] end.
    + subst e. reflexivity.
    + exfalso. apply Exists_exists in Hex. destruct Hex as [kv [Hin [Hpos Hmiss]]].
      rewrite Forall_forall in Hloop. destruct (Hloop kv Hin Hpos) as [d' [Hd Hk]].
      inversion Hd; subst d'. contradiction.
Qed.

Lemma deduplicate_counts_needs_totals_witness :
  bayes_estimate.returned
    (bayes_estimate.deduplicate_counts (constant_sampler [0.5]%float) table_C4 1000 1 200
       false None)
  = inl TypeError.
Proof.
  apply (proj1 (@deduplicate_counts_needs_totals (constant_sampler [0.5]%float) table_C4
                  1000 1 200 None)).
  - reflexivity.
  - apply Exists_cons_tl, Exists_cons_hd. simpl. lia.
Defined.
